(** * async.h: partitioning, dispatch and failure aggregation

    A shallow embedding of [inc/async.h] (namespace [async]):
    - [runtime_threads], the cached worker-count resolution;
    - the dynamic [async_for_each] over an iterator range;
    - [chunk_of_sequence], [make_stepped_sequence], [for_each_index] and
      [async_for_each_index], the compile-time form.

    Iterators are modelled by their distance from [begin]: the range is
    the positions [0 .. size), [begin] is [0] and [end] is [size].
    [size_t] values are integers with the wrap-around modulo [2^64]
    written out. *)

From Stdlib Require Import ZArith Lia Ascii String.
From stdpp Require Import base tactics option list relations strings.

Local Open Scope Z_scope.

(** ** Machine integers *)

Definition wrap64 (x : Z) : Z := x mod 2 ^ 64.

(** [ptrdiff_t] holds the distance of every range. *)
Definition ptrdiff_max : Z := 2 ^ 63 - 1.

(** ** Dynamic partitioning (async_for_each, the launch loop) *)

(** What the head of [async_for_each] decides before any unit is launched. *)
Inductive entry : Type :=
| ReturnImmediately                      (* if (size == 0) return; *)
| DivisionByZero                         (* size / threads with threads == 0 *)
| Dispatch (threads chunk_size : Z).

Definition async_for_each_entry (size threads : Z) : entry :=
  if size =? 0 then ReturnImmediately
  else
    let threads := Z.min threads size in
    if threads =? 0 then DivisionByZero
    else Dispatch threads (size / threads).

(** The values a unit of work captures by copy. *)
Record chunk : Type := Chunk {
  local_chunk_begin : Z;
  local_chunk_end : Z;
  idx_offset : Z;
}.

Section launch_loop.
(** [random_access] is [is_random_access_iterator_v<I>]. *)
Variable random_access : bool.
Variables size threads chunk_size : Z.

(** [while (steps-- && chunk_end != end) ++chunk_end;] *)
Fixpoint advance (steps : nat) (chunk_end : Z) : Z :=
  match steps with
  | O => chunk_end
  | S steps' =>
      if chunk_end =? size then chunk_end
      else advance steps' (chunk_end + 1)
  end.

Definition next_chunk_end (i : nat) (chunk_begin : Z) : Z :=
  if random_access then
    if Z.of_nat i =? threads - 1 then size else chunk_begin + chunk_size
  else
    let steps := if Z.of_nat i =? threads - 1 then size else chunk_size in
    advance (Z.to_nat steps) chunk_begin.

(** One turn of the launch loop: the chunk handed to unit [i]. *)
Definition make_chunk (i : nat) (chunk_begin : Z) : chunk :=
  let chunk_end := next_chunk_end i chunk_begin in
  let chunk_len := chunk_end - chunk_begin in
  Chunk chunk_begin chunk_end (wrap64 (Z.of_nat i * chunk_len)).

(** The chunks of units [i, i + n), the loop variable [chunk_begin]
    threaded through. *)
Fixpoint launch_loop (n : nat) (i : nat) (chunk_begin : Z) : list chunk :=
  match n with
  | O => []
  | S n' =>
      let c := make_chunk i chunk_begin in
      c :: launch_loop n' (S i) (local_chunk_end c)
  end.
End launch_loop.

(** All chunks of a call, in launch order; [None] where the call divides
    by zero. *)
Definition chunks_of (random_access : bool) (size threads : Z)
  : option (list chunk) :=
  match async_for_each_entry size threads with
  | ReturnImmediately => Some []
  | DivisionByZero => None
  | Dispatch threads' chunk_size =>
      Some (launch_loop random_access size threads' chunk_size
              (Z.to_nat threads') 0 0)
  end.

Definition chunk_len (c : chunk) : Z := local_chunk_end c - local_chunk_begin c.

(** The positions a unit iterates: [for (it = begin; it != end; ++it)]. *)
Definition chunk_positions (c : chunk) : list Z :=
  seqZ (local_chunk_begin c) (chunk_len c).


(** ** Compile-time partitioning (chunk_of_sequence and friends)

    [T] is an unsigned integer type of [Tbits] bits whose rank is at least
    that of [unsigned int], so that arithmetic between two [T] values wraps
    modulo [2^Tbits]; arithmetic with a [size_t] operand wraps modulo
    [2^64], and initialising a [T] constant reduces modulo [2^Tbits]. *)

Section compile_time.
Variable Tbits : Z.

Definition wrapT (x : Z) : Z := x mod 2 ^ Tbits.

(** [std::integer_sequence<T, (N0 + Is * Ns)...>] for
    [Is = 0 .. (Nn - N0 + Ns - 1) / Ns - 1]. *)
Definition make_stepped_sequence (N0 Nn Ns : Z) : list Z :=
  (λ Is, wrapT (N0 + Is * Ns)) <$> seqZ 0 (wrapT (wrap64 (Nn - N0 + Ns - 1) / Ns)).

(** The static members of [chunk_of_sequence<T, N0, Nn, Ns, Ci, Cn>]. *)
Record chunk_of_sequence_t : Type := ChunkOfSequence {
  total : Z;
  chunk_size : Z;
  offset : Z;
  count : Z;
  chunk_start : Z;
  chunk_end : Z;
}.

(** [None]: the instantiation is ill-formed.  Either a constant expression
    divides by zero, or the member alias [type] cannot be instantiated, as
    it is together with the class: it names
    [std::make_integer_sequence<T, n>] with
    [n = (chunk_end - chunk_start + Ns - 1) / Ns] computed in [size_t], and
    [n] has to fit [T] and to be a number of entries a pack can have.  No
    implementation holds more than [PTRDIFF_MAX] entries; g++ stops at
    268435452.  Up to [PTRDIFF_MAX] the model takes the pack to be
    instantiable, as it does in [make_stepped_sequence]. *)
Definition chunk_of_sequence (N0 Nn Ns Ci Cn : Z) : option chunk_of_sequence_t :=
  if (Ns =? 0) || (Cn =? 0) then None
  else
    let total := wrap64 (Nn - N0 + Ns - 1) / Ns in
    let chunk_size := wrapT (wrap64 (total + Cn - 1) / Cn) in
    let offset := wrapT (wrap64 (Ci * chunk_size)) in
    let count :=
      if wrapT (offset + chunk_size) >? total
      then wrapT (wrap64 (total - offset))
      else chunk_size in
    let chunk_start := wrapT (wrap64 (N0 + offset * Ns)) in
    let chunk_end := wrapT (wrap64 (chunk_start + count * Ns)) in
    let n := wrap64 (chunk_end - chunk_start + Ns - 1) / Ns in
    if (n <? 2 ^ Tbits) && (n <=? ptrdiff_max)
    then Some (ChunkOfSequence total chunk_size offset count chunk_start chunk_end)
    else None.

(** The member [type] of a well-formed instantiation:
    [make_stepped_sequence<T, chunk_start, chunk_end, Ns>]. *)
Definition type (Ns : Z) (c : chunk_of_sequence_t) : list Z :=
  make_stepped_sequence (chunk_start c) (chunk_end c) Ns.

(** The arguments [for_each_index<T, Ns>(integer_sequence<T, Is...>, f, _)]
    passes to [f], in order: [I + Ns] for every [I] of the sequence. *)
Definition for_each_index (Ns : Z) (Is : list Z) : list Z :=
  (λ I, wrapT (I + Ns)) <$> Is.

(** What unit [Is] of [async_for_each_index] hands to [for_each_index]:
    [for_each_index<T, offset>(chunk{}, f, Is)] with
    [offset = chunk_of_sequence<...>::chunk_start]. *)
Definition unit_indices (N0 Nn Ns Ci Cn : Z) : option (list Z) :=
  c ← chunk_of_sequence N0 Nn Ns Ci Cn;
  Some (for_each_index (chunk_start c) (type Ns c)).
End compile_time.


(** ** Worker-count resolution (runtime_threads) *)

(** The configuration macros, all of type [int]. *)
Record macros : Type := Macros {
  ASYNC_NUM_THREADS : Z;
  ASYNC_MIN_THREADS : Z;
  ASYNC_MAX_THREADS : Z;
}.

Definition default_macros : macros := Macros 4 1 64.

(** [static constexpr size_t threads = ASYNC_NUM_THREADS;] *)
Definition threads (m : macros) : Z := wrap64 (ASYNC_NUM_THREADS m).

(** [std::atoi] of the C library: leading white space, an optional sign,
    then decimal digits up to the first other character; [None] where the
    value is not representable as [int] (the behaviour is undefined). *)
Definition isspace (c : ascii) : bool :=
  let n := Z.of_N (Ascii.N_of_ascii c) in
  (n =? 32) || ((9 <=? n) && (n <=? 13)).

Definition digit (c : ascii) : option Z :=
  let n := Z.of_N (Ascii.N_of_ascii c) in
  if (48 <=? n) && (n <=? 57) then Some (n - 48) else None.

Fixpoint skip_spaces (s : string) : string :=
  match s with
  | String c s' => if isspace c then skip_spaces s' else s
  | EmptyString => s
  end.

Fixpoint digits (acc : Z) (s : string) : Z :=
  match s with
  | String c s' =>
      match digit c with
      | Some d => digits (10 * acc + d) s'
      | None => acc
      end
  | EmptyString => acc
  end.

Definition atoi (s : string) : option Z :=
  let v :=
    match skip_spaces s with
    | String "-"%char s' => - digits 0 s'
    | String "+"%char s' => digits 0 s'
    | s' => digits 0 s'
    end in
  if (- 2 ^ 31 <=? v) && (v <? 2 ^ 31) then Some v else None.

(** The function-local [static size_t _threads], together with a count of
    the [std::getenv] calls made so far. *)
Record process : Type := Process {
  _threads : Z;
  getenv_calls : nat;
}.

Definition process_start : process := Process 0 0.

(** [env] is what [std::getenv("ASYNC_NUM_THREADS")] would return at the
    time of the call. *)
Definition runtime_threads (m : macros) (env : option string) (p : process)
  : option (Z * process) :=
  if _threads p =? 0 then
    match env with
    | Some env_async =>
        v ← atoi env_async;
        let t := wrap64 (Z.min (ASYNC_MAX_THREADS m)
                           (Z.max (ASYNC_MIN_THREADS m) v)) in
        Some (t, Process t (S (getenv_calls p)))
    | None =>
        Some (threads m, Process (threads m) (S (getenv_calls p)))
    end
  else Some (_threads p, p).


(** ** Dispatch, units of work and the join protocol

    The units run concurrently with each other and with the calling
    thread.  A state holds the objects they share and one control point
    per thread; a step is one thread performing the action at its control
    point.  Steps interleave: every load sees the latest store, also where
    the source asks for relaxed ordering only.  Launching a unit
    ([call_async]) and allocating the vector of futures are taken to
    succeed.  The [[assume]] hints of the source have no run-time action and
    are not part of the model. *)

(** An exception object. *)
Definition exn : Type := nat.

Inductive owner : Type :=
| Caller
| Unit (i : nat).

Global Instance owner_eq_dec : EqDecision owner.
Proof. solve_decision. Defined.

(** One invocation of the user callable, with the arguments of its widest
    accepted shape: [f( *it, idx, i)] on the dynamic path, [f(I, thread_id)]
    on the compile-time path.  A callable of a narrower shape ignores the
    trailing arguments. *)
Inductive call : Type :=
| ElementCall (it idx : Z) (i : nat)
| IndexCall (I : Z) (thread_id : nat).

(** The code outside [async.h] that a call runs into: [Some e] says that
    the invocation throws [e]. *)
Record callbacks : Type := Callbacks {
  f : call → option exn;
  progress : Z → option exn;
  (** [futures[j].get()] *)
  get : nat → option exn;
}.

Record shared : Type := Shared {
  abort : bool;
  completed : Z;
  ex_ptr : option exn;
  (** [None]: unlocked *)
  ex_mutex : option owner;
  (** Observations, oldest first: invocations of [f], invocations of
      [progress] with the invoking unit, stores to [ex_ptr], handles on
      which [get] has been called. *)
  calls : list call;
  sink : list (nat * Z);
  stored : list exn;
  joined : list nat;
}.

Definition shared_init : shared := Shared false 0 None None [] [] [] [].

Definition set_abort (s : shared) : shared :=
  Shared true (completed s) (ex_ptr s) (ex_mutex s)
    (calls s) (sink s) (stored s) (joined s).
Definition set_completed (n : Z) (s : shared) : shared :=
  Shared (abort s) n (ex_ptr s) (ex_mutex s)
    (calls s) (sink s) (stored s) (joined s).
Definition set_ex_ptr (e : exn) (s : shared) : shared :=
  Shared (abort s) (completed s) (Some e) (ex_mutex s)
    (calls s) (sink s) (stored s ++ [e]) (joined s).
Definition set_ex_mutex (o : option owner) (s : shared) : shared :=
  Shared (abort s) (completed s) (ex_ptr s) o
    (calls s) (sink s) (stored s) (joined s).
Definition log_call (c : call) (s : shared) : shared :=
  Shared (abort s) (completed s) (ex_ptr s) (ex_mutex s)
    (calls s ++ [c]) (sink s) (stored s) (joined s).
Definition log_sink (i : nat) (v : Z) (s : shared) : shared :=
  Shared (abort s) (completed s) (ex_ptr s) (ex_mutex s)
    (calls s) (sink s ++ [(i, v)]) (stored s) (joined s).
Definition log_get (j : nat) (s : shared) : shared :=
  Shared (abort s) (completed s) (ex_ptr s) (ex_mutex s)
    (calls s) (sink s) (stored s) (joined s ++ [j]).

(** The [catch (...)] block, the same text at its three sites. *)
Inductive handler : Type :=
| HCheck (e : exn)     (* if (!abort.load(...)) *)
| HLock (e : exn)      (* std::lock_guard<std::mutex> lock(ex_mutex); *)
| HTest (e : exn)      (* if (!ex_ptr) *)
| HStore (e : exn)     (* ex_ptr = std::current_exception(); *)
| HSetAbort            (* abort.store(true, ...); *)
| HUnlock.             (* the guard goes out of scope *)

(** [Some (s, None)]: the block is left.  [None]: the thread is blocked. *)
Definition handler_step (me : owner) (h : handler) (s : shared)
  : option (shared * option handler) :=
  match h with
  | HCheck e => if abort s then Some (s, None) else Some (s, Some (HLock e))
  | HLock e =>
      match ex_mutex s with
      | None => Some (set_ex_mutex (Some me) s, Some (HTest e))
      | Some _ => None
      end
  | HTest e =>
      match ex_ptr s with
      | None => Some (s, Some (HStore e))
      | Some _ => Some (s, Some HUnlock)
      end
  | HStore e => Some (set_ex_ptr e s, Some HSetAbort)
  | HSetAbort => Some (set_abort s, Some HUnlock)
  | HUnlock => Some (set_ex_mutex None s, None)
  end.

(** What a unit captured at its launch. *)
Inductive task : Type :=
| ChunkTask (c : chunk)          (* async_for_each *)
| IndexTask (args : list Z).     (* async_for_each_index: the unrolled calls *)

Inductive unit_pc : Type :=
| ULoop (it idx : Z)       (* it != local_chunk_end; if (abort.load(...)) break; *)
| UCall (it idx : Z)       (* f( *it, idx++, i); ++it *)
| UCount                   (* completed.fetch_add(1, ...) *)
| UProgress (v : Z)        (* progress(prev_completed + 1) *)
| SStart                   (* if (abort.load(...)) return; *)
| SCall (rest : list Z)    (* the fold of for_each_index *)
| UCatch (h : handler)
| UDone.

Definition leave (h : option handler) (pc : handler → unit_pc) : unit_pc :=
  match h with
  | Some h' => pc h'
  | None => UDone
  end.

Definition unit_step (k : callbacks) (i : nat) (t : task) (pc : unit_pc)
    (s : shared) : option (shared * unit_pc) :=
  match pc, t with
  | ULoop it idx, ChunkTask c =>
      if it =? local_chunk_end c then Some (s, UCount)
      else if abort s then Some (s, UCount)
      else Some (s, UCall it idx)
  | UCall it idx, ChunkTask _ =>
      let c := ElementCall it idx i in
      match f k c with
      | Some e => Some (log_call c s, UCatch (HCheck e))
      | None => Some (log_call c s, ULoop (it + 1) (wrap64 (idx + 1)))
      end
  | UCount, ChunkTask _ =>
      let prev_completed := completed s in
      Some (set_completed (wrap64 (prev_completed + 1)) s,
            UProgress (wrap64 (prev_completed + 1)))
  | UProgress v, ChunkTask _ =>
      match progress k v with
      | Some e => Some (log_sink i v s, UCatch (HCheck e))
      | None => Some (log_sink i v s, UDone)
      end
  | SStart, IndexTask args =>
      if abort s then Some (s, UDone) else Some (s, SCall args)
  | SCall [], IndexTask _ => Some (s, UDone)
  | SCall (I0 :: rest), IndexTask _ =>
      let c := IndexCall I0 i in
      match f k c with
      | Some e => Some (log_call c s, UCatch (HCheck e))
      | None => Some (log_call c s, SCall rest)
      end
  | UCatch h, _ =>
      '(s', h') ← handler_step (Unit i) h s;
      Some (s', leave h' UCatch)
  | _, _ => None
  end.

Inductive future : Type :=
| NotLaunched
| Launched (t : task) (pc : unit_pc).

(** The locals of [async_for_each] that the launch loop reads. *)
Record locals : Type := Locals {
  random_access : bool;
  size : Z;
  nthreads : Z;
  chunk_sz : Z;
}.

Inductive caller_pc : Type :=
| CLaunch (l : locals) (i : nat) (chunk_begin : Z)   (* for (i = 0; i < threads; ++i) *)
| CGet (j : nat)           (* for (auto& fut : futures) fut.get(); *)
| CCatch (j : nat) (h : handler)
| CFinalLock               (* std::lock_guard<std::mutex> final_lock(ex_mutex); *)
| CFinalTest               (* if (ex_ptr) std::rethrow_exception(ex_ptr); *)
| CReturned
| CRaised (e : exn).

Record state : Type := State {
  sh : shared;
  futures : list future;
  caller : caller_pc;
}.

Definition caller_step (k : callbacks) (st : state) : option state :=
  let s := sh st in
  match caller st with
  | CLaunch l i chunk_begin =>
      if Z.of_nat i <? nthreads l then
        let c := make_chunk (random_access l) (size l) (nthreads l) (chunk_sz l)
                   i chunk_begin in
        let u := Launched (ChunkTask c)
                   (ULoop (local_chunk_begin c) (idx_offset c)) in
        Some (State s (<[i := u]> (futures st))
                (CLaunch l (S i) (local_chunk_end c)))
      else Some (State s (futures st) (CGet 0))
  | CGet j =>
      match futures st !! j with
      | None => Some (State s (futures st) CFinalLock)
      | Some (Launched _ UDone) =>
          match get k j with
          | Some e => Some (State (log_get j s) (futures st) (CCatch j (HCheck e)))
          | None => Some (State (log_get j s) (futures st) (CGet (S j)))
          end
      | Some _ => None
      end
  | CCatch j h =>
      '(s', h') ← handler_step Caller h s;
      Some (State s' (futures st)
              match h' with
              | Some h'' => CCatch j h''
              | None => CGet (S j)
              end)
  | CFinalLock =>
      match ex_mutex s with
      | None => Some (State (set_ex_mutex (Some Caller) s) (futures st) CFinalTest)
      | Some _ => None
      end
  | CFinalTest =>
      Some (State (set_ex_mutex None s) (futures st)
              match ex_ptr s with
              | Some e => CRaised e
              | None => CReturned
              end)
  | CReturned | CRaised _ => None
  end.

(** One step of thread [t]; [None] where [t] is blocked, finished or not
    yet launched. *)
Definition thread_step (k : callbacks) (t : owner) (st : state) : option state :=
  match t with
  | Caller => caller_step k st
  | Unit i =>
      match futures st !! i with
      | Some (Launched tk pc) =>
          '(s', pc') ← unit_step k i tk pc (sh st);
          Some (State s' (<[i := Launched tk pc']> (futures st)) (caller st))
      | _ => None
      end
  end.

Definition step (k : callbacks) (st st' : state) : Prop :=
  ∃ t, thread_step k t st = Some st'.

(** A schedule names the thread to step next. *)
Fixpoint run (k : callbacks) (schedule : list owner) (st : state) : option state :=
  match schedule with
  | [] => Some st
  | t :: schedule' => st' ← thread_step k t st; run k schedule' st'
  end.

(** The first thread that can step: the units in launch order, then the
    caller. *)
Definition next_thread (k : callbacks) (st : state) : option state :=
  match list_find (λ t, is_Some (thread_step k t st))
          ((Unit <$> seq 0 (length (futures st))) ++ [Caller]) with
  | Some (_, t) => thread_step k t st
  | None => None
  end.

Fixpoint exec (k : callbacks) (fuel : nat) (st : state) : state :=
  match fuel with
  | O => st
  | S fuel' =>
      match next_thread k st with
      | Some st' => exec k fuel' st'
      | None => st
      end
  end.

(** The state in which the dynamic [async_for_each] starts; [None] where
    it divides by zero. *)
Definition async_for_each_init (random_access : bool) (size threads : Z)
  : option state :=
  match async_for_each_entry size threads with
  | ReturnImmediately => Some (State shared_init [] CReturned)
  | DivisionByZero => None
  | Dispatch threads' chunk_size =>
      Some (State shared_init (replicate (Z.to_nat threads') NotLaunched)
              (CLaunch (Locals random_access size threads' chunk_size) 0 0))
  end.

(** The state in which [async_for_each<T, N0, Nn, Ns, threads>] has built
    its tuple of futures; [None] where the instantiation is ill-formed. *)
Definition async_for_each_index_init (Tbits N0 Nn Ns threads : Z)
  : option state :=
  units ← mapM (λ Is, args ← unit_indices Tbits N0 Nn Ns Is threads;
                      Some (Launched (IndexTask args) SStart))
            (seqZ 0 threads);
  Some (State shared_init units (CGet 0)).


(** * Properties *)

(** ** The chunks of the launch loop in closed form *)

(** Chunk [i] of a range of [size] elements split [t] ways. *)
Definition chunk_at (size t : Z) (i : nat) : chunk :=
  let b := Z.of_nat i * (size / t) in
  let e := if Z.of_nat i =? t - 1 then size else b + size / t in
  Chunk b e (wrap64 (Z.of_nat i * (e - b))).

Section partition_facts.
Variable ra : bool.
Variables size t : Z.
Hypothesis Ht : 1 ≤ t ≤ size.
Local Abbreviation cs := (size / t).

Lemma cs_bounds : 1 ≤ cs ∧ t * cs ≤ size ∧ size < t * cs + t.
Proof.
  pose proof (Z.div_mod size t ltac:(lia)).
  pose proof (Z.mod_pos_bound size t ltac:(lia)).
  assert (1 ≤ size / t) by (apply Z.div_le_lower_bound; lia).
  lia.
Qed.

Lemma advance_min steps pos :
  0 ≤ pos ≤ size → advance size steps pos = Z.min (pos + Z.of_nat steps) size.
Proof.
  revert pos. induction steps as [|n IH]; intros pos Hpos; simpl.
  - lia.
  - destruct (Z.eqb_spec pos size); [lia|]. rewrite IH by lia. lia.
Qed.

Lemma make_chunk_at i :
  Z.of_nat i < t →
  make_chunk ra size t cs i (Z.of_nat i * cs) = chunk_at size t i.
Proof.
  intros Hi. pose proof cs_bounds as (? & ? & ?).
  unfold make_chunk, chunk_at, next_chunk_end.
  destruct ra; [done|].
  rewrite advance_min by nia.
  destruct (Z.eqb_spec (Z.of_nat i) (t - 1)).
  - rewrite Z2Nat.id by lia. rewrite Z.min_r by nia. done.
  - rewrite Z2Nat.id by lia. rewrite Z.min_l by nia. done.
Qed.

Lemma chunk_at_begin i : local_chunk_begin (chunk_at size t i) = Z.of_nat i * cs.
Proof. done. Qed.

Lemma chunk_at_end i :
  local_chunk_end (chunk_at size t i)
  = if Z.of_nat i =? t - 1 then size else Z.of_nat (S i) * cs.
Proof. unfold chunk_at; simpl. case_match; lia. Qed.

Lemma chunk_at_bounds i :
  Z.of_nat i < t →
  0 ≤ local_chunk_begin (chunk_at size t i)
  ∧ local_chunk_begin (chunk_at size t i) < local_chunk_end (chunk_at size t i)
  ∧ local_chunk_end (chunk_at size t i) ≤ size.
Proof.
  intros Hi. pose proof cs_bounds as (? & ? & ?).
  rewrite chunk_at_begin, chunk_at_end.
  destruct (Z.eqb_spec (Z.of_nat i) (t - 1)); nia.
Qed.

Lemma chunk_at_disjoint i j p :
  Z.of_nat i < t → Z.of_nat j < t →
  local_chunk_begin (chunk_at size t i) ≤ p < local_chunk_end (chunk_at size t i) →
  local_chunk_begin (chunk_at size t j) ≤ p < local_chunk_end (chunk_at size t j) →
  i = j.
Proof.
  intros Hi Hj. pose proof cs_bounds as (? & ? & ?).
  rewrite !chunk_at_begin, !chunk_at_end.
  destruct (Z.eqb_spec (Z.of_nat i) (t - 1)), (Z.eqb_spec (Z.of_nat j) (t - 1));
    intros; apply Nat2Z.inj; nia.
Qed.

Lemma chunk_at_cover p :
  0 ≤ p < size →
  ∃ i, Z.of_nat i < t
       ∧ local_chunk_begin (chunk_at size t i) ≤ p < local_chunk_end (chunk_at size t i).
Proof.
  intros Hp. pose proof cs_bounds as (? & ? & ?).
  exists (Z.to_nat (Z.min (p / cs) (t - 1))).
  pose proof (Z.div_mod p cs ltac:(lia)).
  pose proof (Z.mod_pos_bound p cs ltac:(lia)).
  assert (0 ≤ p / cs) by (apply Z.div_pos; lia).
  rewrite chunk_at_begin, chunk_at_end.
  rewrite Nat2Z.inj_succ, Z2Nat.id by lia.
  destruct (Z.eqb_spec (Z.min (p / cs) (t - 1)) (t - 1)); nia.
Qed.

Lemma launch_loop_at n i :
  Z.of_nat (i + n) = t →
  launch_loop ra size t cs n i (Z.of_nat i * cs) = chunk_at size t <$> seq i n.
Proof.
  revert i. induction n as [|n IH]; intros i Hin; [done|].
  cbn [launch_loop seq fmap list_fmap].
  rewrite make_chunk_at by lia. f_equal.
  destruct n as [|n]; [done|].
  rewrite chunk_at_end. destruct (Z.eqb_spec (Z.of_nat i) (t - 1)); [lia|].
  apply IH. lia.
Qed.

Lemma chunk_positions_concat i n :
  Z.of_nat (i + n) ≤ t →
  concat (chunk_positions <$> (chunk_at size t <$> seq i n))
  = seqZ (Z.of_nat i * cs)
      (if n is O then 0
       else local_chunk_end (chunk_at size t (i + n - 1)) - Z.of_nat i * cs).
Proof.
  revert i. induction n as [|n IH]; intros i Hin; [done|].
  cbn [seq fmap list_fmap concat].
  rewrite IH by lia. unfold chunk_positions at 1, chunk_len.
  pose proof (chunk_at_bounds i ltac:(lia)) as (Hb0 & Hb1 & Hb2).
  rewrite chunk_at_begin in *.
  destruct n as [|n].
  - rewrite app_nil_r. replace (i + 1 - 1)%nat with i by lia. done.
  - replace (S i + S n - 1)%nat with (i + S (S n) - 1)%nat by lia.
    pose proof (chunk_at_bounds (i + S (S n) - 1) ltac:(lia)) as (Hc0 & Hc1 & Hc2).
    rewrite chunk_at_begin in *.
    assert (Hend : local_chunk_end (chunk_at size t i) = Z.of_nat (S i) * cs).
    { rewrite chunk_at_end. destruct (Z.eqb_spec (Z.of_nat i) (t - 1)); lia. }
    rewrite Hend in *.
    set (e := local_chunk_end (chunk_at size t (i + S (S n) - 1))) in *.
    pose proof cs_bounds as (? & ? & ?).
    replace (e - Z.of_nat i * cs)
      with ((Z.of_nat (S i) * cs - Z.of_nat i * cs) + (e - Z.of_nat (S i) * cs)) by lia.
    rewrite seqZ_app by nia. do 2 f_equal. lia.
Qed.
End partition_facts.

Lemma chunks_of_closed_form ra size threads :
  1 ≤ size → 1 ≤ threads →
  chunks_of ra size threads
  = Some (chunk_at size (Z.min threads size) <$> seq 0 (Z.to_nat (Z.min threads size))).
Proof.
  intros Hs Ht. unfold chunks_of, async_for_each_entry.
  destruct (Z.eqb_spec size 0); [lia|].
  destruct (Z.eqb_spec (Z.min threads size) 0); [lia|].
  f_equal. apply (launch_loop_at ra size (Z.min threads size)); lia.
Qed.

(** ** Worker-count resolution *)

(** Successive calls of [runtime_threads] in one process, each with the
    environment it would see. *)
Fixpoint resolve_all (m : macros) (envs : list (option string)) (p : process)
  : option (list Z * process) :=
  match envs with
  | [] => Some ([], p)
  | env :: envs' =>
      '(v, p') ← runtime_threads m env p;
      '(vs, p'') ← resolve_all m envs' p';
      Some (v :: vs, p'')
  end.

Lemma runtime_threads_cached m env p :
  _threads p ≠ 0 → runtime_threads m env p = Some (_threads p, p).
Proof.
  intros Hp. unfold runtime_threads. by destruct (Z.eqb_spec (_threads p) 0).
Qed.

Lemma resolve_all_cached m envs p vs p' :
  _threads p ≠ 0 →
  resolve_all m envs p = Some (vs, p') →
  p' = p ∧ ∀ v, v ∈ vs → v = _threads p.
Proof.
  intros Hp. revert vs p'. induction envs as [|env envs IH]; intros vs p' Hr.
  - simpl in Hr. simplify_eq. split; [done|]. intros v Hv. by apply elem_of_nil in Hv.
  - simpl in Hr. rewrite runtime_threads_cached in Hr by done. simpl in Hr.
    destruct (resolve_all m envs p) as [[vs' p'']|] eqn:Hrest; simplify_eq/=.
    destruct (IH _ _ eq_refl) as [-> Hvs]. split; [done|].
    intros v [->|Hv]%elem_of_cons; auto.
Qed.

Section resolution.
Variable m : macros.
Hypothesis Hmin : 1 ≤ ASYNC_MIN_THREADS m.
Hypothesis Hmax : ASYNC_MIN_THREADS m ≤ ASYNC_MAX_THREADS m < 2 ^ 31.
Hypothesis Hnum : 1 ≤ ASYNC_NUM_THREADS m < 2 ^ 31.

Lemma runtime_threads_present env v :
  atoi env = Some v →
  let r := Z.min (ASYNC_MAX_THREADS m) (Z.max (ASYNC_MIN_THREADS m) v) in
  runtime_threads m (Some env) process_start = Some (r, Process r 1)
  ∧ ASYNC_MIN_THREADS m ≤ r ≤ ASYNC_MAX_THREADS m
  ∧ (v ≤ ASYNC_MIN_THREADS m → r = ASYNC_MIN_THREADS m)
  ∧ (ASYNC_MAX_THREADS m ≤ v → r = ASYNC_MAX_THREADS m)
  ∧ (ASYNC_MIN_THREADS m ≤ v ≤ ASYNC_MAX_THREADS m → r = v).
Proof.
  intros Hv r. unfold runtime_threads. simpl. rewrite Hv. simpl.
  assert (Hr : ASYNC_MIN_THREADS m ≤ r ≤ ASYNC_MAX_THREADS m) by (unfold r; lia).
  fold r. unfold wrap64. rewrite Z.mod_small by lia.
  repeat split; unfold r; lia.
Qed.

Lemma runtime_threads_absent :
  runtime_threads m None process_start
  = Some (ASYNC_NUM_THREADS m, Process (ASYNC_NUM_THREADS m) 1).
Proof.
  unfold runtime_threads, threads, wrap64. simpl.
  by rewrite Z.mod_small by lia.
Qed.

Lemma resolve_all_once env envs vs p :
  resolve_all m (env :: envs) process_start = Some (vs, p) →
  getenv_calls p = 1%nat
  ∧ ∃ v, runtime_threads m env process_start = Some (v, p)
         ∧ ∀ v', v' ∈ vs → v' = v.
Proof.
  simpl. intros Hr.
  destruct (runtime_threads m env process_start) as [[v p1]|] eqn:H1; [|done].
  simpl in Hr.
  destruct (resolve_all m envs p1) as [[vs' p2]|] eqn:H2; [|done].
  simpl in Hr. injection Hr as <- <-.
  assert (Hp1 : _threads p1 = v ∧ getenv_calls p1 = 1%nat ∧ v ≠ 0).
  { destruct env as [env|].
    - unfold runtime_threads in H1. simpl in H1.
      destruct (atoi env) as [a|] eqn:Ha; [|done].
      destruct (runtime_threads_present env a Ha) as (_ & ? & _).
      simpl in H1. injection H1 as <- <-. simpl.
      unfold wrap64. rewrite Z.mod_small by lia. repeat split; lia.
    - rewrite runtime_threads_absent in H1. injection H1 as <- <-. simpl.
      repeat split; lia. }
  destruct Hp1 as (Hv & Hc & Hnz).
  destruct (resolve_all_cached m envs p1 vs' p2 ltac:(lia) H2) as [-> Hvs].
  split; [done|]. exists v. split; [done|].
  intros v' [->|Hin]%elem_of_cons; [done|]. rewrite <- Hv. auto.
Qed.
End resolution.

(** C8 (the claim as stated fails): with the default macros a value that is
    present but not a number, or not positive, resolves to
    [ASYNC_MIN_THREADS = 1], not to the default [ASYNC_NUM_THREADS = 4]. *)
Lemma C8_invalid_override_resolves_to_min :
  atoi "abc" = Some 0
  ∧ fst <$> runtime_threads default_macros (Some "abc"%string) process_start = Some 1
  ∧ fst <$> runtime_threads default_macros (Some "0"%string) process_start = Some 1
  ∧ fst <$> runtime_threads default_macros (Some "-3"%string) process_start = Some 1
  ∧ fst <$> runtime_threads default_macros None process_start = Some 4
  ∧ threads default_macros = 4.
Proof. by vm_compute. Qed.

(** C8 (amended): the environment is read at most once per process, the
    first resolved value being returned by every later call; a value that is
    present is parsed by [atoi] and clamped to [[min_threads, max_threads]],
    so a non-numeric or non-positive value resolves to [min_threads]; only an
    absent variable resolves to the compiled-in default. *)
Theorem C8_runtime_threads_resolution (m : macros) :
  1 ≤ ASYNC_MIN_THREADS m →
  ASYNC_MIN_THREADS m ≤ ASYNC_MAX_THREADS m < 2 ^ 31 →
  1 ≤ ASYNC_NUM_THREADS m < 2 ^ 31 →
  (∀ env envs vs p,
     resolve_all m (env :: envs) process_start = Some (vs, p) →
     getenv_calls p = 1%nat
     ∧ ∃ v, runtime_threads m env process_start = Some (v, p)
            ∧ ∀ v', v' ∈ vs → v' = v)
  ∧ (∀ env v,
       atoi env = Some v →
       let r := Z.min (ASYNC_MAX_THREADS m) (Z.max (ASYNC_MIN_THREADS m) v) in
       runtime_threads m (Some env) process_start = Some (r, Process r 1)
       ∧ ASYNC_MIN_THREADS m ≤ r ≤ ASYNC_MAX_THREADS m
       ∧ (v ≤ ASYNC_MIN_THREADS m → r = ASYNC_MIN_THREADS m)
       ∧ (ASYNC_MAX_THREADS m ≤ v → r = ASYNC_MAX_THREADS m)
       ∧ (ASYNC_MIN_THREADS m ≤ v ≤ ASYNC_MAX_THREADS m → r = v))
  ∧ runtime_threads m None process_start
    = Some (ASYNC_NUM_THREADS m, Process (ASYNC_NUM_THREADS m) 1).
Proof.
  intros Hmin Hmax Hnum. split; [|split].
  - intros env envs vs p. by apply resolve_all_once.
  - intros env v. by apply runtime_threads_present.
  - by apply runtime_threads_absent.
Qed.

Lemma C8_runtime_threads_resolution_witness :
  (1 ≤ ASYNC_MIN_THREADS default_macros)
  ∧ (∀ env envs vs p,
       resolve_all default_macros (env :: envs) process_start = Some (vs, p) →
       getenv_calls p = 1%nat
       ∧ ∃ v, runtime_threads default_macros env process_start = Some (v, p)
              ∧ ∀ v', v' ∈ vs → v' = v).
Proof.
  split; [vm_compute; discriminate|].
  apply (C8_runtime_threads_resolution default_macros); vm_compute; intuition discriminate.
Defined.

(** ** The thread argument of the dynamic form *)

(** C10: with a non-empty range, [threads == 0] makes [size / threads] a
    division by zero, and only then: [std::min] never raises the count. *)
Theorem C10_zero_threads_divides_by_zero (ra : bool) (size threads : Z) :
  1 ≤ size → 0 ≤ threads →
  (async_for_each_entry size threads = DivisionByZero ↔ threads = 0)
  ∧ (async_for_each_init ra size threads = None ↔ threads = 0)
  ∧ (chunks_of ra size threads = None ↔ threads = 0)
  ∧ (∀ t cs, async_for_each_entry size threads = Dispatch t cs →
             1 ≤ t ∧ t ≤ threads ∧ t = Z.min threads size ∧ cs = size / t).
Proof.
  intros Hs Ht. unfold async_for_each_init, chunks_of, async_for_each_entry.
  destruct (Z.eqb_spec size 0); [lia|].
  destruct (Z.eqb_spec (Z.min threads size) 0) as [Hz|Hz].
  - repeat split; try done; intros; lia.
  - repeat split; try done; try (intros; lia); intros; simplify_eq; lia.
Qed.

Lemma C10_zero_threads_divides_by_zero_witness :
  (1 ≤ 8 ∧ 0 ≤ 0)
  ∧ async_for_each_entry 8 0 = DivisionByZero
  ∧ async_for_each_init true 8 0 = None.
Proof.
  split; [lia|].
  destruct (C10_zero_threads_divides_by_zero true 8 0) as (H1 & H2 & _); [lia..|].
  split; [by apply H1 | by apply H2].
Defined.

(** ** The two forms at concrete inputs *)

(** Callbacks that never throw. *)
Definition no_throw : callbacks := Callbacks (λ _, None) (λ _, None) (λ _, None).

(** The first argument of an invocation: the position of the element for the
    dynamic form, the index for the compile-time form. *)
Definition call_arg (c : call) : Z :=
  match c with
  | ElementCall it _ _ => it
  | IndexCall I0 _ => I0
  end.

(** The [idx] argument of an invocation of the dynamic form. *)
Definition call_idx (c : call) : Z :=
  match c with
  | ElementCall _ idx _ => idx
  | IndexCall _ _ => 0
  end.

Definition call_thread (c : call) : nat :=
  match c with
  | ElementCall _ _ i => i
  | IndexCall _ i => i
  end.

(** ** Compile-time remainder arithmetic *)

(** C6 (the code at a failing input):
    [chunk_of_sequence<size_t, 0, 1, 2^63, 2, 4>], one index and four
    workers.  Worker 2 starts past [total]: [total - offset] wraps around
    and [count] is [2^64 - 1].  With the step [2^63], [chunk_start] and
    [chunk_end] wrap to 0 and [2^63], the member [type] has the one entry 0
    and the instantiation is well-formed.  In
    [async_for_each<size_t, 0, 1, 2^63, 4>] workers 0 and 2 both pass 0:
    the callable is invoked twice on the one index.  With a step of 1 the
    same wrap asks for [2^64 - 1] entries, and
    [chunk_of_sequence<size_t, 0, 2, 1, 3, 4>] is ill-formed. *)
Lemma C6_count_wraps_past_total :
  (∃ c, chunk_of_sequence 64 0 1 (2 ^ 63) 2 4 = Some c
        ∧ total c = 1 ∧ chunk_size c = 1 ∧ offset c = 2
        ∧ count c = 2 ^ 64 - 1
        ∧ ¬ (offset c + count c ≤ total c)
        ∧ chunk_start c = 0 ∧ chunk_end c = 2 ^ 63
        ∧ type 64 (2 ^ 63) c = [0])
  ∧ (λ Ci, unit_indices 64 0 1 (2 ^ 63) Ci 4) <$> [0; 1; 2; 3]
    = [Some [0]; Some []; Some [0]; Some []]
  ∧ (∃ st0, async_for_each_index_init 64 0 1 (2 ^ 63) 4 = Some st0
       ∧ let st := exec no_throw 100 st0 in
         caller st = CReturned
         ∧ calls (sh st) = [IndexCall 0 0; IndexCall 0 2])
  ∧ chunk_of_sequence 64 0 2 1 3 4 = None.
Proof.
  split; [eexists; split; [by vm_compute|]; by vm_compute|].
  split; [by vm_compute|].
  split; [|by vm_compute].
  eexists. split; [by vm_compute|]. cbv zeta. split; by vm_compute.
Qed.

(** C3 (the code at the claimed instantiation): the three sequences have
    34, 34 and 32 indices and together are 0..99, and the callable is invoked
    100 times; but [for_each_index] adds [chunk_start] to indices that already
    start at [chunk_start], so workers 1 and 2 pass 68..101 and 136..167. *)
Lemma C3_indices_passed_to_callable :
  (λ Ci, length <$> (type 64 1 <$> chunk_of_sequence 64 0 100 1 Ci 3)) <$> [0; 1; 2]
  = [Some 34%nat; Some 34%nat; Some 32%nat]
  ∧ (λ Ci, type 64 1 <$> chunk_of_sequence 64 0 100 1 Ci 3) <$> [0; 1; 2]
    = [Some (seqZ 0 34); Some (seqZ 34 34); Some (seqZ 68 32)]
  ∧ (λ Ci, unit_indices 64 0 100 1 Ci 3) <$> [0; 1; 2]
    = [Some (seqZ 0 34); Some (seqZ 68 34); Some (seqZ 136 32)]
  ∧ ∃ st0, async_for_each_index_init 64 0 100 1 3 = Some st0
      ∧ let st := exec no_throw 400 st0 in
        caller st = CReturned
        ∧ length (calls (sh st)) = 100%nat
        ∧ call_arg <$> calls (sh st) = seqZ 0 34 ++ seqZ 68 34 ++ seqZ 136 32
        ∧ (34 ∉ (call_arg <$> calls (sh st)))
        ∧ 101 ∈ (call_arg <$> calls (sh st)).
Proof.
  split; [by vm_compute|]. split; [by vm_compute|]. split; [by vm_compute|].
  eexists. split; [reflexivity|]. cbv zeta.
  split; [by vm_compute|]. split; [by vm_compute|]. split; [by vm_compute|].
  split; apply (bool_decide_unpack _); by vm_compute.
Qed.

(** The offset the launch loop records: [i * chunk_len], which for the last
    chunk is off by [(t - 1) * (size mod t)]. *)
Lemma chunk_at_idx_offset size t i :
  1 ≤ t ≤ size → size < 2 ^ 32 → Z.of_nat i < t →
  idx_offset (chunk_at size t i)
  = if Z.of_nat i =? t - 1
    then (t - 1) * (size / t) + (t - 1) * (size mod t)
    else Z.of_nat i * (size / t).
Proof.
  intros Ht Hs Hi. unfold chunk_at. cbn [idx_offset].
  pose proof (cs_bounds size t Ht) as (Hc1 & Hc2 & Hc3).
  pose proof (Z.div_mod size t ltac:(lia)) as Hdm.
  assert (H64 : 2 ^ 64 = 2 ^ 32 * 2 ^ 32) by done.
  destruct (Z.eqb_spec (Z.of_nat i) (t - 1)) as [Heq|Hne].
  - rewrite Heq. unfold wrap64. rewrite Z.mod_small by nia. nia.
  - unfold wrap64. rewrite Z.mod_small by nia. nia.
Qed.

(** C2 (the code at a failing input): ten elements, three workers.  The
    offset recorded for the last chunk is [i * chunk_len = 2 * 4 = 8], not
    [i * chunk_size = 2 * 3 = 6], and elements 6..9 are reported as 8..11. *)
Lemma C2_last_chunk_offset :
  (λ ra, (λ cs : list chunk, idx_offset <$> cs) <$> chunks_of ra 10 3) <$> [true; false]
  = [Some [0; 3; 8]; Some [0; 3; 8]]
  ∧ 2 * (10 / 3) = 6
  ∧ ∃ st0, async_for_each_init true 10 3 = Some st0
      ∧ let st := exec no_throw 100 st0 in
        caller st = CReturned
        ∧ call_arg <$> calls (sh st) = seqZ 0 10
        ∧ call_idx <$> calls (sh st) = [0; 1; 2; 3; 4; 5; 8; 9; 10; 11]
        ∧ (6 ∉ (call_idx <$> calls (sh st)))
        ∧ 10 ∈ (call_idx <$> calls (sh st)).
Proof.
  split; [by vm_compute|]. split; [done|].
  eexists. split; [reflexivity|]. cbv zeta.
  split; [by vm_compute|]. split; [by vm_compute|]. split; [by vm_compute|].
  split; apply (bool_decide_unpack _); by vm_compute.
Qed.

(** ** Reading a state *)

(** Reachability from [st0] under callbacks [k]. *)
Definition reachable (k : callbacks) (st0 st : state) : Prop :=
  rtc (step k) st0 st.

Lemma run_reachable k schedule st st' :
  run k schedule st = Some st' → reachable k st st'.
Proof.
  revert st. induction schedule as [|t sch IH]; intros st Hrun; simpl in Hrun.
  - simplify_eq. apply rtc_refl.
  - destruct (thread_step k t st) as [st1|] eqn:Hs; [|done]. simpl in Hrun.
    eapply rtc_l; [by exists t|]. by apply IH.
Qed.

Lemma reachable_run k st st' :
  reachable k st st' → ∃ schedule, run k schedule st = Some st'.
Proof.
  induction 1 as [st|st st1 st2 [t Ht] _ [sch IH]].
  - by exists [].
  - exists (t :: sch). simpl. by rewrite Ht.
Qed.

(** Case analysis of one step. *)
Lemma unit_step_inv k i st st' :
  thread_step k (Unit i) st = Some st' →
  ∃ tk pc s' pc',
    futures st !! i = Some (Launched tk pc)
    ∧ unit_step k i tk pc (sh st) = Some (s', pc')
    ∧ st' = State s' (<[i := Launched tk pc']> (futures st)) (caller st).
Proof.
  unfold thread_step. intros H.
  destruct (futures st !! i) as [[|tk pc]|] eqn:Hi; try done.
  destruct (unit_step k i tk pc (sh st)) as [[s' pc']|] eqn:Hu; simplify_eq/=.
  by exists tk, pc, s', pc'.
Qed.


(** ** The failure cell and its mutex *)

(** Where a thread stands with respect to the failure cell. *)
Inductive phase : Type :=
| Idle
| Handling (h : handler)
| FinalTest.

Definition unit_phase (fut : future) : phase :=
  match fut with
  | Launched _ (UCatch h) => Handling h
  | _ => Idle
  end.

Definition phase_of (t : owner) (st : state) : phase :=
  match t with
  | Caller =>
      match caller st with
      | CCatch _ h => Handling h
      | CFinalTest => FinalTest
      | _ => Idle
      end
  | Unit i => from_option unit_phase Idle (futures st !! i)
  end.

(** The phases in which the thread holds [ex_mutex]. *)
Definition guards (p : phase) : bool :=
  match p with
  | Handling (HTest _ | HStore _ | HSetAbort | HUnlock) | FinalTest => true
  | _ => false
  end.

(** The exception a handler still carries. *)
Definition handler_exn (h : handler) : option exn :=
  match h with
  | HCheck e | HLock e | HTest e | HStore e => Some e
  | HSetAbort | HUnlock => None
  end.

(** [e] was thrown by an invocation the logs record. *)
Definition thrown (k : callbacks) (s : shared) (e : exn) : Prop :=
  (∃ c, c ∈ calls s ∧ f k c = Some e)
  ∨ (∃ iv, iv ∈ sink s ∧ progress k iv.2 = Some e)
  ∨ (∃ j, j ∈ joined s ∧ get k j = Some e).

(** A failure is stored or on its way to the cell. *)
Definition failed (st : state) : Prop :=
  ex_ptr (sh st) ≠ None ∨ ∃ t h, phase_of t st = Handling h.

(** The cell and its guards are untouched. *)
Definition same_cell (s s' : shared) : Prop :=
  abort s' = abort s ∧ ex_ptr s' = ex_ptr s ∧ ex_mutex s' = ex_mutex s
  ∧ stored s' = stored s.

(** What one step of thread [t] is to the failure cell. *)
Inductive cell_step (k : callbacks) (t : owner) (st st' : state) : Prop :=
| cell_silent :
    phase_of t st = Idle → phase_of t st' = Idle →
    same_cell (sh st) (sh st') →
    (∀ e, thrown k (sh st') e ↔ thrown k (sh st) e) →
    cell_step k t st st'
| cell_throw e :
    phase_of t st = Idle → phase_of t st' = Handling (HCheck e) →
    same_cell (sh st) (sh st') →
    (∀ e', thrown k (sh st') e' ↔ thrown k (sh st) e' ∨ e' = e) →
    cell_step k t st st'
| cell_handle h h' :
    phase_of t st = Handling h →
    handler_step t h (sh st) = Some (sh st', h') →
    phase_of t st' = from_option Handling Idle h' →
    cell_step k t st st'
| cell_final_lock :
    phase_of t st = Idle → phase_of t st' = FinalTest →
    ex_mutex (sh st) = None →
    sh st' = set_ex_mutex (Some t) (sh st) →
    cell_step k t st st'
| cell_final_test :
    phase_of t st = FinalTest → phase_of t st' = Idle →
    sh st' = set_ex_mutex None (sh st) →
    cell_step k t st st'.

(** No unit at or after the loop variable of the launch loop is running. *)
Definition launch_inv (st : state) : Prop :=
  ∀ l i cb j tk pc,
    caller st = CLaunch l i cb → (i ≤ j)%nat →
    futures st !! j ≠ Some (Launched tk pc).

Record cell_inv (k : callbacks) (st : state) : Prop := CellInv {
  (** the mutex is held exactly by the thread inside a guard *)
  cell_mutex : ∀ t, guards (phase_of t st) = true ↔ ex_mutex (sh st) = Some t;
  (** who is about to store found the cell empty *)
  cell_store : ∀ t e, phase_of t st = Handling (HStore e) → ex_ptr (sh st) = None;
  cell_stored : ∀ t h, phase_of t st = Handling h → handler_exn h = None →
    ex_ptr (sh st) ≠ None;
  cell_abort : abort (sh st) = true → ex_ptr (sh st) ≠ None;
  (** the cell is written at most once, with what it holds *)
  cell_writes : stored (sh st) = option_list (ex_ptr (sh st));
  (** exceptions are not invented *)
  cell_origin_ptr : ∀ e, ex_ptr (sh st) = Some e → thrown k (sh st) e;
  cell_origin_handler : ∀ t h e, phase_of t st = Handling h →
    handler_exn h = Some e → thrown k (sh st) e;
  (** a throw is never lost before it reaches the cell *)
  cell_failed : (∃ e, thrown k (sh st) e) → failed st;
}.

Lemma phase_of_insert s fs c i j fut :
  (i < length fs)%nat →
  phase_of (Unit j) (State s (<[i := fut]> fs) c)
  = if decide (i = j) then unit_phase fut else phase_of (Unit j) (State s fs c).
Proof.
  intros Hi. simpl. destruct (decide (i = j)) as [->|Hne].
  - by rewrite list_lookup_insert_eq by done.
  - by rewrite list_lookup_insert_ne by done.
Qed.

Lemma exists_snoc {A} (P : A → Prop) (l : list A) (a : A) :
  (∃ x, x ∈ l ++ [a] ∧ P x) ↔ (∃ x, x ∈ l ∧ P x) ∨ P a.
Proof.
  split.
  - intros (x & [Hx| ->%list_elem_of_singleton]%elem_of_app & HP); eauto.
  - intros [(x & Hx & HP)|HP]; eexists; (split; [|exact HP]);
      rewrite elem_of_app, list_elem_of_singleton; auto.
Qed.

Lemma thrown_log_call k s c e :
  thrown k (log_call c s) e ↔ thrown k s e ∨ f k c = Some e.
Proof. unfold thrown; simpl. rewrite exists_snoc. tauto. Qed.

Lemma thrown_log_sink k s i v e :
  thrown k (log_sink i v s) e ↔ thrown k s e ∨ progress k v = Some e.
Proof. unfold thrown; simpl. rewrite exists_snoc. simpl. tauto. Qed.

Lemma thrown_log_get k s j e :
  thrown k (log_get j s) e ↔ thrown k s e ∨ get k j = Some e.
Proof. unfold thrown; simpl. rewrite exists_snoc. tauto. Qed.

Lemma unit_step_cases k i tk pc s s' pc' :
  unit_step k i tk pc s = Some (s', pc') →
  (unit_phase (Launched tk pc) = Idle ∧ unit_phase (Launched tk pc') = Idle
   ∧ same_cell s s' ∧ ∀ e, thrown k s' e ↔ thrown k s e)
  ∨ (∃ e, unit_phase (Launched tk pc) = Idle ∧ pc' = UCatch (HCheck e)
          ∧ same_cell s s' ∧ ∀ e', thrown k s' e' ↔ thrown k s e' ∨ e' = e)
  ∨ (∃ h h', pc = UCatch h ∧ handler_step (Unit i) h s = Some (s', h')
             ∧ pc' = leave h' UCatch).
Proof.
  intros Hu. destruct pc; simpl in Hu.
  all: repeat (case_match; simplify_eq/=; try done).
  all: try (left; split_and!; [done..|]; intros e0;
            rewrite ?thrown_log_call, ?thrown_log_sink; intuition congruence).
  all: try (right; left; eexists; split_and!; [done..|]; intros e0;
            rewrite ?thrown_log_call, ?thrown_log_sink; intuition congruence).
  right; right.
  destruct (handler_step (Unit i) h s) as [[s1 h1]|] eqn:Hh; simplify_eq/=. eauto.
Qed.

Lemma unit_step_cell k i st st' :
  thread_step k (Unit i) st = Some st' →
  (∀ t', t' ≠ Unit i → phase_of t' st' = phase_of t' st)
  ∧ cell_step k (Unit i) st st'.
Proof.
  intros H. apply unit_step_inv in H as (tk & pc & s' & pc' & Hi & Hu & ->).
  assert (Hlen := lookup_lt_Some _ _ _ Hi).
  destruct st as [s fs c]. simpl in *. split.
  - intros [|j] Hne; [done|]. rewrite phase_of_insert by done.
    rewrite decide_False by congruence. done.
  - assert (Hp : phase_of (Unit i) (State s fs c) = unit_phase (Launched tk pc))
      by (simpl; by rewrite Hi).
    assert (Hp' : phase_of (Unit i) (State s' (<[i:=Launched tk pc']> fs) c)
                  = unit_phase (Launched tk pc'))
      by (rewrite phase_of_insert, decide_True by done; done).
    apply unit_step_cases in Hu
      as [(H1 & H2 & H3 & H4)|[(e & H1 & -> & H3 & H4)|(h & h' & -> & H2 & ->)]].
    + apply cell_silent; [by rewrite Hp|by rewrite Hp'|done|done].
    + apply (cell_throw _ _ _ _ e); [by rewrite Hp|by rewrite Hp'|done|done].
    + eapply cell_handle; [exact Hp|exact H2|].
      rewrite Hp'. by destruct h'.
Qed.

Lemma caller_step_cell k st st' :
  thread_step k Caller st = Some st' →
  launch_inv st →
  (∀ t', t' ≠ Caller → phase_of t' st' = phase_of t' st)
  ∧ cell_step k Caller st st'.
Proof.
  intros H Hl. destruct st as [s fs c]. simpl in H.
  unfold caller_step in H; simpl in H.
  destruct c as [l i cb|j|j h| | | |]; simpl in H.
  - (* the launch loop *)
    destruct (Z.of_nat i <? nthreads l); simplify_eq/=.
    + split.
      * intros [|j] Hne; [done|]. simpl.
        destruct (decide (i = j)) as [<-|Hij];
          [|by rewrite list_lookup_insert_ne by done].
        destruct (decide (i < length fs)%nat) as [Hlt|Hge];
          [|by rewrite list_insert_ge by lia].
        rewrite list_lookup_insert_eq by done. simpl.
        destruct (fs !! i) as [[|tk pc]|] eqn:Hi; try done.
        by destruct (Hl l i cb i tk pc eq_refl (le_n _)).
      * by apply cell_silent.
    + split; [by intros [|j] ?|]. by apply cell_silent.
  - (* the join loop *)
    destruct (fs !! j) as [[|tk []]|] eqn:Hj; simplify_eq/=.
    + destruct (get k j) as [e|] eqn:Hg; simplify_eq/=.
      * split; [by intros [|?] ?|].
        apply (cell_throw _ _ _ _ e); try done.
        intros e'. simpl. rewrite thrown_log_get. intuition congruence.
      * split; [by intros [|?] ?|].
        apply cell_silent; try done.
        intros e'. simpl. rewrite thrown_log_get. intuition congruence.
    + split; [by intros [|?] ?|]. by apply cell_silent.
  - (* the handler of the join loop *)
    destruct (handler_step Caller h s) as [[s1 h1]|] eqn:Hh; simplify_eq/=.
    split; [by intros [|?] ?|].
    eapply cell_handle; [done|exact Hh|]. by destruct h1.
  - destruct (ex_mutex s) eqn:Hm; simplify_eq/=.
    split; [by intros [|?] ?|]. by apply cell_final_lock.
  - simplify_eq/=. split; [by intros [|?] ?|].
    apply cell_final_test; try done. simpl. by destruct (ex_ptr s).
  - done.
  - done.
Qed.

Lemma thread_step_cell k t st st' :
  thread_step k t st = Some st' →
  launch_inv st →
  (∀ t', t' ≠ t → phase_of t' st' = phase_of t' st)
  ∧ cell_step k t st st'.
Proof.
  destruct t; eauto using caller_step_cell, unit_step_cell.
Qed.

Lemma launch_inv_step k st st' :
  step k st st' → launch_inv st → launch_inv st'.
Proof.
  intros [t Ht] Hl. destruct t as [|i].
  - destruct st as [s fs c]. simpl in Ht. unfold caller_step in Ht. simpl in Ht.
    destruct c as [l i cb|j|j h| | | |]; simpl in Ht.
    all: repeat (case_match; simplify_eq/=; try done).
    all: intros l' i' cb' j' tk' pc' Hc Hij; simplify_eq/=.
    + rewrite list_lookup_insert_ne by lia. eapply (Hl _ _ _ j'); [done|]. lia.
    + destruct (handler_step Caller h s) as [[s1 [h1|]]|]; simplify_eq/=.
  - apply unit_step_inv in Ht as (tk & pc & s' & pc' & Hi & Hu & ->).
    intros l' i' cb' j' tk' pc'' Hc Hij. simpl in *.
    destruct (decide (i = j')) as [->|Hne].
    + by destruct (Hl _ _ _ _ tk pc Hc Hij).
    + rewrite list_lookup_insert_ne by done. by eapply Hl.
Qed.

Lemma failed_frame t st st' :
  (∀ t', t' ≠ t → phase_of t' st' = phase_of t' st) →
  (ex_ptr (sh st) ≠ None → ex_ptr (sh st') ≠ None) →
  (∀ h, phase_of t st = Handling h →
        (∃ h', phase_of t st' = Handling h') ∨ ex_ptr (sh st') ≠ None) →
  failed st → failed st'.
Proof.
  intros Hfr Hptr Ht [Hf|(t' & h & Hf)]; [left; auto|].
  destruct (decide (t' = t)) as [->|Hne].
  - destruct (Ht _ Hf) as [[h' Hh']|Hp]; [right; eauto|by left].
  - right. exists t', h. by rewrite Hfr.
Qed.

Lemma cell_inv_step k t st st' :
  (∀ t', t' ≠ t → phase_of t' st' = phase_of t' st) →
  cell_step k t st st' → cell_inv k st → cell_inv k st'.
Proof.
  intros Hfr Hcs [Hm Hs Hsd Ha Hw Hop Hoh Hf].
  assert (Hph : ∀ t', phase_of t' st'
                      = if decide (t' = t) then phase_of t st' else phase_of t' st).
  { intros t'. case_decide; [by subst|by apply Hfr]. }
  assert (Hother : ∀ t', t' ≠ t → ex_mutex (sh st) = Some t →
            guards (phase_of t' st) = true → False).
  { intros t' Hne Hmu Hg. apply Hm in Hg. congruence. }
  assert (Hfree : ∀ t', ex_mutex (sh st) = None →
            guards (phase_of t' st) = true → False).
  { intros t' Hmu Hg. apply Hm in Hg. congruence. }
  assert (Hmt := Hm t).
  assert (Hfail : ex_ptr (sh st') ≠ None ∨ (∃ h, phase_of t st' = Handling h) →
                  failed st').
  { intros [?|[h ?]]; [by left|right; eauto]. }
  destruct Hcs as [Hp Hp' (Hc1 & Hc2 & Hc3 & Hc4) Hth
                  |e Hp Hp' (Hc1 & Hc2 & Hc3 & Hc4) Hth
                  |h h' Hp Hh Hp'
                  |Hp Hp' Hmu Hsh
                  |Hp Hp' Hsh];
    rewrite Hp in Hmt.
  - (* a step that does not touch the cell *)
    split; rewrite ?Hc1, ?Hc2, ?Hc3, ?Hc4; try done.
    + intros t'. rewrite Hph. case_decide; subst; rewrite ?Hp'; done.
    + intros t' e. rewrite Hph. case_decide; subst; rewrite ?Hp'; [done|eauto].
    + intros t' h. rewrite Hph. case_decide; subst; rewrite ?Hp'; [done|eauto].
    + intros e He. apply Hth. eauto.
    + intros t' h e. rewrite Hph. case_decide; subst; rewrite ?Hp'; [done|].
      intros. apply Hth. eauto.
    + intros [e He%Hth]. eapply (failed_frame t); [done|by rewrite Hc2| |eauto].
      intros h Hh. congruence.
  - (* a callback throws: the thread enters its handler *)
    split; rewrite ?Hc1, ?Hc2, ?Hc3, ?Hc4; try done.
    + intros t'. rewrite Hph. case_decide; subst; rewrite ?Hp'; done.
    + intros t' e0. rewrite Hph. case_decide; subst; rewrite ?Hp'; [done|eauto].
    + intros t' h. rewrite Hph. case_decide; subst; rewrite ?Hp'; [|eauto].
      by intros [= <-].
    + intros e0 He. apply Hth. eauto.
    + intros t' h e0. rewrite Hph. case_decide; subst; rewrite ?Hp'.
      * intros [= <-] [= <-]. apply Hth. by right.
      * intros. apply Hth. eauto.
    + intros _. right. eauto.
  - (* a step of the handler *)
    assert (Hthis := Hoh t h). assert (Hst := Hs t). assert (Hsdt := Hsd t h Hp).
    destruct h as [e|e|e|e| |]; simpl in Hh.
    all: repeat case_match; try done.
    all: injection Hh as Hsh <-; simpl in Hp'.
    all: split; rewrite <- ?Hsh; simpl; try done.
    all: try (intros t'; rewrite Hph; case_decide; subst; rewrite ?Hp').
    all: repeat match goal with
           | H : ex_ptr ?s = _ |- context [ex_ptr ?s] => rewrite H
           | H : abort ?s = _ |- context [abort ?s] => rewrite H
           | H : ex_mutex ?s = _ |- context [ex_mutex ?s] => rewrite H
           end.
    all: try by eauto.
    all: try (by (intros; eapply Hother; eauto)).
    all: try (by (intros; eapply Hfree; eauto)).
    all: try (by (intros _; apply Hfail; eauto)).
    all: try (by (intros ? ? [= <-] [= <-]; eauto)).
    all: try (by (intros ? [= <-] [=])).
    all: try (by (intros ? [= <-] _; eauto)).
    all: try (by (intros _; apply Hfail; left; rewrite <- Hsh; simpl; eauto)).
    all: try (by (split; [intros Hg; exfalso; eauto|intros [= ->]])).
    all: try (by (split; [intros Hg; exfalso; eapply Hother; eauto; by apply Hmt|])).
    + intros e0 He0. exfalso. eapply (Hother t'); [done|by apply Hmt|by rewrite He0].
    + by rewrite Hw, (Hst e Hp).
  - (* the final lock is taken *)
    split; rewrite ?Hsh; simpl; try done.
    all: try (intros t'; rewrite Hph; case_decide; subst; rewrite ?Hp').
    all: try by eauto.
    + split; [intros Hg; exfalso; eauto|intros [= ->]; done].
    + intros [e He]. eapply (failed_frame t); [done|by rewrite Hsh|congruence|eauto].
  - (* the final lock is released *)
    split; rewrite ?Hsh; simpl; try done.
    all: try (intros t'; rewrite Hph; case_decide; subst; rewrite ?Hp').
    all: try by eauto.
    + split; [intros Hg; exfalso; eapply Hother; eauto; by apply Hmt|done].
    + intros [e He]. eapply (failed_frame t); [done|by rewrite Hsh|congruence|eauto].
Qed.

Lemma cell_inv_preserved k st st' :
  step k st st' → launch_inv st → cell_inv k st → cell_inv k st'.
Proof.
  intros [t Ht] Hl Hc.
  destruct (thread_step_cell k t st st' Ht Hl) as [Hfr Hcs].
  by eapply cell_inv_step.
Qed.

(** What reachable states inherit from a state that satisfies both. *)
Lemma cell_inv_reachable k st0 st :
  reachable k st0 st → launch_inv st0 → cell_inv k st0 →
  launch_inv st ∧ cell_inv k st.
Proof.
  induction 1 as [st|st st1 st2 Hs _ IH]; [done|].
  intros Hl Hc. apply IH.
  - by eapply launch_inv_step.
  - by eapply cell_inv_preserved.
Qed.

(** ** The join loop *)

(** The number of handles on which [get] has been called. *)
Definition joined_count (st : state) : nat :=
  match caller st with
  | CLaunch _ _ _ => 0
  | CGet j => j
  | CCatch j _ => S j
  | CFinalLock | CFinalTest | CReturned | CRaised _ => length (futures st)
  end.

Definition unit_done (st : state) (j : nat) : Prop :=
  ∃ tk, futures st !! j = Some (Launched tk UDone).

Record join_inv (st : state) : Prop := JoinInv {
  (** handles are waited on in launch order *)
  join_log : joined (sh st) = seq 0 (joined_count st);
  join_bound : (joined_count st ≤ length (futures st))%nat;
  (** [get] returns only once the unit has finished *)
  join_done : ∀ j, j ∈ joined (sh st) → unit_done st j;
  (** what the call raises is what the cell holds after the join loop *)
  join_result :
    match caller st with
    | CRaised e => ex_ptr (sh st) = Some e
    | CReturned => ex_ptr (sh st) = None
    | _ => True
    end;
}.

Lemma unit_step_done k i tk s : unit_step k i tk UDone s = None.
Proof. by destruct tk. Qed.

Lemma unit_step_catch k i tk h s s' pc' :
  unit_step k i tk (UCatch h) s = Some (s', pc') →
  ∃ h', handler_step (Unit i) h s = Some (s', h') ∧ pc' = leave h' UCatch.
Proof.
  simpl. intros Hu.
  destruct (handler_step (Unit i) h s) as [[s1 h1]|] eqn:Hh; simplify_eq/=. eauto.
Qed.

(** The handler touches nothing but the cell, its flag and its mutex. *)
Lemma handler_step_logs t h s s' h' :
  handler_step t h s = Some (s', h') →
  joined s' = joined s ∧ calls s' = calls s ∧ sink s' = sink s
  ∧ completed s' = completed s.
Proof.
  intros Hh. destruct h; simpl in Hh.
  all: repeat case_match; simplify_eq/=; done.
Qed.

Lemma unit_step_joined k i tk pc s s' pc' :
  unit_step k i tk pc s = Some (s', pc') → joined s' = joined s.
Proof.
  intros Hu. destruct pc.
  8: done.
  7: { apply unit_step_catch in Hu as (h' & Hh & _).
       by apply handler_step_logs in Hh as (? & _). }
  all: simpl in Hu; repeat (case_match; simplify_eq/=; try done).
Qed.

Lemma join_inv_step k st st' :
  step k st st' → join_inv st → join_inv st'.
Proof.
  intros [t Ht] [Hlog Hb Hd Hr]. destruct t as [|i].
  - destruct st as [s fs c]. simpl in Ht. unfold caller_step in Ht. simpl in *.
    unfold joined_count, unit_done in *. simpl in *.
    destruct c as [l i cb|j|j h| | | |]; simpl in *.
    + destruct (Z.of_nat i <? nthreads l); simplify_eq/=.
      * split; unfold joined_count, unit_done; simpl; [done|lia| |done].
        intros j Hj. rewrite Hlog in Hj. by apply elem_of_nil in Hj.
      * split; unfold joined_count, unit_done; simpl; [done|lia|done|done].
    + destruct (fs !! j) as [[|tk []]|] eqn:Hj; simplify_eq/=.
      * assert (Hlt := lookup_lt_Some _ _ _ Hj).
        destruct (get k j) as [e|] eqn:Hg; simplify_eq/=.
        all: split; unfold joined_count, unit_done; cbn -[seq];
          [by rewrite Hlog, seq_S|lia| |done].
        all: intros j' [Hj'| ->%list_elem_of_singleton]%elem_of_app; eauto.
      * apply lookup_ge_None in Hj.
        split; unfold joined_count, unit_done; simpl; [|lia|done|done].
        rewrite Hlog. f_equal. lia.
    + destruct (handler_step Caller h s) as [[s1 h1]|] eqn:Hh; simplify_eq/=.
      apply handler_step_logs in Hh as (Hj & _).
      destruct h1; split; unfold joined_count, unit_done; simpl; rewrite ?Hj;
        try done; try lia.
    + destruct (ex_mutex s); simplify_eq/=.
      split; unfold joined_count, unit_done; simpl; done.
    + simplify_eq/=.
      destruct (ex_ptr s) eqn:Hp; split; unfold joined_count, unit_done; simpl; done.
    + done.
    + done.
  - apply unit_step_inv in Ht as (tk & pc & s' & pc' & Hi & Hu & ->).
    assert (Hlt := lookup_lt_Some _ _ _ Hi).
    assert (Hnd : ¬ unit_done st i).
    { intros [tk' Hi']. rewrite Hi in Hi'. injection Hi' as <- ->.
      by rewrite unit_step_done in Hu. }
    assert (Hj := unit_step_joined _ _ _ _ _ _ _ Hu).
    unfold joined_count, unit_done in *. simpl in *.
    split; unfold joined_count, unit_done; simpl; rewrite ?Hj, ?length_insert; try done.
    + intros j Hjn. destruct (decide (i = j)) as [->|Hne]; [by destruct Hnd; auto|].
      rewrite list_lookup_insert_ne by done. auto.
    + assert (Hall : joined (sh st) = seq 0 (length (futures st)) → False).
      { intros Hall. apply Hnd, Hd. rewrite Hall. apply elem_of_seq. lia. }
      destruct (caller st); try done; destruct Hall; by rewrite Hlog.
Qed.

Lemma handler_step_ex_ptr t h s s' h' :
  handler_step t h s = Some (s', h') →
  ex_ptr s' = ex_ptr s ∨ ∃ e, h = HStore e ∧ ex_ptr s' = Some e.
Proof.
  destruct h; simpl; repeat case_match; intros [= <- <-]; eauto.
Qed.

Lemma handler_step_leave t h s s' :
  handler_step t h s = Some (s', None) →
  ex_ptr s' = ex_ptr s
  ∧ ((∃ e, h = HCheck e ∧ abort s = true) ∨ h = HUnlock).
Proof.
  destruct h; simpl; repeat case_match; intros [= <-]; eauto.
Qed.

(** A failure, once under way, stays: it ends up in the cell. *)
Lemma failed_step k st st' :
  step k st st' → launch_inv st → cell_inv k st → failed st → failed st'.
Proof.
  intros [t Ht] Hl Hc Hf.
  destruct (thread_step_cell k t st st' Ht Hl) as [Hfr Hcs].
  destruct Hc as [Hm Hs Hsd Ha Hw Hop Hoh _].
  destruct Hcs as [Hp Hp' (Hc1 & Hc2 & Hc3 & Hc4) Hth
                  |e Hp Hp' (Hc1 & Hc2 & Hc3 & Hc4) Hth
                  |h h' Hp Hh Hp'
                  |Hp Hp' Hmu Hsh
                  |Hp Hp' Hsh].
  - eapply (failed_frame t); [done|by rewrite Hc2|congruence|done].
  - right. eauto.
  - eapply (failed_frame t); [done| | |done].
    + destruct (handler_step_ex_ptr _ _ _ _ _ Hh) as [->|(e & _ & ->)]; done.
    + intros h0 Hh0. rewrite Hp in Hh0. injection Hh0 as <-.
      destruct h' as [h'|]; [left; eauto|right].
      destruct (handler_step_leave _ _ _ _ Hh) as [-> [(e & -> & Hab)| ->]]; [auto|].
      by apply (Hsd t _ Hp).
  - eapply (failed_frame t); [done|by rewrite Hsh|congruence|done].
  - eapply (failed_frame t); [done|by rewrite Hsh|congruence|done].
Qed.

(** The cell keeps what was stored first. *)
Lemma ex_ptr_step k st st' e :
  step k st st' → launch_inv st → cell_inv k st →
  ex_ptr (sh st) = Some e → ex_ptr (sh st') = Some e.
Proof.
  intros [t Ht] Hl Hc He.
  destruct (thread_step_cell k t st st' Ht Hl) as [Hfr Hcs].
  destruct Hc as [Hm Hs Hsd Ha Hw Hop Hoh _].
  destruct Hcs as [Hp Hp' (Hc1 & Hc2 & Hc3 & Hc4) Hth
                  |e' Hp Hp' (Hc1 & Hc2 & Hc3 & Hc4) Hth
                  |h h' Hp Hh Hp'
                  |Hp Hp' Hmu Hsh
                  |Hp Hp' Hsh].
  - congruence.
  - congruence.
  - destruct (handler_step_ex_ptr _ _ _ _ _ Hh) as [->|(e' & -> & _)]; [done|].
    rewrite (Hs t _ Hp) in He. done.
  - by rewrite Hsh.
  - by rewrite Hsh.
Qed.

Lemma ex_ptr_reachable k st st' e :
  reachable k st st' → launch_inv st → cell_inv k st →
  ex_ptr (sh st) = Some e → ex_ptr (sh st') = Some e.
Proof.
  induction 1 as [st|st st1 st2 Hs _ IH]; [done|].
  intros Hl Hc He. apply IH.
  - by eapply launch_inv_step.
  - by eapply cell_inv_preserved.
  - by eapply ex_ptr_step.
Qed.

(** ** The units of the dynamic form *)

(** How far a unit has come in its chunk. *)
Definition pc_bound (c : chunk) (pc : unit_pc) : Z :=
  match pc with
  | ULoop it _ | UCall it _ => it
  | _ => local_chunk_end c
  end.

(** The [idx] that goes with position [it] of chunk [c]. *)
Definition idx_at (c : chunk) (it : Z) : Z :=
  wrap64 (idx_offset c + (it - local_chunk_begin c)).

Definition pc_ok (c : chunk) (pc : unit_pc) : Prop :=
  match pc with
  | ULoop it idx =>
      local_chunk_begin c ≤ it ≤ local_chunk_end c ∧ idx = idx_at c it
  | UCall it idx =>
      local_chunk_begin c ≤ it < local_chunk_end c ∧ idx = idx_at c it
  | SStart | SCall _ => False
  | UCount | UProgress _ | UCatch _ | UDone => True
  end.

Lemma pc_bound_le_end c pc : pc_ok c pc → pc_bound c pc ≤ local_chunk_end c.
Proof. destruct pc; simpl; lia. Qed.

Lemma wrap64_idemp x : wrap64 (wrap64 x) = wrap64 x.
Proof. unfold wrap64. by rewrite Z.mod_mod. Qed.

Lemma wrap64_succ x : wrap64 (wrap64 x + 1) = wrap64 (x + 1).
Proof. unfold wrap64. by rewrite Zplus_mod_idemp_l. Qed.

Lemma unit_step_chunk k i c pc s s' pc' :
  unit_step k i (ChunkTask c) pc s = Some (s', pc') →
  pc_ok c pc →
  pc_ok c pc'
  ∧ pc_bound c pc ≤ pc_bound c pc' ≤ local_chunk_end c
  ∧ (calls s' = calls s
     ∨ ∃ it, pc = UCall it (idx_at c it) ∧ it < pc_bound c pc'
             ∧ calls s' = calls s ++ [ElementCall it (idx_at c it) i])
  ∧ (∀ p, pc_bound c pc ≤ p < pc_bound c pc' →
          p ∈ call_arg <$> calls s' ∨ abort s = true
          ∨ unit_phase (Launched (ChunkTask c) pc') ≠ Idle).
Proof.
  intros Hu Hok. destruct pc as [it idx|it idx| |v| |rest|h|]; simpl in Hok.
  - (* the loop head *)
    simpl in Hu. destruct Hok as [Hit ->].
    destruct (Z.eqb_spec it (local_chunk_end c)) as [->|Hne].
    { injection Hu as <- <-. simpl.
      split_and!; try done; try lia; try (by left). }
    destruct (abort s) eqn:Hab; injection Hu as <- <-; simpl.
    + split_and!; try done; try lia; try (by left).
    + split_and!; try done; try lia; try (by left).
  - (* the invocation *)
    simpl in Hu. destruct Hok as [Hit ->].
    destruct (f k (ElementCall it (idx_at c it) i)); injection Hu as <- <-; simpl.
    + split_and!; try done; try lia; [right; eexists; split_and!; [done|lia|done]|].
      intros p _. by right; right.
    + split_and!; try done; try lia; [|right; eexists; split_and!; [done|lia|done]|].
      * unfold idx_at. rewrite wrap64_succ. f_equal. lia.
      * intros p Hp. left. rewrite fmap_app, elem_of_app. right.
        apply list_elem_of_singleton. simpl. lia.
  - simpl in Hu. injection Hu as <- <-. simpl.
    split_and!; try done; try lia; try (by left).
  - simpl in Hu. destruct (progress k v); injection Hu as <- <-; simpl.
    all: split_and!; try done; try lia; try (by left).
  - done.
  - done.
  - apply unit_step_catch in Hu as (h' & Hh & ->).
    apply handler_step_logs in Hh as (_ & Hc & _).
    split; [by destruct h'|]. split; [by destruct h'|]. split; [by left|].
    intros p. destruct h'; simpl; lia.
  - done.
Qed.

(** The caller either launches the next unit or leaves the units, the
    invocation logs and the counter as they are. *)
Lemma caller_step_frame k st st' :
  caller_step k st = Some st' →
  (∃ l i cb,
     caller st = CLaunch l i cb ∧ Z.of_nat i < nthreads l
     ∧ let c := make_chunk (random_access l) (size l) (nthreads l) (chunk_sz l) i cb in
       st' = State (sh st)
               (<[i := Launched (ChunkTask c) (ULoop (local_chunk_begin c) (idx_offset c))]>
                  (futures st))
               (CLaunch l (S i) (local_chunk_end c)))
  ∨ (futures st' = futures st ∧ calls (sh st') = calls (sh st)
     ∧ sink (sh st') = sink (sh st) ∧ completed (sh st') = completed (sh st)
     ∧ ∀ l i cb, caller st' ≠ CLaunch l i cb).
Proof.
  intros Hs. destruct st as [s fs c]. unfold caller_step in Hs. simpl in *.
  destruct c as [l i cb|j|j h| | | |]; simpl in *.
  - destruct (Z.ltb_spec (Z.of_nat i) (nthreads l)); injection Hs as <-.
    + left. by exists l, i, cb.
    + right. by split_and!.
  - right. destruct (fs !! j) as [[|tk []]|]; try done.
    + destruct (get k j); injection Hs as <-; by split_and!.
    + injection Hs as <-; by split_and!.
  - right. destruct (handler_step Caller h s) as [[s1 h1]|] eqn:Hh; [|done].
    apply handler_step_logs in Hh as (? & ? & ? & ?).
    injection Hs as <-. destruct h1; by split_and!.
  - right. destruct (ex_mutex s); [done|]. injection Hs as <-. by split_and!.
  - right. injection Hs as <-. destruct (ex_ptr s); by split_and!.
  - done.
  - done.
Qed.

Global Arguments chunk_at : simpl never.

Section dynamic_units.
Variable k : callbacks.
Variables n t : Z.
Hypothesis Ht : 1 ≤ t ≤ n.

Record dyn_inv (st : state) : Prop := DynInv {
  dyn_length : length (futures st) = Z.to_nat t;
  (** the launch loop is at chunk [i] *)
  dyn_launch : ∀ l i cb, caller st = CLaunch l i cb →
    size l = n ∧ nthreads l = t ∧ chunk_sz l = n / t
    ∧ Z.of_nat i ≤ t ∧ (Z.of_nat i < t → cb = Z.of_nat i * (n / t));
  (** unit [i] owns chunk [i] and is inside it *)
  dyn_units : ∀ i tk pc, futures st !! i = Some (Launched tk pc) →
    tk = ChunkTask (chunk_at n t i) ∧ pc_ok (chunk_at n t i) pc;
  (** every invocation is one unit's, on an element that unit has passed *)
  dyn_calls : ∀ c, c ∈ calls (sh st) →
    ∃ p i tk pc, c = ElementCall p (idx_at (chunk_at n t i) p) i
      ∧ futures st !! i = Some (Launched tk pc)
      ∧ local_chunk_begin (chunk_at n t i) ≤ p < pc_bound (chunk_at n t i) pc;
  dyn_nodup : NoDup (call_arg <$> calls (sh st));
  (** without a failure, what a unit has passed it has invoked *)
  dyn_cover : ¬ failed st → ∀ i tk pc p,
    futures st !! i = Some (Launched tk pc) →
    local_chunk_begin (chunk_at n t i) ≤ p < pc_bound (chunk_at n t i) pc →
    p ∈ call_arg <$> calls (sh st);
}.

Lemma dyn_inv_step st st' :
  step k st st' → launch_inv st → cell_inv k st → dyn_inv st → dyn_inv st'.
Proof.
  intros Hstep Hl Hc [Hlen Hla Hun Hca Hnd Hco].
  assert (Hnf : ¬ failed st' → ¬ failed st).
  { intros Hnf Hf. apply Hnf. by eapply failed_step. }
  destruct Hstep as [[|i] Hs].
  - (* the caller *)
    simpl in Hs. apply caller_step_frame in Hs
      as [(l & i & cb & Hcl & Hi & Hst')|(Hfs & Hcs & _ & _ & Hncl)].
    + destruct (Hla _ _ _ Hcl) as (Hsz & Hnt & Hcz & Hit & Hcb).
      cbv zeta in Hst'. rewrite Hsz, Hnt, Hcz in *. rewrite Hcb in Hst' by done.
      rewrite make_chunk_at in Hst' by done. subst st'.
      assert (Hnone : ∀ tk pc, futures st !! i ≠ Some (Launched tk pc)).
      { intros tk pc. by eapply Hl. }
      pose proof (chunk_at_bounds n t Ht i Hi) as (Hb0 & Hb1 & Hb2).
      assert (Hilt : (i < length (futures st))%nat) by lia.
      split; cbn [futures sh caller].
      * by rewrite length_insert.
      * intros l' i' cb' [= <- <- <-]. split_and!; try done; [lia|].
        intros Hlt. destruct (Z.eqb_spec (Z.of_nat i) (t - 1)); lia.
      * intros j tk pc. destruct (decide (i = j)) as [<-|Hne].
        -- rewrite list_lookup_insert_eq by done. intros [= <- <-].
           split; [done|]. cbn [pc_ok]. rewrite chunk_at_begin in *. split; [lia|].
           unfold idx_at, chunk_at. cbn [idx_offset local_chunk_begin].
           by rewrite Z.sub_diag, Z.add_0_r, wrap64_idemp.
        -- rewrite list_lookup_insert_ne by done. apply Hun.
      * intros c (p & j & tk & pc & -> & Hj & Hp)%Hca.
        exists p, j, tk, pc. split; [done|]. split; [|done].
        rewrite list_lookup_insert_ne; [done|]. intros ->. by eapply Hnone.
      * done.
      * intros Hnf' j tk pc p. destruct (decide (i = j)) as [<-|Hne].
        -- rewrite list_lookup_insert_eq by done. intros [= <- <-]. cbn [pc_bound].
           rewrite chunk_at_begin. lia.
        -- rewrite list_lookup_insert_ne by done. apply Hco, Hnf, Hnf'.
    + split; rewrite ?Hfs, ?Hcs; try done.
      * intros l i cb Hcl. by destruct (Hncl l i cb).
      * intros Hnf'. apply Hco, Hnf, Hnf'.
  - (* unit [i] *)
    apply unit_step_inv in Hs as (tk & pc & s' & pc' & Hi & Hu & ->).
    assert (Hlt := lookup_lt_Some _ _ _ Hi).
    destruct (Hun _ _ _ Hi) as [-> Hok].
    destruct (unit_step_chunk _ _ _ _ _ _ _ Hu Hok) as (Hok' & Hbd & Hcalls & Hcov).
    assert (Hit : Z.of_nat i < t) by lia.
    assert (Hsub : ∀ x, x ∈ call_arg <$> calls (sh st) → x ∈ call_arg <$> calls s').
    { destruct Hcalls as [->|(it & _ & _ & ->)]; [done|].
      intros x Hx. rewrite fmap_app, elem_of_app. by left. }
    assert (Hold : ∀ c, c ∈ calls (sh st) →
              ∃ p j tk pcj, c = ElementCall p (idx_at (chunk_at n t j) p) j
                ∧ <[i:=Launched (ChunkTask (chunk_at n t i)) pc']> (futures st) !! j
                  = Some (Launched tk pcj)
                ∧ local_chunk_begin (chunk_at n t j) ≤ p < pc_bound (chunk_at n t j) pcj).
    { intros c (p & j & tk & pcj & -> & Hj & Hp)%Hca.
      destruct (decide (i = j)) as [<-|Hne].
      - rewrite Hi in Hj. injection Hj as <- <-.
        exists p, i, (ChunkTask (chunk_at n t i)), pc'.
        rewrite list_lookup_insert_eq by done. split_and!; try done; lia.
      - exists p, j, tk, pcj. by rewrite list_lookup_insert_ne by done. }
    split; cbn [futures sh caller].
    + by rewrite length_insert.
    + apply Hla.
    + intros j tk pcj. destruct (decide (i = j)) as [<-|Hne].
      * rewrite list_lookup_insert_eq by done. by intros [= <- <-].
      * rewrite list_lookup_insert_ne by done. apply Hun.
    + destruct Hcalls as [->|(it & -> & Hlt' & ->)]; [done|].
      intros c [Hc'| ->%list_elem_of_singleton]%elem_of_app; [by apply Hold|].
      exists it, i, (ChunkTask (chunk_at n t i)), pc'.
      rewrite list_lookup_insert_eq by done. cbn [pc_ok] in Hok.
      split_and!; try done; lia.
    + destruct Hcalls as [->|(it & -> & Hlt' & ->)]; [done|].
      rewrite fmap_app. apply NoDup_app. split; [done|]. split; [|apply NoDup_singleton].
      intros x Hx ->%list_elem_of_singleton. cbn [call_arg pc_ok] in *.
      apply list_elem_of_fmap in Hx as (c & Hit' & Hc').
      apply Hca in Hc' as (p & j & tk & pcj & -> & Hj & Hp). cbn [call_arg] in Hit'.
      subst p.
      destruct (decide (i = j)) as [<-|Hne].
      * rewrite Hi in Hj. injection Hj as <- <-. cbn [pc_bound] in Hp. lia.
      * destruct (Hun _ _ _ Hj) as [-> Hokj].
        assert (Hjt : Z.of_nat j < t) by (apply lookup_lt_Some in Hj; lia).
        apply Hne. apply (chunk_at_disjoint n t Ht i j it); try done; [lia|].
        pose proof (pc_bound_le_end _ _ Hokj). lia.
    + intros Hnf' j tk pcj p. destruct (decide (i = j)) as [<-|Hne].
      * rewrite list_lookup_insert_eq by done. intros [= <- <-] Hp.
        destruct (decide (p < pc_bound (chunk_at n t i) pc)) as [Hlo|Hhi].
        { apply Hsub. eapply Hco; [by apply Hnf|done|lia]. }
        destruct (Hcov p ltac:(lia)) as [?|[Hab|Hph]]; [done| |].
        -- destruct (Hnf Hnf'). left. by apply (cell_abort _ _ Hc).
        -- destruct Hnf'. right. exists (Unit i).
           cbn [phase_of futures]. rewrite list_lookup_insert_eq by done.
           cbn [from_option]. destruct pc'; try done. eauto.
      * rewrite list_lookup_insert_ne by done. intros Hj Hp.
        apply Hsub. eapply Hco; [by apply Hnf|done|done].
Qed.
End dynamic_units.

(** ** Initial states *)

(** A state in which nothing has happened yet. *)
Definition fresh (st : state) : Prop :=
  sh st = shared_init
  ∧ (∀ j fut, futures st !! j = Some fut → unit_phase fut = Idle)
  ∧ match caller st with
    | CLaunch _ i _ =>
        i = 0%nat ∧ ∀ j fut, futures st !! j = Some fut → fut = NotLaunched
    | CGet j => j = 0%nat
    | CReturned => futures st = []
    | _ => False
    end.

Lemma fresh_phase st t : fresh st → phase_of t st = Idle.
Proof.
  intros (_ & Hu & Hc). destruct t as [|i]; simpl.
  - by destruct (caller st).
  - destruct (futures st !! i) eqn:Hi; [|done]. by eapply Hu.
Qed.

Lemma fresh_not_thrown k st e : fresh st → ¬ thrown k (sh st) e.
Proof.
  intros (-> & _). unfold thrown. simpl.
  intros [(? & []%elem_of_nil & _)|[(? & []%elem_of_nil & _)|(? & []%elem_of_nil & _)]].
Qed.

Lemma fresh_launch_inv st : fresh st → launch_inv st.
Proof.
  intros (_ & _ & Hc) l i cb j tk pc Hcl _ Hj. rewrite Hcl in Hc.
  destruct Hc as [_ Hn]. by specialize (Hn _ _ Hj).
Qed.

Lemma fresh_cell_inv k st : fresh st → cell_inv k st.
Proof.
  intros Hf. pose proof (λ t, fresh_phase st t Hf) as Hp.
  pose proof (λ e, fresh_not_thrown k st e Hf) as Hn.
  destruct Hf as (Hs & _). split; rewrite ?Hs; simpl; try done.
  all: try (intros t; by rewrite Hp).
  intros [e He]. destruct (Hn e). by rewrite Hs.
Qed.

Lemma fresh_join_inv st : fresh st → join_inv st.
Proof.
  intros (Hs & _ & Hc). split; unfold joined_count; rewrite ?Hs; simpl.
  - destruct (caller st); try done; try (by subst); by rewrite Hc.
  - destruct (caller st); try done; try lia; try (subst; lia); by rewrite Hc.
  - by intros j ?%elem_of_nil.
  - by destruct (caller st).
Qed.

Lemma async_for_each_init_fresh ra size threads st0 :
  async_for_each_init ra size threads = Some st0 → fresh st0.
Proof.
  unfold async_for_each_init. destruct (async_for_each_entry size threads); [|done|].
  - intros [= <-]. by split_and!.
  - intros [= <-]. split_and!; simpl; try done.
    + by intros j fut [-> _]%lookup_replicate.
    + split; [done|]. by intros j fut [-> _]%lookup_replicate.
Qed.

Lemma async_for_each_index_init_fresh Tbits N0 Nn Ns threads st0 :
  async_for_each_index_init Tbits N0 Nn Ns threads = Some st0 → fresh st0.
Proof.
  unfold async_for_each_index_init. intros Hi.
  destruct (mapM _ _) as [units|] eqn:Hm; simplify_eq/=.
  split_and!; simpl; try done.
  intros j fut Hj. rewrite mapM_Some in Hm.
  destruct (Forall2_lookup_r _ _ _ _ _ Hm Hj) as (Ci & _ & HCi).
  destruct (unit_indices Tbits N0 Nn Ns Ci threads); simplify_eq/=. done.
Qed.

(** Everything a reachable state inherits, whatever the form. *)
Lemma fresh_reachable k st0 st :
  fresh st0 → reachable k st0 st →
  launch_inv st ∧ cell_inv k st ∧ join_inv st.
Proof.
  intros Hf Hr.
  assert (Hinv : launch_inv st0 ∧ cell_inv k st0 ∧ join_inv st0)
    by (split_and!; eauto using fresh_launch_inv, fresh_cell_inv, fresh_join_inv).
  clear Hf. induction Hr as [st|st st1 st2 Hs _ IH]; [done|].
  destruct Hinv as (Hl & Hc & Hj). apply IH. split_and!.
  - by eapply launch_inv_step.
  - by eapply cell_inv_preserved.
  - by eapply join_inv_step.
Qed.

(** ** Runs of the dynamic form *)

Lemma async_for_each_init_dispatch ra size threads st0 :
  1 ≤ size → 1 ≤ threads →
  async_for_each_init ra size threads = Some st0 →
  let t := Z.min threads size in
  st0 = State shared_init (replicate (Z.to_nat t) NotLaunched)
          (CLaunch (Locals ra size t (size / t)) 0 0).
Proof.
  intros Hs Ht. unfold async_for_each_init, async_for_each_entry.
  destruct (Z.eqb_spec size 0); [lia|].
  destruct (Z.eqb_spec (Z.min threads size) 0); [lia|]. by intros [= <-].
Qed.

Lemma async_for_each_init_dyn_inv ra size threads st0 :
  1 ≤ size → 1 ≤ threads →
  async_for_each_init ra size threads = Some st0 →
  dyn_inv size (Z.min threads size) st0.
Proof.
  intros Hs Ht Hi. rewrite (async_for_each_init_dispatch _ _ _ _ Hs Ht Hi).
  split; simpl.
  - by rewrite length_replicate.
  - intros l i cb [= <- <- <-]. simpl. split_and!; try done; lia.
  - by intros i tk pc [? _]%lookup_replicate.
  - by intros c ?%elem_of_nil.
  - apply NoDup_nil_2.
  - by intros _ i tk pc p [? _]%lookup_replicate.
Qed.

Section dynamic_runs.
Variable k : callbacks.
Variable ra : bool.
Variables size threads : Z.
Hypothesis Hsize : 1 ≤ size.
Hypothesis Hthreads : 1 ≤ threads.
Variable st0 : state.
Hypothesis Hinit : async_for_each_init ra size threads = Some st0.
Local Abbreviation t := (Z.min threads size).

Lemma dynamic_reachable st :
  reachable k st0 st →
  launch_inv st ∧ cell_inv k st ∧ join_inv st ∧ dyn_inv size t st.
Proof.
  intros Hr.
  assert (Hf : fresh st0) by (by eapply async_for_each_init_fresh).
  assert (Hinv : launch_inv st0 ∧ cell_inv k st0 ∧ join_inv st0 ∧ dyn_inv size t st0).
  { split_and!; eauto using fresh_launch_inv, fresh_cell_inv, fresh_join_inv,
      async_for_each_init_dyn_inv. }
  clear Hf Hinit. induction Hr as [st|st st1 st2 Hs _ IH]; [done|].
  destruct Hinv as (Hl & Hc & Hj & Hd). apply IH. split_and!.
  - by eapply launch_inv_step.
  - by eapply cell_inv_preserved.
  - by eapply join_inv_step.
  - eapply (dyn_inv_step k size t); [lia|done..].
Qed.

(** After the join loop every unit has finished and is out of its handler. *)
Lemma joined_all_done st j :
  join_inv st → joined_count st = length (futures st) →
  (j < length (futures st))%nat → unit_done st j.
Proof.
  intros [Hlog _ Hd _] Hc Hj. apply Hd. rewrite Hlog, Hc. apply elem_of_seq. lia.
Qed.

Lemma returned_not_failed st :
  join_inv st → caller st = CReturned → ¬ failed st.
Proof.
  intros Hj Hc [Hp|(th & h & Hh)].
  - destruct Hj as [_ _ _ Hr]. rewrite Hc in Hr. done.
  - destruct th as [|i]; simpl in Hh; [by rewrite Hc in Hh|].
    destruct (futures st !! i) as [fut|] eqn:Hi; [|done].
    destruct (joined_all_done st i Hj) as [tk Hd].
    + unfold joined_count. by rewrite Hc.
    + by eapply lookup_lt_Some.
    + rewrite Hi in Hd. by injection Hd as ->.
Qed.

(** A call that returns normally has invoked the callable on every element
    of the range exactly once. *)
Lemma returned_calls st :
  reachable k st0 st → caller st = CReturned →
  call_arg <$> calls (sh st) ≡ₚ seqZ 0 size.
Proof.
  intros Hr Hc. destruct (dynamic_reachable st Hr) as (Hl & Hce & Hj & Hd).
  assert (Ht : 1 ≤ t ≤ size) by lia.
  pose proof (returned_not_failed st Hj Hc) as Hnf.
  apply NoDup_Permutation; [apply Hd|apply NoDup_seqZ|].
  intros p. rewrite elem_of_seqZ. split.
  - intros (c & -> & Hin)%list_elem_of_fmap.
    destruct (dyn_calls _ _ _ Hd c Hin) as (p & i & tk & pc & -> & Hi & Hp).
    destruct (dyn_units _ _ _ Hd _ _ _ Hi) as [_ Hok].
    pose proof (pc_bound_le_end _ _ Hok).
    assert (Z.of_nat i < t).
    { apply lookup_lt_Some in Hi. rewrite (dyn_length _ _ _ Hd) in Hi. lia. }
    pose proof (chunk_at_bounds size t Ht i ltac:(done)). cbn [call_arg]. lia.
  - intros Hp. destruct (chunk_at_cover size t Ht p ltac:(lia)) as (i & Hi & Hin).
    destruct (joined_all_done st i Hj) as [tk Hdone].
    + unfold joined_count. by rewrite Hc.
    + rewrite (dyn_length _ _ _ Hd). lia.
    + eapply (dyn_cover _ _ _ Hd Hnf); [exact Hdone|]. cbn [pc_bound]. lia.
Qed.

(** Every invocation passes, for the element at position [p] of chunk [i],
    the offset recorded for the chunk plus the distance of [p] from the
    start of the chunk, and [i] as the worker id. *)
Lemma reachable_call_idx st c :
  reachable k st0 st → c ∈ calls (sh st) →
  ∃ p i, c = ElementCall p (wrap64 (idx_offset (chunk_at size t i)
                                    + (p - local_chunk_begin (chunk_at size t i)))) i
         ∧ Z.of_nat i < t
         ∧ local_chunk_begin (chunk_at size t i) ≤ p < local_chunk_end (chunk_at size t i).
Proof.
  intros Hr Hin. destruct (dynamic_reachable st Hr) as (Hl & Hce & Hj & Hd).
  destruct (dyn_calls _ _ _ Hd c Hin) as (p & i & tk & pc & -> & Hi & Hp).
  destruct (dyn_units _ _ _ Hd _ _ _ Hi) as [_ Hok].
  pose proof (pc_bound_le_end _ _ Hok).
  exists p, i. split; [done|]. split; [|lia].
  apply lookup_lt_Some in Hi. rewrite (dyn_length _ _ _ Hd) in Hi. lia.
Qed.
End dynamic_runs.

(** ** The completed counter and the progress sink *)

(** The value a unit has fetched from the counter and not yet passed on. *)
Definition pending_pc (pc : unit_pc) : option Z :=
  match pc with
  | UProgress v => Some v
  | _ => None
  end.

Definition pending (fut : future) : option Z :=
  match fut with
  | Launched _ pc => pending_pc pc
  | NotLaunched => None
  end.

(** The unit is past its loop. *)
Definition past_loop_pc (pc : unit_pc) : bool :=
  match pc with
  | UProgress _ | UCatch _ | UDone => true
  | _ => false
  end.

Definition past_loop (fut : future) : bool :=
  match fut with
  | Launched _ pc => past_loop_pc pc
  | NotLaunched => false
  end.

(** The unit is past its call of the sink, or will never make it. *)
Definition after_sink (pc : unit_pc) : Prop :=
  match pc with
  | UCatch _ | UDone => True
  | _ => False
  end.

(** Some invocation of the callable by unit [i] has thrown. *)
Definition threw (k : callbacks) (s : shared) (i : nat) : Prop :=
  ∃ c, c ∈ calls s ∧ call_thread c = i ∧ f k c ≠ None.

Lemma insert_middle {A} (l : list A) i x y :
  l !! i = Some x →
  ∃ l1 l2, l = l1 ++ x :: l2 ∧ <[i:=y]> l = l1 ++ y :: l2.
Proof.
  intros Hi. exists (take i l), (drop (S i) l). split.
  - by rewrite take_drop_middle.
  - by rewrite insert_take_drop by (by eapply lookup_lt_Some).
Qed.

Lemma omap_insert_perm {A B} (g : A → option B) (l : list A) i x y :
  l !! i = Some x →
  ∃ rest, omap g l ≡ₚ option_list (g x) ++ rest
          ∧ omap g (<[i:=y]> l) ≡ₚ option_list (g y) ++ rest.
Proof.
  intros (l1 & l2 & -> & ->)%(insert_middle _ _ _ y).
  exists (omap g l1 ++ omap g l2). rewrite !omap_app. simpl.
  split.
  - destruct (g x); simpl; [|done]. by rewrite Permutation_middle.
  - destruct (g y); simpl; [|done]. by rewrite Permutation_middle.
Qed.

Lemma filter_insert_length {A} (P : A → Prop) `{!∀ x, Decision (P x)}
    (l : list A) i x y :
  l !! i = Some x →
  ∃ m, length (filter P l) = ((if decide (P x) then 1 else 0) + m)%nat
       ∧ length (filter P (<[i:=y]> l)) = ((if decide (P y) then 1 else 0) + m)%nat.
Proof.
  intros (l1 & l2 & -> & ->)%(insert_middle _ _ _ y).
  exists (length (filter P l1) + length (filter P l2))%nat.
  rewrite !filter_app, !filter_cons, !length_app.
  split; case_decide; simpl; lia.
Qed.

(** What one step of a unit of the dynamic form does to the logs and the
    counter. *)
Inductive unit_effect (k : callbacks) (i : nat) (s s' : shared)
  : unit_pc → unit_pc → Prop :=
| effect_none pc pc' :
    calls s' = calls s → sink s' = sink s → completed s' = completed s →
    pending_pc pc = None → pending_pc pc' = None →
    past_loop_pc pc = past_loop_pc pc' →
    (after_sink pc ↔ after_sink pc') →
    unit_effect k i s s' pc pc'
| effect_call it idx pc' :
    calls s' = calls s ++ [ElementCall it idx i] →
    sink s' = sink s → completed s' = completed s →
    (f k (ElementCall it idx i) = None ∧ pc' = ULoop (it + 1) (wrap64 (idx + 1))
     ∨ ∃ e, f k (ElementCall it idx i) = Some e ∧ pc' = UCatch (HCheck e)) →
    unit_effect k i s s' (UCall it idx) pc'
| effect_count :
    calls s' = calls s → sink s' = sink s →
    completed s' = wrap64 (completed s + 1) →
    unit_effect k i s s' UCount (UProgress (wrap64 (completed s + 1)))
| effect_sink v pc' :
    calls s' = calls s → sink s' = sink s ++ [(i, v)] →
    completed s' = completed s →
    after_sink pc' →
    unit_effect k i s s' (UProgress v) pc'.

Lemma unit_step_effect k i c pc s s' pc' :
  unit_step k i (ChunkTask c) pc s = Some (s', pc') →
  unit_effect k i s s' pc pc'.
Proof.
  intros Hu. destruct pc as [it idx|it idx| |v| |rest|h|].
  - simpl in Hu. repeat case_match; injection Hu as <- <-;
      apply effect_none; done || (simpl; tauto).
  - simpl in Hu. destruct (f k (ElementCall it idx i)) eqn:Hf; injection Hu as <- <-.
    + apply effect_call; try done. right. eauto.
    + apply effect_call; try done. by left.
  - simpl in Hu. injection Hu as <- <-. by constructor.
  - simpl in Hu. destruct (progress k v); injection Hu as <- <-; by constructor.
  - done.
  - by destruct rest.
  - apply unit_step_catch in Hu as (h' & Hh & ->).
    apply handler_step_logs in Hh as (_ & ? & ? & ?).
    destruct h'; apply effect_none; done || (simpl; tauto).
  - done.
Qed.

Lemma threw_snoc k s s' c i :
  calls s' = calls s ++ [c] →
  threw k s' i ↔ threw k s i ∨ (call_thread c = i ∧ f k c ≠ None).
Proof. intros Hc. unfold threw. rewrite Hc, exists_snoc. tauto. Qed.

Lemma threw_same k s s' i : calls s' = calls s → threw k s' i ↔ threw k s i.
Proof. intros Hc. unfold threw. by rewrite Hc. Qed.

Section sink.
Variable k : callbacks.
Variables n t : Z.
Hypothesis Ht : 1 ≤ t ≤ n.
Hypothesis Hn : n ≤ ptrdiff_max.

Record sink_inv (st : state) : Prop := SinkInv {
  (** the values handed out by the counter are 1 .. completed, each held by
      the sink or by the unit that fetched it *)
  sink_values :
    (sink (sh st)).*2 ++ omap pending (futures st) ≡ₚ seqZ 1 (completed (sh st));
  sink_count :
    0 ≤ completed (sh st) ≤ Z.of_nat (length (filter past_loop (futures st)));
  (** a unit calls the sink at most once *)
  sink_nodup : NoDup (sink (sh st)).*1;
  sink_after : ∀ i, i ∈ (sink (sh st)).*1 →
    ∃ tk pc, futures st !! i = Some (Launched tk pc) ∧ after_sink pc;
  (** a unit that is through has called the sink unless its callable threw *)
  sink_or_threw : ∀ i tk pc, futures st !! i = Some (Launched tk pc) →
    after_sink pc → i ∈ (sink (sh st)).*1 ∨ threw k (sh st) i;
  sink_threw : ∀ i, threw k (sh st) i →
    (i ∉ (sink (sh st)).*1)
    ∧ ∃ tk pc, futures st !! i = Some (Launched tk pc) ∧ after_sink pc;
}.

Lemma sink_inv_caller st st' :
  caller_step k st = Some st' → launch_inv st → sink_inv st → sink_inv st'.
Proof.
  intros Hs Hl [Hv Hc Hnd Haf Hot Hth].
  apply caller_step_frame in Hs
    as [(l & i & cb & Hcl & Hi & ->)|(Hfs & Hcs & Hss & Hcp & _)].
  - assert (Hnone : ∀ tk pc, futures st !! i ≠ Some (Launched tk pc)).
    { intros tk pc. by eapply Hl. }
    set (u := Launched _ _).
    assert (Hlk : ∀ j tk pc, futures st !! j = Some (Launched tk pc) →
                  <[i:=u]> (futures st) !! j = Some (Launched tk pc)).
    { intros j tk pc Hj. rewrite list_lookup_insert_ne; [done|].
      intros ->. by eapply Hnone. }
    destruct (futures st !! i) as [x|] eqn:Hix.
    2:{ rewrite list_insert_ge by (by apply lookup_ge_None). by split. }
    assert (Hx : x = NotLaunched).
    { destruct x as [|tk pc]; [done|]. by destruct (Hnone tk pc). }
    subst x. split; cbn [futures sh].
    + destruct (omap_insert_perm pending _ _ _ u Hix) as (rest & H1 & H2).
      by rewrite H2, <- H1.
    + destruct (filter_insert_length past_loop _ _ _ u Hix) as (m & H1 & H2).
      rewrite H1 in Hc. rewrite H2. subst u. simpl in *. lia.
    + done.
    + intros j (tk & pc & Hj & Hp)%Haf. eauto.
    + intros j tk pc. destruct (decide (i = j)) as [<-|Hne].
      * rewrite list_lookup_insert_eq by (by eapply lookup_lt_Some).
        by intros [= <- <-].
      * rewrite list_lookup_insert_ne by done. apply Hot.
    + intros j [Hj (tk & pc & Hjl & Hp)]%Hth. split; eauto.
  - split; rewrite ?Hfs, ?Hcs, ?Hss, ?Hcp; try done.
    + intros i tk pc Hi Hp. destruct (Hot _ _ _ Hi Hp) as [?|?]; [by left|right].
      by apply (threw_same k (sh st)).
    + intros i Hi%(threw_same k (sh st)); [|done]. by apply Hth.
Qed.
Lemma sink_inv_unit i st st' :
  thread_step k (Unit i) st = Some st' →
  dyn_inv n t st → sink_inv st → sink_inv st'.
Proof.
  intros Hs Hd [Hv Hc Hnd Haf Hot Hth].
  apply unit_step_inv in Hs as (tk & pc & s' & pc' & Hi & Hu & ->).
  assert (Hlt := lookup_lt_Some _ _ _ Hi).
  destruct (dyn_units _ _ _ Hd _ _ _ Hi) as [-> _].
  apply unit_step_effect in Hu.
  set (c := chunk_at n t i) in *.
  set (u := Launched (ChunkTask c) pc').
  destruct (omap_insert_perm pending _ _ _ u Hi) as (rest & Ho1 & Ho2).
  destruct (filter_insert_length past_loop _ _ _ u Hi) as (m & Hf1 & Hf2).
  rewrite Ho1 in Hv. rewrite Hf1 in Hc. simpl in Ho2, Hf2, Hv, Hc.
  assert (Hlk : ∀ j, <[i:=u]> (futures st) !! j
                     = if decide (i = j) then Some u else futures st !! j).
  { intros j. destruct (decide (i = j)) as [<-|Hne].
    - by rewrite list_lookup_insert_eq.
    - by rewrite list_lookup_insert_ne. }
  assert (Hnot : ¬ after_sink pc → i ∉ (sink (sh st)).*1).
  { intros Hna (tk & pc0 & Hi0 & Hp)%Haf. rewrite Hi in Hi0.
    injection Hi0 as <- <-. done. }
  assert (Hnth : ¬ after_sink pc → ¬ threw k (sh st) i).
  { intros Hna [_ (tk & pc0 & Hi0 & Hp)]%Hth. rewrite Hi in Hi0.
    injection Hi0 as <- <-. done. }
  assert (Htrans : (after_sink pc → after_sink pc') → ∀ j,
            (∃ tk pc0, futures st !! j = Some (Launched tk pc0) ∧ after_sink pc0) →
            ∃ tk pc0, <[i:=u]> (futures st) !! j = Some (Launched tk pc0)
                      ∧ after_sink pc0).
  { intros Himp j (tk & pc0 & Hj & Hp). rewrite Hlk.
    destruct (decide (i = j)) as [<-|Hne]; [|eauto].
    rewrite Hi in Hj. injection Hj as <- <-. eauto. }
  assert (Hback : ∀ j tk pc0, <[i:=u]> (futures st) !! j = Some (Launched tk pc0) →
            (j = i ∧ pc0 = pc') ∨ (j ≠ i ∧ futures st !! j = Some (Launched tk pc0))).
  { intros j tk pc0. rewrite Hlk. destruct (decide (i = j)) as [<-|Hne]; [|auto].
    intros [= <- <-]. auto. }
  destruct Hu as [pc pc' Hcs Hss Hcp Hp1 Hp2 Hpl Has
                 |it idx pc' Hcs Hss Hcp Hf
                 |Hcs Hss Hcp
                 |v pc' Hcs Hss Hcp Has].
  - (* nothing logged, nothing counted *)
    rewrite Hp1 in Hv. rewrite Hp2 in Ho2. rewrite Hpl in Hc.
    split; cbn [futures sh]; rewrite ?Hss, ?Hcp.
    + by rewrite Ho2.
    + by rewrite Hf2.
    + done.
    + intros j Hj. apply Htrans; [tauto|auto].
    + intros j tk pc0 [[-> ->]|[Hne Hj]]%Hback Hp; rewrite (threw_same k (sh st)) by done.
      * apply (Hot _ _ _ Hi). tauto.
      * eauto.
    + intros j Hj%(threw_same k (sh st)); [|done].
      destruct (Hth j Hj) as [Hnj Hl]. split; [done|]. apply Htrans; [tauto|done].
  - (* an invocation of the callable *)
    simpl in Hv, Hc, Hnot, Hnth.
    specialize (Hnot (λ H, H)). specialize (Hnth (λ H, H)).
    assert (Hpc' : pending_pc pc' = None) by (by destruct Hf as [[_ ->]|(e & _ & ->)]).
    rewrite Hpc' in Ho2.
    split; cbn [futures sh]; rewrite ?Hss, ?Hcp.
    + by rewrite Ho2.
    + rewrite Hf2. lia.
    + done.
    + intros j Hj. apply Htrans; [done|auto].
    + intros j tk pc0 [[-> ->]|[Hne Hj]]%Hback Hp;
        rewrite (threw_snoc k (sh st) s' _ _ Hcs).
      * right. right. destruct Hf as [[_ ->]|(e & He & _)]; [done|].
        split; [done|]. by rewrite He.
      * destruct (Hot _ _ _ Hj Hp); auto.
    + intros j [Hj|[<- Hthrow]]%(threw_snoc k (sh st) s' _ _ Hcs).
      * destruct (Hth j Hj) as [Hnj Hl]. split; [done|]. by apply Htrans.
      * split; [done|]. exists (ChunkTask c), pc'.
        rewrite Hlk, decide_True by done. split; [done|].
        destruct Hf as [[Hnone _]|(e & _ & ->)]; done.
  - (* the counter is incremented *)
    simpl in Hv, Hc, Ho2, Hf2, Hnot, Hnth.
    specialize (Hnot (λ H, H)). specialize (Hnth (λ H, H)).
    assert (Hm : (m < length (futures st))%nat).
    { pose proof (length_filter past_loop (<[i:=u]> (futures st))) as Hle.
      rewrite length_insert in Hle. lia. }
    rewrite (dyn_length _ _ _ Hd) in Hm.
    assert (Hw : wrap64 (completed (sh st) + 1) = completed (sh st) + 1).
    { unfold wrap64, ptrdiff_max in *. apply Z.mod_small. lia. }
    rewrite Hw in *.
    split; cbn [futures sh]; rewrite ?Hss, ?Hcp.
    + rewrite Ho2. rewrite (seqZ_app 1 (completed (sh st)) 1) by lia. simpl.
      rewrite <- Hv. rewrite Z.add_comm.
      by rewrite <- Permutation_middle, Permutation_cons_append.
    + rewrite Hf2. lia.
    + done.
    + intros j Hj. apply Htrans; [done|auto].
    + intros j tk pc0 [[-> ->]|[Hne Hj]]%Hback Hp; [done|].
      rewrite (threw_same k (sh st)) by done. eauto.
    + intros j Hj%(threw_same k (sh st)); [|done].
      destruct (Hth j Hj) as [Hnj Hl]. split; [done|]. by apply Htrans.
  - (* the sink is called *)
    simpl in Hv, Hc, Ho2, Hf2, Hnot, Hnth.
    specialize (Hnot (λ H, H)). specialize (Hnth (λ H, H)).
    assert (Hpc' : pending_pc pc' = None) by (by destruct pc').
    assert (Hpl' : past_loop_pc pc' = true) by (by destruct pc').
    rewrite Hpc' in Ho2. rewrite Hpl' in Hf2.
    split; cbn [futures sh]; rewrite ?Hss, ?Hcp, ?fmap_app; simpl.
    + rewrite Ho2. simpl. rewrite <- Hv, <- app_assoc. done.
    + by rewrite Hf2.
    + apply NoDup_app. split; [done|]. split; [|apply NoDup_singleton].
      by intros j Hj ->%list_elem_of_singleton.
    + intros j [Hj| ->%list_elem_of_singleton]%elem_of_app.
      * apply Htrans; [done|auto].
      * exists (ChunkTask c), pc'. by rewrite Hlk, decide_True.
    + intros j tk pc0 [[-> ->]|[Hne Hj]]%Hback Hp; rewrite elem_of_app.
      * left. right. by apply list_elem_of_singleton.
      * rewrite (threw_same k (sh st)) by done.
        destruct (Hot _ _ _ Hj Hp); auto.
    + intros j Hj%(threw_same k (sh st)); [|done].
      destruct (Hth j Hj) as [Hnj Hl]. split; [|by apply Htrans].
      rewrite elem_of_app, list_elem_of_singleton. by intros [?| ->].
Qed.

Lemma sink_inv_step st st' :
  step k st st' → launch_inv st → dyn_inv n t st → sink_inv st → sink_inv st'.
Proof.
  intros [[|i] Hs] Hl Hd Hsi.
  - by eapply sink_inv_caller.
  - by eapply sink_inv_unit.
Qed.
End sink.

Lemma async_for_each_init_sink_inv k ra size threads st0 :
  1 ≤ size → 1 ≤ threads →
  async_for_each_init ra size threads = Some st0 →
  sink_inv k st0.
Proof.
  intros Hs Ht Hi. rewrite (async_for_each_init_dispatch _ _ _ _ Hs Ht Hi).
  assert (Hrep : ∀ m, omap pending (replicate m NotLaunched) = []
                      ∧ filter past_loop (replicate m NotLaunched) = []).
  { induction m as [|m [IH1 IH2]]; [done|]. simpl. by rewrite filter_cons, IH2. }
  destruct (Hrep (Z.to_nat (Z.min threads size))) as [Ho Hf].
  split; simpl; rewrite ?Ho, ?Hf; try done.
  - apply NoDup_nil_2.
  - by intros i ?%elem_of_nil.
  - by intros i tk pc [? _]%lookup_replicate.
  - by intros i (c & ?%elem_of_nil & _).
Qed.

Section sink_runs.
Variable k : callbacks.
Variable ra : bool.
Variables size threads : Z.
Hypothesis Hsize : 1 ≤ size ≤ ptrdiff_max.
Hypothesis Hthreads : 1 ≤ threads.
Variable st0 : state.
Hypothesis Hinit : async_for_each_init ra size threads = Some st0.
Local Abbreviation t := (Z.min threads size).

Lemma sink_reachable st : reachable k st0 st → sink_inv k st.
Proof.
  intros Hr.
  assert (Hinv : launch_inv st0 ∧ cell_inv k st0 ∧ dyn_inv size t st0 ∧ sink_inv k st0).
  { assert (Hf : fresh st0) by (by eapply async_for_each_init_fresh).
    split_and!; eauto using fresh_launch_inv, fresh_cell_inv.
    - apply (async_for_each_init_dyn_inv ra); [lia|done..].
    - apply (async_for_each_init_sink_inv k ra size threads); [lia|done..]. }
  clear Hinit. induction Hr as [st|st st1 st2 Hs _ IH]; [by destruct Hinv as (_&_&_&?)|].
  destruct Hinv as (Hl & Hc & Hd & Hsi). apply IH. split_and!.
  - by eapply launch_inv_step.
  - by eapply cell_inv_preserved.
  - eapply (dyn_inv_step k size t); [lia|done..].
  - eapply (sink_inv_step k size t); [lia|lia|done..].
Qed.

(** A call that returns normally has seen no throw at all. *)
Lemma returned_no_throw st :
  reachable k st0 st → caller st = CReturned → ∀ e, ¬ thrown k (sh st) e.
Proof.
  intros Hr Hc e He.
  destruct (dynamic_reachable k ra size threads ltac:(lia) Hthreads st0 Hinit st Hr)
    as (Hl & Hce & Hj & Hd).
  apply (returned_not_failed st Hj Hc). apply (cell_failed _ _ Hce). eauto.
Qed.

(** On a call that returns normally every unit has called the sink once,
    each with its own value of 1 .. t. *)
Lemma returned_sink st :
  reachable k st0 st → caller st = CReturned →
  (sink (sh st)).*1 ≡ₚ seq 0 (Z.to_nat t)
  ∧ (sink (sh st)).*2 ≡ₚ seqZ 1 t
  ∧ completed (sh st) = t.
Proof.
  intros Hr Hc.
  destruct (dynamic_reachable k ra size threads ltac:(lia) Hthreads st0 Hinit st Hr)
    as (Hl & Hce & Hj & Hd).
  pose proof (sink_reachable st Hr) as [Hv Hcnt Hnd Haf Hot Hth].
  pose proof (returned_no_throw st Hr Hc) as Hnt.
  assert (Hdone : ∀ i, (i < Z.to_nat t)%nat → unit_done st i).
  { intros i Hi. apply (joined_all_done st i Hj).
    - unfold joined_count. by rewrite Hc.
    - by rewrite (dyn_length _ _ _ Hd). }
  assert (Hunits : (sink (sh st)).*1 ≡ₚ seq 0 (Z.to_nat t)).
  { apply NoDup_Permutation; [done|apply NoDup_seq|].
    intros i. rewrite elem_of_seq. split.
    - intros (tk & pc & Hi & _)%Haf. apply lookup_lt_Some in Hi.
      rewrite (dyn_length _ _ _ Hd) in Hi. lia.
    - intros [_ Hi]. destruct (Hdone i Hi) as [tk Hd'].
      destruct (Hot _ _ _ Hd' I) as [?|(c & Hin & _ & Hf)]; [done|].
      destruct (f k c) as [e|] eqn:He; [|done].
      destruct (Hnt e). left. eauto. }
  assert (Hnone : omap pending (futures st) = []).
  { apply elem_of_nil_inv. intros v (fut & Hin & Hp)%list_elem_of_omap.
    apply list_elem_of_lookup in Hin as [i Hi].
    destruct (Hdone i) as [tk Hd'].
    - apply lookup_lt_Some in Hi. by rewrite (dyn_length _ _ _ Hd) in Hi.
    - rewrite Hi in Hd'. by injection Hd' as ->. }
  rewrite Hnone, app_nil_r in Hv.
  assert (Hlen : completed (sh st) = t).
  { pose proof (Permutation_length Hv) as Hv'.
    pose proof (Permutation_length Hunits) as Hu'. clear Hv Hunits.
    rename Hv' into Hv. rename Hu' into Hunits.
    rewrite !length_fmap in *. rewrite length_seqZ in Hv. rewrite length_seq in Hunits.
    destruct Hcnt. lia. }
  by rewrite Hlen in Hv.
Qed.
End sink_runs.

(** ** Every call completes *)

(** The control point fits the task, inside the chunk. *)
Definition typed (tk : task) (pc : unit_pc) : Prop :=
  match tk, pc with
  | ChunkTask c, ULoop it _ => it ≤ local_chunk_end c
  | ChunkTask c, UCall it _ => it < local_chunk_end c
  | ChunkTask _, (UCount | UProgress _ | UCatch _ | UDone) => True
  | ChunkTask _, (SStart | SCall _) => False
  | IndexTask _, (SStart | SCall _ | UCatch _ | UDone) => True
  | IndexTask _, (ULoop _ _ | UCall _ _ | UCount | UProgress _) => False
  end.

(** The chunk the launch loop is about to hand out lies in the range. *)
Definition launch_ok (st : state) : Prop :=
  ∀ l i cb, caller st = CLaunch l i cb → Z.of_nat i < nthreads l →
    let c := make_chunk (random_access l) (size l) (nthreads l) (chunk_sz l) i cb in
    0 ≤ chunk_len c ≤ size l.

Record sched_inv (st : state) : Prop := SchedInv {
  sched_typed : ∀ i tk pc, futures st !! i = Some (Launched tk pc) → typed tk pc;
  (** the launch loop fills the vector of futures from the front *)
  sched_launched :
    match caller st with
    | CLaunch l i cb =>
        length (futures st) = Z.to_nat (nthreads l)
        ∧ ∀ j, (j < i)%nat → (j < length (futures st))%nat →
               ∃ tk pc, futures st !! j = Some (Launched tk pc)
    | _ => ∀ j, futures st !! j ≠ Some NotLaunched
    end;
}.

Definition handler_measure (h : handler) : nat :=
  match h with
  | HCheck _ => 6
  | HLock _ => 5
  | HTest _ => 4
  | HStore _ => 3
  | HSetAbort => 2
  | HUnlock => 1
  end.

(** A bound on the steps a unit has left. *)
Definition unit_measure (fut : future) : nat :=
  match fut with
  | NotLaunched => 0
  | Launched tk pc =>
      match pc, tk with
      | ULoop it _, ChunkTask c => 2 * Z.to_nat (local_chunk_end c - it) + 9
      | UCall it _, ChunkTask c => 2 * Z.to_nat (local_chunk_end c - it) + 8
      | UCount, _ => 8
      | UProgress _, _ => 7
      | SStart, IndexTask args => length args + 8
      | SCall rest, _ => length rest + 7
      | UCatch h, _ => handler_measure h
      | _, _ => 0
      end
  end.

Definition join_measure (handles : nat) : nat := 8 * handles + 3.

Definition caller_measure (st : state) : nat :=
  match caller st with
  | CLaunch l i cb =>
      (Z.to_nat (nthreads l) - i) * (2 * Z.to_nat (size l) + 10)
      + join_measure (length (futures st)) + 1
  | CGet j => join_measure (length (futures st) - j)
  | CCatch j h => join_measure (length (futures st) - S j) + handler_measure h + 1
  | CFinalLock => 2
  | CFinalTest => 1
  | CReturned | CRaised _ => 0
  end.

(** A bound on the steps a call has left. *)
Definition measure (st : state) : nat :=
  (caller_measure st + sum_list_with unit_measure (futures st))%nat.

Definition terminal (st : state) : Prop :=
  caller st = CReturned ∨ ∃ e, caller st = CRaised e.

Lemma handler_step_measure t h s s' h' :
  handler_step t h s = Some (s', h') →
  (from_option handler_measure 0 h' < handler_measure h)%nat.
Proof.
  destruct h; simpl; repeat case_match; intros [= <- <-]; simpl; lia.
Qed.

Lemma unit_step_measure k i tk pc s s' pc' :
  unit_step k i tk pc s = Some (s', pc') → typed tk pc →
  typed tk pc'
  ∧ (unit_measure (Launched tk pc') < unit_measure (Launched tk pc))%nat.
Proof.
  intros Hu Hty. destruct pc as [it idx|it idx| |v| |rest|h|].
  - destruct tk as [c|]; [|done]. simpl in Hu, Hty.
    destruct (Z.eqb_spec it (local_chunk_end c)); [|destruct (abort s)];
      injection Hu as <- <-; simpl; split; try done; lia.
  - destruct tk as [c|]; [|done]. simpl in Hu, Hty.
    destruct (f k _); injection Hu as <- <-; simpl; split; try done; lia.
  - destruct tk as [c|]; [|done]. simpl in Hu. injection Hu as <- <-.
    simpl. split; [done|lia].
  - destruct tk as [c|]; [|done]. simpl in Hu.
    destruct (progress k v); injection Hu as <- <-; simpl; split; try done; lia.
  - destruct tk as [|args]; [done|]. simpl in Hu.
    destruct (abort s); injection Hu as <- <-; simpl; split; try done; lia.
  - destruct tk as [|args]; [by destruct rest|]. simpl in Hu.
    destruct rest as [|a rest]; [|destruct (f k _)];
      injection Hu as <- <-; simpl; split; try done; lia.
  - apply unit_step_catch in Hu as (h' & Hh & ->).
    apply handler_step_measure in Hh. destruct h'; simpl in *; split; try lia.
    + by destruct tk.
    + by destruct tk.
  - by rewrite unit_step_done in Hu.
Qed.

Lemma sum_list_with_insert {A} (g : A → nat) (l : list A) i x y :
  l !! i = Some x →
  (sum_list_with g (<[i:=y]> l) + g x = sum_list_with g l + g y)%nat.
Proof.
  intros (l1 & l2 & -> & ->)%(insert_middle _ _ _ y).
  rewrite !sum_list_with_app. simpl. lia.
Qed.

Lemma measure_step k th st st' :
  thread_step k th st = Some st' →
  launch_inv st → launch_ok st → sched_inv st →
  (measure st' < measure st)%nat.
Proof.
  intros Hs Hl Hok [Hty Hla]. destruct th as [|i].
  - simpl in Hs. destruct st as [s fs c]. unfold caller_step in Hs. simpl in *.
    unfold measure, caller_measure. 
    destruct c as [l i cb|j|j h| | | |]; simpl in *.
    + destruct (Z.ltb_spec (Z.of_nat i) (nthreads l)); injection Hs as <-; simpl.
      * destruct Hla as [Hlen Hlau].
        specialize (Hok l i cb eq_refl H). unfold chunk_len, make_chunk in Hok.
        simpl in Hok.
        destruct (fs !! i) as [x|] eqn:Hi.
        2:{ apply lookup_ge_None in Hi. lia. }
        assert (Hx : x = NotLaunched).
        { destruct x as [|tk pc]; [done|]. by destruct (Hl l i cb i tk pc eq_refl (le_n _)). }
        subst x. rewrite length_insert.
        pose proof (sum_list_with_insert unit_measure fs i NotLaunched
          (Launched (ChunkTask (make_chunk (random_access l) (size l) (nthreads l)
                                  (chunk_sz l) i cb))
             (ULoop cb (wrap64 (Z.of_nat i *
                (next_chunk_end (random_access l) (size l) (nthreads l) (chunk_sz l) i cb
                 - cb))))) Hi) as Hsum.
        simpl in Hsum.
        replace (Z.to_nat (nthreads l) - i)%nat with (S (Z.to_nat (nthreads l) - S i)) by lia.
        simpl.
        set (P := ((Z.to_nat (nthreads l) - S i) * _)%nat). clearbody P. lia.
      * unfold join_measure. lia.
    + destruct (fs !! j) as [[|tk []]|] eqn:Hj; try done.
      * apply lookup_lt_Some in Hj.
        destruct (get k j); injection Hs as <-; simpl; unfold join_measure; lia.
      * injection Hs as <-. simpl. unfold join_measure. lia.
    + destruct (handler_step Caller h s) as [[s1 h1]|] eqn:Hh; [|done].
      apply handler_step_measure in Hh. injection Hs as <-.
      destruct h1; simpl in *; unfold join_measure; lia.
    + destruct (ex_mutex s); [done|]. injection Hs as <-. simpl. lia.
    + injection Hs as <-. simpl. destruct (ex_ptr s); simpl; lia.
    + done.
    + done.
  - apply unit_step_inv in Hs as (tk & pc & s' & pc' & Hi & Hu & ->).
    destruct (unit_step_measure _ _ _ _ _ _ _ Hu (Hty _ _ _ Hi)) as [_ Hm].
    pose proof (sum_list_with_insert unit_measure _ _ _ (Launched tk pc') Hi).
    unfold measure, caller_measure. cbn [futures caller]. rewrite length_insert. lia.
Qed.

Lemma sched_inv_step k st st' :
  step k st st' → launch_ok st → sched_inv st → sched_inv st'.
Proof.
  intros [[|i] Hs] Hok [Hty Hla].
  - simpl in Hs. destruct st as [s fs c]. unfold caller_step in Hs. simpl in *.
    destruct c as [l i cb|j|j h| | | |]; simpl in *.
    + destruct Hla as [Hlen Hlau].
      destruct (Z.ltb_spec (Z.of_nat i) (nthreads l)); injection Hs as <-.
      * specialize (Hok l i cb eq_refl H). unfold chunk_len, make_chunk in Hok.
        simpl in Hok.
        assert (Hil : (i < length fs)%nat) by lia.
        split; simpl.
        -- intros j tk pc. destruct (decide (i = j)) as [<-|Hne].
           ++ rewrite list_lookup_insert_eq by done. intros [= <- <-]. simpl. lia.
           ++ rewrite list_lookup_insert_ne by done. apply Hty.
        -- rewrite length_insert. split; [done|]. intros j Hj Hjl.
           destruct (decide (i = j)) as [<-|Hne].
           ++ rewrite list_lookup_insert_eq by done. eauto.
           ++ rewrite list_lookup_insert_ne by done. apply Hlau; lia.
      * split; simpl; [done|]. intros j Hj.
        assert (Hjl := lookup_lt_Some _ _ _ Hj).
        destruct (Hlau j) as (tk & pc & Hj'); [lia|done|].
        by rewrite Hj in Hj'.
    + destruct (fs !! j) as [[|tk []]|] eqn:Hj; try done.
      * destruct (get k j); injection Hs as <-; by split.
      * injection Hs as <-. by split.
    + destruct (handler_step Caller h s) as [[s1 h1]|] eqn:Hh; [|done].
      injection Hs as <-. destruct h1; by split.
    + destruct (ex_mutex s); [done|]. injection Hs as <-. by split.
    + injection Hs as <-. destruct (ex_ptr s); by split.
    + done.
    + done.
  - apply unit_step_inv in Hs as (tk & pc & s' & pc' & Hi & Hu & ->).
    assert (Hlt := lookup_lt_Some _ _ _ Hi).
    destruct (unit_step_measure _ _ _ _ _ _ _ Hu (Hty _ _ _ Hi)) as [Hty' _].
    assert (Hlk : ∀ j, <[i:=Launched tk pc']> (futures st) !! j
                       = if decide (i = j) then Some (Launched tk pc')
                         else futures st !! j).
    { intros j. destruct (decide (i = j)) as [<-|Hne].
      - by rewrite list_lookup_insert_eq.
      - by rewrite list_lookup_insert_ne. }
    split; cbn [futures caller].
    + intros j tk0 pc0. rewrite Hlk. case_decide; [|apply Hty].
      by intros [= <- <-].
    + destruct (caller st) as [l i0 cb|j0|j0 h| | | |]; rewrite ?length_insert.
      * destruct Hla as [Hlen Hlau]. split; [done|]. intros j Hj Hjl. rewrite Hlk.
        case_decide; eauto.
      * intros j. rewrite Hlk. case_decide; [done|apply Hla].
      * intros j. rewrite Hlk. case_decide; [done|apply Hla].
      * intros j. rewrite Hlk. case_decide; [done|apply Hla].
      * intros j. rewrite Hlk. case_decide; [done|apply Hla].
      * intros j. rewrite Hlk. case_decide; [done|apply Hla].
      * intros j. rewrite Hlk. case_decide; [done|apply Hla].
Qed.

(** No thread is stuck before the call has returned or raised. *)
Lemma progress_step k st :
  cell_inv k st → sched_inv st → ¬ terminal st →
  ∃ th st', thread_step k th st = Some st'.
Proof.
  intros Hc [Hty Hla] Hnt.
  assert (Hguard : ∀ th, guards (phase_of th st) = true →
            ∃ st', thread_step k th st = Some st').
  { intros [|i]; simpl.
    - destruct st as [s fs c]. unfold caller_step. simpl.
      destruct c as [| |j h| | | |]; try done.
      + destruct h; try done; simpl; intros _; repeat case_match; eauto.
      + eauto.
    - destruct (futures st !! i) as [[|tk pc]|] eqn:Hi; try done. simpl.
      destruct pc; try done. destruct h; try done; simpl; intros _;
        repeat case_match; eauto. }
  destruct (ex_mutex (sh st)) as [th|] eqn:Hm.
  { exists th. apply Hguard. by apply (cell_mutex _ _ Hc). }
  assert (Hunit : ∀ i tk pc, futures st !! i = Some (Launched tk pc) → pc ≠ UDone →
            ∃ st', thread_step k (Unit i) st = Some st').
  { intros i tk pc Hi Hnd. simpl. rewrite Hi.
    specialize (Hty _ _ _ Hi).
    destruct tk, pc; simpl in *; try done; repeat case_match; eauto.
    all: destruct h; simpl; rewrite ?Hm; repeat case_match; eauto. }
  destruct (caller st) as [l i cb|j|j h| | | |] eqn:Hcl.
  - exists Caller. simpl. unfold caller_step. rewrite Hcl. case_match; eauto.
  - destruct (futures st !! j) as [[|tk pc]|] eqn:Hj.
    + by destruct (Hla j).
    + assert (Hdec : pc = UDone ∨ pc ≠ UDone) by (destruct pc; (by left) || (by right)).
      destruct Hdec as [->|Hnd].
      * exists Caller. simpl. unfold caller_step. rewrite Hcl, Hj. case_match; eauto.
      * exists (Unit j). eauto.
    + exists Caller. simpl. unfold caller_step. rewrite Hcl, Hj. eauto.
  - exists Caller. simpl. unfold caller_step. rewrite Hcl.
    destruct h; simpl; rewrite ?Hm; repeat case_match; eauto.
  - exists Caller. simpl. unfold caller_step. rewrite Hcl, Hm. eauto.
  - exists Caller. simpl. unfold caller_step. rewrite Hcl. eauto.
  - destruct Hnt. by left.
  - destruct Hnt. right. eauto.
Qed.

(** What the scheduler of [exec] needs of a state. *)
Definition good (k : callbacks) (st : state) : Prop :=
  launch_inv st ∧ launch_ok st ∧ cell_inv k st ∧ sched_inv st.

Lemma next_thread_step k st st' : next_thread k st = Some st' → step k st st'.
Proof.
  unfold next_thread. destruct (list_find _ _) as [[? th]|]; [|done]. by exists th.
Qed.

Lemma next_thread_none k st th :
  next_thread k st = None → thread_step k th st = None.
Proof.
  unfold next_thread.
  destruct (list_find _ _) as [[n th']|] eqn:Hf.
  - apply list_find_Some in Hf as (_ & [st' Hs] & _). by rewrite Hs.
  - intros _. apply list_find_None in Hf. rewrite Forall_forall in Hf.
    destruct (thread_step k th st) as [st'|] eqn:Hs; [|done].
    destruct (Hf th); [|by rewrite Hs].
    rewrite elem_of_app, list_elem_of_singleton, list_elem_of_fmap.
    destruct th as [|i]; [by right|left].
    exists i. split; [done|]. apply elem_of_seq. split; [lia|]. simpl in Hs.
    destruct (futures st !! i) eqn:Hi; [|done]. apply lookup_lt_Some in Hi. lia.
Qed.

Lemma exec_reachable k fuel st : reachable k st (exec k fuel st).
Proof.
  revert st. induction fuel as [|fuel IH]; intros st; simpl; [apply rtc_refl|].
  destruct (next_thread k st) as [st'|] eqn:Hn; [|apply rtc_refl].
  eapply rtc_l; [by apply next_thread_step|apply IH].
Qed.

(** With fuel for [measure st] steps, [exec] runs the call to its end. *)
Lemma exec_terminal k fuel st :
  (∀ st', reachable k st st' → good k st') →
  (measure st ≤ fuel)%nat → terminal (exec k fuel st).
Proof.
  revert st. induction fuel as [|fuel IH]; intros st Hgood Hm.
  - simpl. destruct (Hgood st (rtc_refl _ _)) as (Hl & Hok & Hc & Hs).
    assert (Hdec : terminal st ∨ ¬ terminal st).
    { unfold terminal. destruct (caller st); eauto; right; by intros [?|[? ?]]. }
    destruct Hdec as [?|Hnt]; [done|].
    destruct (progress_step k st Hc Hs Hnt) as (th & st' & Hstep).
    pose proof (measure_step k th st st' Hstep Hl Hok Hs). lia.
  - simpl. destruct (Hgood st (rtc_refl _ _)) as (Hl & Hok & Hc & Hs).
    destruct (next_thread k st) as [st'|] eqn:Hn.
    + apply next_thread_step in Hn as Hstep. destruct Hstep as [th Hstep].
      pose proof (measure_step k th st st' Hstep Hl Hok Hs).
      apply IH; [|lia]. intros st'' Hr. apply Hgood.
      eapply rtc_l; [by exists th|done].
    + assert (Hdec : terminal st ∨ ¬ terminal st).
      { unfold terminal. destruct (caller st); eauto; right; by intros [?|[? ?]]. }
      destruct Hdec as [?|Hnt]; [done|].
      destruct (progress_step k st Hc Hs Hnt) as (th & st' & Hstep).
      by rewrite (next_thread_none k st th Hn) in Hstep.
Qed.

Lemma fresh_sched_inv st :
  fresh st →
  (∀ i tk pc, futures st !! i = Some (Launched tk pc) → typed tk pc) →
  (∀ l i cb, caller st = CLaunch l i cb →
             length (futures st) = Z.to_nat (nthreads l)) →
  (∀ j, caller st = CGet j → ∀ i, futures st !! i ≠ Some NotLaunched) →
  sched_inv st.
Proof.
  intros (_ & _ & Hc) Hty Hlen Hget. split; [done|].
  destruct (caller st) as [l i cb|j|j h| | | |] eqn:Hcl; try done.
  - destruct Hc as [-> _]. split; [eauto|]. intros j Hj. lia.
  - eauto.
  - rewrite Hc. by intros j.
Qed.

Lemma dyn_inv_launch_ok n t st : 1 ≤ t ≤ n → dyn_inv n t st → launch_ok st.
Proof.
  intros Ht Hd l i cb Hcl Hi.
  destruct (dyn_launch _ _ _ Hd _ _ _ Hcl) as (Hsz & Hnt & Hcz & Hit & Hcb).
  rewrite Hsz, Hnt, Hcz in *. rewrite Hcb by done.
  rewrite make_chunk_at by done. cbv zeta. unfold chunk_len.
  pose proof (chunk_at_bounds n t Ht i Hi). lia.
Qed.

(** Every state of a run of the dynamic form is one [exec] can go on from. *)
Lemma dynamic_good k ra size threads st0 st :
  1 ≤ size → 1 ≤ threads →
  async_for_each_init ra size threads = Some st0 →
  reachable k st0 st → good k st.
Proof.
  intros Hsize Hthreads Hinit Hr.
  assert (Hs0 : sched_inv st0).
  { apply fresh_sched_inv; [by eapply async_for_each_init_fresh|..];
      rewrite (async_for_each_init_dispatch _ _ _ _ Hsize Hthreads Hinit); simpl.
    - by intros i tk pc [? _]%lookup_replicate.
    - intros l i cb [= <- <- <-]. simpl. by rewrite length_replicate.
    - done. }
  assert (Hall : ∀ st, reachable k st0 st → dyn_inv size (Z.min threads size) st
                                            ∧ launch_inv st ∧ cell_inv k st).
  { intros st' Hr'.
    destruct (dynamic_reachable k ra size threads Hsize Hthreads st0 Hinit st' Hr')
      as (? & ? & ? & ?). done. }
  assert (Hs : sched_inv st).
  { clear Hinit. induction Hr as [st|st st1 st2 Hstep Hr IH]; [done|].
    apply IH.
    - eapply sched_inv_step; [done| |done].
      eapply dyn_inv_launch_ok; [|apply Hall, rtc_refl]. lia.
    - intros st' Hr'. apply Hall. by eapply rtc_l. }
  destruct (Hall st Hr) as (Hd & Hl & Hc).
  split_and!; try done. eapply dyn_inv_launch_ok; [|done]. lia.
Qed.

(** ** Runs of the compile-time form *)

(** The launch loop belongs to the dynamic form only. *)
Definition no_launch (st : state) : Prop :=
  ∀ l i cb, caller st ≠ CLaunch l i cb.

Lemma no_launch_step k st st' : step k st st' → no_launch st → no_launch st'.
Proof.
  intros [[|i] Hs] Hn.
  - simpl in Hs. apply caller_step_frame in Hs
      as [(l & i & cb & Hcl & _)|(_ & _ & _ & _ & Hncl)]; [|done].
    by destruct (Hn l i cb).
  - apply unit_step_inv in Hs as (tk & pc & s' & pc' & Hi & Hu & ->). done.
Qed.

Lemma no_launch_ok st : no_launch st → launch_ok st.
Proof. intros Hn l i cb Hcl. by destruct (Hn l i cb). Qed.

Lemma no_launch_inv st : no_launch st → launch_inv st.
Proof. intros Hn l i cb j tk pc Hcl. by destruct (Hn l i cb). Qed.

(** The units of the compile-time form, as [std::make_tuple] leaves them. *)
Lemma async_for_each_index_init_units Tbits N0 Nn Ns threads st0 :
  async_for_each_index_init Tbits N0 Nn Ns threads = Some st0 →
  sh st0 = shared_init ∧ caller st0 = CGet 0
  ∧ length (futures st0) = Z.to_nat threads
  ∧ ∀ i fut, futures st0 !! i = Some fut →
      ∃ args, unit_indices Tbits N0 Nn Ns (Z.of_nat i) threads = Some args
              ∧ fut = Launched (IndexTask args) SStart.
Proof.
  unfold async_for_each_index_init. intros Hi.
  destruct (mapM _ _) as [units|] eqn:Hm; simplify_eq/=.
  rewrite mapM_Some in Hm. split_and!; try done.
  - apply Forall2_length in Hm. by rewrite <- Hm, length_seqZ.
  - intros i fut Hf.
    destruct (Forall2_lookup_r _ _ _ _ _ Hm Hf) as (Ci & HCi & Hu).
    apply lookup_seqZ in HCi as [-> _]. rewrite Z.add_0_l in Hu.
    destruct (unit_indices Tbits N0 Nn Ns (Z.of_nat i) threads) as [args|];
      simplify_eq/=. eauto.
Qed.

Lemma static_good k Tbits N0 Nn Ns threads st0 st :
  async_for_each_index_init Tbits N0 Nn Ns threads = Some st0 →
  reachable k st0 st → good k st.
Proof.
  intros Hinit Hr.
  destruct (async_for_each_index_init_units _ _ _ _ _ _ Hinit) as (Hsh & Hc & Hlen & Hu).
  assert (Hf : fresh st0) by (by eapply async_for_each_index_init_fresh).
  assert (Hinv : no_launch st0 ∧ cell_inv k st0 ∧ sched_inv st0).
  { split_and!.
    - intros l i cb. by rewrite Hc.
    - by apply fresh_cell_inv.
    - apply fresh_sched_inv; try done.
      + intros i tk pc (args & _ & [= -> ->])%Hu. done.
      + intros l i cb. by rewrite Hc.
      + intros j _ i (args & _ & ?)%Hu. done. }
  clear Hinit Hf Hsh Hc Hlen Hu.
  induction Hr as [st|st st1 st2 Hs _ IH].
  - destruct Hinv as (Hn & Hce & Hs). split_and!; auto using no_launch_ok, no_launch_inv.
  - destruct Hinv as (Hn & Hce & Hsc). apply IH. split_and!.
    + by eapply no_launch_step.
    + eapply cell_inv_preserved; eauto using no_launch_inv.
    + eapply sched_inv_step; eauto using no_launch_ok.
Qed.

(** Units with nothing to call on: empty index sequences. *)
Record idle_inv (st : state) : Prop := IdleInv {
  idle_no_launch : no_launch st;
  idle_units : ∀ i tk pc, futures st !! i = Some (Launched tk pc) →
    tk = IndexTask [] ∧ (pc = SStart ∨ pc = SCall [] ∨ pc = UDone);
  idle_calls : calls (sh st) = [];
  idle_sink : sink (sh st) = [];
}.

Lemma idle_inv_step k st st' : step k st st' → idle_inv st → idle_inv st'.
Proof.
  intros Hstep [Hn Hu Hc Hs].
  assert (Hn' := no_launch_step k st st' Hstep Hn).
  destruct Hstep as [[|i] Hstep].
  - simpl in Hstep. apply caller_step_frame in Hstep
      as [(l & i & cb & Hcl & _)|(Hfs & Hcs & Hss & _ & _)].
    + by destruct (Hn l i cb).
    + split; rewrite ?Hfs, ?Hcs, ?Hss; done.
  - apply unit_step_inv in Hstep as (tk & pc & s' & pc' & Hi & Hst & ->).
    assert (Hlt := lookup_lt_Some _ _ _ Hi).
    destruct (Hu _ _ _ Hi) as [-> Hpc].
    assert (Heff : s' = sh st ∧ (pc' = SCall [] ∨ pc' = UDone)).
    { destruct Hpc as [->|[->| ->]]; simpl in Hst.
      - destruct (abort (sh st)); injection Hst as <- <-; auto.
      - injection Hst as <- <-; auto.
      - done. }
    destruct Heff as [-> Hpc'].
    split; cbn [futures sh]; try done.
    intros j tk pc0. destruct (decide (i = j)) as [<-|Hne].
    + rewrite list_lookup_insert_eq by done. intros [= <- <-]. tauto.
    + rewrite list_lookup_insert_ne by done. apply Hu.
Qed.

Lemma idle_inv_reachable k st0 st :
  reachable k st0 st → idle_inv st0 → idle_inv st.
Proof.
  induction 1 as [st|st st1 st2 Hs _ IH]; [done|].
  intros Hi. apply IH. by eapply idle_inv_step.
Qed.

(** ** Calls of either form *)

(** [st0] is the state in which a call of one of the two forms starts. *)
Definition call_start (st0 : state) : Prop :=
  (∃ ra size threads, 0 ≤ size ∧ 0 ≤ threads
     ∧ async_for_each_init ra size threads = Some st0)
  ∨ (∃ Tbits N0 Nn Ns threads,
       async_for_each_index_init Tbits N0 Nn Ns threads = Some st0).

Lemma returned_stuck k st st' :
  caller st = CReturned → futures st = [] → reachable k st st' → st' = st.
Proof.
  intros Hc Hf Hr. destruct Hr as [|st st1 st2 [[|i] Hs] _]; [done|exfalso..].
  - simpl in Hs. unfold caller_step in Hs. by rewrite Hc in Hs.
  - apply unit_step_inv in Hs as (tk & pc & s' & pc' & Hi & _). by rewrite Hf in Hi.
Qed.

Lemma call_start_fresh st0 : call_start st0 → fresh st0.
Proof.
  intros [(ra & size & threads & _ & _ & Hi)|(Tbits & N0 & Nn & Ns & threads & Hi)].
  - by eapply async_for_each_init_fresh.
  - by eapply async_for_each_index_init_fresh.
Qed.

Lemma call_start_good k st0 st :
  call_start st0 → reachable k st0 st → good k st.
Proof.
  intros [(ra & size & threads & Hs & Ht & Hi)|(Tbits & N0 & Nn & Ns & threads & Hi)] Hr.
  - destruct (decide (size = 0)) as [->|Hne].
    + assert (Hf := async_for_each_init_fresh _ _ _ _ Hi).
      unfold async_for_each_init in Hi. simpl in Hi. injection Hi as <-.
      apply returned_stuck in Hr as ->; [|done..].
      split_and!; try done; first [by apply fresh_cell_inv|by apply fresh_sched_inv].
    + assert (1 ≤ threads).
      { destruct (decide (threads = 0)) as [->|]; [|lia].
        unfold async_for_each_init, async_for_each_entry in Hi.
        destruct (Z.eqb_spec size 0); [lia|].
        replace (Z.min 0 size) with 0 in Hi by lia. done. }
      eapply dynamic_good; [| |done..]; lia.
  - by eapply static_good.
Qed.

(** Every step uses up some of the measure, and a call that has not come to
    its end can step: all runs are finite and end in a terminal state. *)
Lemma call_start_complete k st0 st :
  call_start st0 → reachable k st0 st →
  (∀ st', step k st st' → (measure st' < measure st)%nat)
  ∧ (¬ terminal st → ∃ st', step k st st')
  ∧ terminal (exec k (measure st) st).
Proof.
  intros Hi Hr. destruct (call_start_good k st0 st Hi Hr) as (Hl & Hok & Hc & Hs).
  split_and!.
  - intros st' [th Hth]. by eapply measure_step.
  - intros Hnt. destruct (progress_step k st Hc Hs Hnt) as (th & st' & Hth).
    exists st'. by exists th.
  - apply exec_terminal; [|done]. intros st' Hr'.
    apply (call_start_good k st0); [done|]. unfold reachable in *. by etrans.
Qed.

(** The test of the cell after the join loop. *)
Lemma final_test_step k st st' :
  caller st = CFinalTest → thread_step k Caller st = Some st' →
  caller st' = from_option CRaised CReturned (ex_ptr (sh st)).
Proof.
  intros Hc Hs. simpl in Hs. unfold caller_step in Hs. rewrite Hc in Hs.
  destruct (ex_ptr (sh st)); by injection Hs as <-.
Qed.

Lemma terminal_joined st :
  join_inv st → terminal st →
  joined (sh st) = seq 0 (length (futures st))
  ∧ ∀ j, (j < length (futures st))%nat → unit_done st j.
Proof.
  intros Hj Ht.
  assert (Hc : joined_count st = length (futures st)).
  { unfold joined_count. by destruct Ht as [->|[e ->]]. }
  split.
  - by rewrite (join_log _ Hj), Hc.
  - intros j Hlt. apply (join_done _ Hj). rewrite (join_log _ Hj), Hc.
    apply elem_of_seq. lia.
Qed.

(** ** Failure aggregation *)

(** A call on ten elements with three workers in which the callable throws
    in two units and the last [get] fails.  Unit 0 is first at the store;
    unit 1 has passed the test of [abort] by then and waits for the mutex. *)
Definition two_throws : callbacks :=
  Callbacks (λ c, match c with
                  | ElementCall 1 _ _ => Some 7%nat
                  | ElementCall 4 _ _ => Some 8%nat
                  | _ => None
                  end)
            (λ _, None)
            (λ j, if (j =? 2)%nat then Some 9%nat else None).

Definition race_schedule : list owner :=
  replicate 3 Caller ++ replicate 4 (Unit 1) ++ replicate 3 (Unit 0)
  ++ replicate 11 (Unit 2) ++ replicate 4 (Unit 0) ++ [Unit 1]
  ++ replicate 3 (Unit 0) ++ replicate 3 (Unit 1) ++ replicate 8 Caller.

(** C4: in every state [st] of every run of a call of either form, the cell
    has been written at most once and what it holds stays; what it holds was
    thrown by the callable, the sink or a [get]; a call that has come to its
    end has called [get] on every handle, in launch order, each unit having
    finished; it raises exactly what the cell holds, and returns normally
    exactly when the cell is empty, which is when nothing was thrown at all;
    and every run comes to such an end. *)
Theorem C4_failure_aggregation (k : callbacks) (st0 st : state)
    (schedule : list owner) :
  call_start st0 →
  run k schedule st0 = Some st →
  stored (sh st) = option_list (ex_ptr (sh st))
  ∧ (length (stored (sh st)) ≤ 1)%nat
  ∧ (∀ e st', reachable k st st' → ex_ptr (sh st) = Some e →
              ex_ptr (sh st') = Some e ∧ stored (sh st') = [e])
  ∧ (∀ e, ex_ptr (sh st) = Some e → thrown k (sh st) e)
  ∧ (terminal st →
       joined (sh st) = seq 0 (length (futures st))
       ∧ (∀ j, (j < length (futures st))%nat → unit_done st j)
       ∧ caller st = from_option CRaised CReturned (ex_ptr (sh st))
       ∧ (ex_ptr (sh st) = None ↔ ∀ e, ¬ thrown k (sh st) e))
  ∧ (caller st = CFinalTest → ∀ st', step k st st' →
       caller st' = from_option CRaised CReturned (ex_ptr (sh st))
       ∧ ex_ptr (sh st') = ex_ptr (sh st))
  ∧ (∀ st', step k st st' → (measure st' < measure st)%nat)
  ∧ (¬ terminal st → ∃ st', step k st st')
  ∧ terminal (exec k (measure st) st).
Proof.
  intros Hi Hrun. apply run_reachable in Hrun as Hr.
  assert (Hf := call_start_fresh _ Hi).
  destruct (fresh_reachable k st0 st Hf Hr) as (Hl & Hc & Hj).
  destruct (call_start_complete k st0 st Hi Hr) as (Hm & Hp & Ht).
  assert (Hw := cell_writes _ _ Hc).
  split_and!; try done.
  - rewrite Hw. destruct (ex_ptr (sh st)); simpl; lia.
  - intros e st' Hr' He.
    assert (He' : ex_ptr (sh st') = Some e) by (by eapply ex_ptr_reachable).
    split; [done|].
    assert (Hr'' : reachable k st0 st') by (unfold reachable in *; by etrans).
    destruct (fresh_reachable k st0 st' Hf Hr'') as (_ & Hc' & _).
    by rewrite (cell_writes _ _ Hc'), He'.
  - apply (cell_origin_ptr _ _ Hc).
  - intros Hter. destruct (terminal_joined st Hj Hter) as [Hlog Hdone].
    assert (Hres := join_result _ Hj).
    split_and!; try done.
    + destruct Hter as [Hcl|[e Hcl]]; rewrite Hcl in *; by rewrite Hres.
    + split.
      * intros Hnone e He. destruct (cell_failed _ _ Hc) as [Hne|(t & h & Hph)]; eauto.
        assert (Hcl : caller st = CReturned).
        { destruct Hter as [Hcl|[e' Hcl]]; [done|]. rewrite Hcl in Hres. congruence. }
        apply (returned_not_failed st Hj Hcl). right. eauto.
      * intros Hnt. destruct (ex_ptr (sh st)) as [e|] eqn:He; [|done].
        destruct (Hnt e). by apply (cell_origin_ptr _ _ Hc).
  - intros Hcl st' [th Hth].
    assert (th = Caller) as ->.
    { destruct th as [|i]; [done|exfalso].
      apply unit_step_inv in Hth as (tk & pc & s' & pc' & Hfi & Hu & ->).
      destruct (joined_all_done st i Hj) as [tk' Hd].
      { unfold joined_count. by rewrite Hcl. }
      { by eapply lookup_lt_Some. }
      rewrite Hd in Hfi. injection Hfi as <- <-.
      by rewrite unit_step_done in Hu. }
    split; [by eapply final_test_step|].
    simpl in Hth. unfold caller_step in Hth. rewrite Hcl in Hth.
    destruct (ex_ptr (sh st)) eqn:He; injection Hth as <-; simpl; done.
Qed.

Lemma C4_failure_aggregation_witness :
  ∃ st0 st,
    async_for_each_init true 10 3 = Some st0
    ∧ run two_throws race_schedule st0 = Some st
    ∧ caller st = CRaised 7%nat
    ∧ stored (sh st) = [7%nat]
    ∧ joined (sh st) = [0; 1; 2]%nat
    ∧ thrown two_throws (sh st) 7%nat.
Proof.
  eexists _, _. split; [reflexivity|]. split; [vm_compute; reflexivity|].
  match goal with
  | |- caller ?st = _ ∧ _ =>
      destruct (C4_failure_aggregation two_throws
                  (State shared_init (replicate 3 NotLaunched)
                     (CLaunch (Locals true 10 3 3) 0 0))
                  st race_schedule)
        as (Hw & _ & _ & Ho & Ht & _)
  end.
  - left. exists true, 10, 3. split; [lia|]. split; [lia|]. reflexivity.
  - vm_compute. reflexivity.
  - destruct Ht as (Hj & _ & Hc & _); [right; by exists 7%nat|].
    split; [exact Hc|]. split; [exact Hw|]. split; [exact Hj|].
    apply Ho. reflexivity.
Defined.

(** ** Empty ranges *)

Lemma wrapT_bounds Tbits x : 0 ≤ Tbits ≤ 64 → 0 ≤ wrapT Tbits x < 2 ^ 64.
Proof.
  intros Hb. unfold wrapT.
  assert (0 < 2 ^ Tbits) by (apply Z.pow_pos_nonneg; lia).
  assert (2 ^ Tbits ≤ 2 ^ 64) by (apply Z.pow_le_mono_r; lia).
  pose proof (Z.mod_pos_bound x (2 ^ Tbits)). lia.
Qed.

Lemma wrapT_idemp Tbits x : wrapT Tbits (wrapT Tbits x) = wrapT Tbits x.
Proof.
  unfold wrapT. destruct (decide (2 ^ Tbits = 0)) as [->|].
  - by rewrite !Z.mod_0_r.
  - by rewrite Z.mod_mod.
Qed.

(** With [N0 == Nn] every unit gets the empty sequence. *)
Lemma unit_indices_empty Tbits N0 Ns Ci Cn :
  0 ≤ Tbits ≤ 64 → 1 ≤ Ns < 2 ^ 64 → 1 ≤ Cn < 2 ^ 64 →
  unit_indices Tbits N0 N0 Ns Ci Cn = Some [].
Proof.
  intros Hb HNs HCn.
  assert (Hpos : 0 < 2 ^ Tbits) by (apply Z.pow_pos_nonneg; lia).
  assert (Htot : wrap64 (N0 - N0 + Ns - 1) / Ns = 0).
  { unfold wrap64. replace (N0 - N0 + Ns - 1) with (Ns - 1) by lia.
    rewrite Z.mod_small by lia. apply Z.div_small. lia. }
  assert (Hcs : wrap64 (0 + Cn - 1) / Cn = 0).
  { unfold wrap64. rewrite Z.mod_small by lia. apply Z.div_small. lia. }
  assert (H0 : wrapT Tbits 0 = 0) by apply Zmod_0_l.
  set (s := wrapT Tbits (wrap64 N0)).
  assert (Hs : wrapT Tbits (wrap64 s) = s).
  { unfold wrap64. rewrite Z.mod_small by (apply wrapT_bounds; lia).
    apply wrapT_idemp. }
  assert (Hn : wrap64 (s - s + Ns - 1) / Ns = 0).
  { replace (s - s + Ns - 1) with (Ns - 1) by lia.
    unfold wrap64. rewrite Z.mod_small by lia. apply Z.div_small. lia. }
  assert (Hc : chunk_of_sequence Tbits N0 N0 Ns Ci Cn
               = Some (ChunkOfSequence 0 0 0 0 s s)).
  { unfold chunk_of_sequence.
    destruct (Z.eqb_spec Ns 0); [lia|]. destruct (Z.eqb_spec Cn 0); [lia|].
    cbn [orb]. cbv zeta.
    rewrite Htot, Hcs, H0. rewrite Z.mul_0_r. change (wrap64 0) with 0.
    rewrite H0. change (0 + 0) with 0. rewrite H0. change (0 >? 0) with false.
    cbv iota. rewrite !Z.mul_0_l, !Z.add_0_r. fold s. rewrite Hs, Hn.
    destruct (Z.ltb_spec 0 (2 ^ Tbits)); [|lia]. done. }
  unfold unit_indices. rewrite Hc. cbn [mbind option_bind]. f_equal.
  unfold type, make_stepped_sequence, for_each_index. cbn [chunk_start chunk_end].
  by rewrite Hn, H0.
Qed.

Lemma async_for_each_index_init_empty Tbits N0 Ns threads :
  0 ≤ Tbits ≤ 64 → 1 ≤ Ns < 2 ^ 64 → 0 ≤ threads < 2 ^ 64 →
  ∃ st0, async_for_each_index_init Tbits N0 N0 Ns threads = Some st0
         ∧ idle_inv st0.
Proof.
  intros Hb HNs Ht.
  assert (Hsome : is_Some (async_for_each_index_init Tbits N0 N0 Ns threads)).
  { unfold async_for_each_index_init.
    destruct (mapM _ _) as [units|] eqn:Hm; [by eexists|exfalso].
    assert (Hno : ¬ is_Some (@None (list future))) by (by intros [? ?]).
    apply Hno. rewrite <- Hm. apply mapM_is_Some, Forall_forall.
    intros Ci HCi%elem_of_seqZ. cbn.
    rewrite unit_indices_empty by lia. by eexists. }
  destruct Hsome as [st0 Hinit]. exists st0. split; [done|].
  destruct (async_for_each_index_init_units _ _ _ _ _ _ Hinit) as (Hsh & Hc & Hlen & Hu).
  split.
  - intros l i cb. by rewrite Hc.
  - intros i tk pc Hi. assert (Hlt := lookup_lt_Some _ _ _ Hi).
    destruct (Hu _ _ Hi) as (args & Ha & [= -> ->]).
    rewrite unit_indices_empty in Ha by lia. injection Ha as <-. auto.
  - by rewrite Hsh.
  - by rewrite Hsh.
Qed.

(** With nothing logged by the callable or the sink, only [get] throws. *)
Lemma idle_raised k st0 st e :
  fresh st0 → idle_inv st0 → reachable k st0 st →
  caller st = CRaised e → ∃ j, j ∈ joined (sh st) ∧ get k j = Some e.
Proof.
  intros Hf Hi Hr Hc.
  destruct (fresh_reachable k st0 st Hf Hr) as (_ & Hce & Hj).
  assert (Hres := join_result _ Hj). rewrite Hc in Hres.
  destruct (idle_inv_reachable k st0 st Hr Hi) as [_ _ Hcalls Hsink].
  destruct (cell_origin_ptr _ _ Hce e Hres) as [(c & Hin & _)|[(iv & Hin & _)|?]]; [..|done].
  - rewrite Hcalls in Hin. by apply elem_of_nil in Hin.
  - rewrite Hsink in Hin. by apply elem_of_nil in Hin.
Qed.

(** C9: with [begin == end] the dynamic form returns at once, whatever the
    thread count: no chunk, no unit launched, no invocation, nothing raised,
    and no step left to take.  With [N0 == Nn] every unit of the
    compile-time form gets the empty sequence: in no state of any run has
    the callable or the sink been invoked, every run comes to its end, and
    the call raises only what a [get] itself threw, so it returns normally
    when no [get] fails. *)
Theorem C9_empty_range_is_noop (k : callbacks) (ra : bool)
    (threads Tbits N0 Ns cthreads : Z) :
  0 ≤ Tbits ≤ 64 → 1 ≤ Ns < 2 ^ 64 → 0 ≤ cthreads < 2 ^ 64 →
  (async_for_each_entry 0 threads = ReturnImmediately
   ∧ chunks_of ra 0 threads = Some []
   ∧ ∃ st0, async_for_each_init ra 0 threads = Some st0
       ∧ caller st0 = CReturned ∧ futures st0 = [] ∧ sh st0 = shared_init
       ∧ ∀ st, reachable k st0 st → st = st0)
  ∧ (∃ st0, async_for_each_index_init Tbits N0 N0 Ns cthreads = Some st0
       ∧ (∀ st, reachable k st0 st →
            calls (sh st) = [] ∧ sink (sh st) = []
            ∧ (∀ e, caller st = CRaised e →
                    ∃ j, j ∈ joined (sh st) ∧ get k j = Some e)
            ∧ (∀ st', step k st st' → (measure st' < measure st)%nat)
            ∧ (¬ terminal st → ∃ st', step k st st'))
       ∧ terminal (exec k (measure st0) st0)
       ∧ ((∀ j, get k j = None) →
          caller (exec k (measure st0) st0) = CReturned)).
Proof.
  intros Hb HNs Ht. split.
  - split; [done|]. split; [done|]. eexists. split; [reflexivity|].
    split_and!; try done. intros st Hr. by eapply returned_stuck.
  - destruct (async_for_each_index_init_empty Tbits N0 Ns cthreads Hb HNs Ht)
      as (st0 & Hinit & Hidle).
    assert (Hstart : call_start st0) by (right; eauto 10).
    assert (Hf := call_start_fresh _ Hstart).
    exists st0. split; [done|]. split_and!.
    + intros st Hr.
      destruct (idle_inv_reachable k st0 st Hr Hidle) as [_ _ Hcalls Hsink].
      destruct (call_start_complete k st0 st Hstart Hr) as (Hm & Hp & _).
      split_and!; try done. intros e. by apply (idle_raised k st0).
    + apply (call_start_complete k st0 st0 Hstart). apply rtc_refl.
    + intros Hget.
      destruct (call_start_complete k st0 st0 Hstart (rtc_refl _ _))
        as (_ & _ & [Hret|[e Hra]]); [done|].
      destruct (idle_raised k st0 _ e Hf Hidle (exec_reachable k _ st0) Hra)
        as (j & _ & Hj).
      by rewrite Hget in Hj.
Qed.

Lemma C9_empty_range_is_noop_witness :
  (0 ≤ 64 ≤ 64 ∧ 1 ≤ 1 < 2 ^ 64 ∧ 0 ≤ 3 < 2 ^ 64)
  ∧ async_for_each_init true 0 4 = Some (State shared_init [] CReturned)
  ∧ ∃ st0, async_for_each_index_init 64 5 5 1 3 = Some st0
      ∧ length (futures st0) = 3%nat
      ∧ calls (sh (exec no_throw (measure st0) st0)) = []
      ∧ caller (exec no_throw (measure st0) st0) = CReturned.
Proof.
  split; [lia|].
  destruct (C9_empty_range_is_noop no_throw true 4 64 5 1 3)
    as ((_ & _ & s0 & Hs0 & _) & st0 & Hinit & Hall & _ & Hret); [lia..|].
  split; [reflexivity|].
  exists st0. split; [exact Hinit|]. split.
  - vm_compute in Hinit. injection Hinit as <-. reflexivity.
  - split; [|by apply Hret].
    apply (Hall (exec no_throw (measure st0) st0)), exec_reachable.
Defined.

(** ** Dynamic partitioning and invocation *)

(** Nothing throws: neither the callable, nor the sink, nor a [get]. *)
Definition quiet (k : callbacks) : Prop :=
  (∀ c, f k c = None) ∧ (∀ v, progress k v = None) ∧ (∀ j, get k j = None).

Lemma quiet_not_thrown k s e : quiet k → ¬ thrown k s e.
Proof.
  intros (Hf & Hp & Hg) [(c & _ & Hc)|[(iv & _ & Hv)|(j & _ & Hj)]].
  - by rewrite Hf in Hc.
  - by rewrite Hp in Hv.
  - by rewrite Hg in Hj.
Qed.

(** A call in which nothing throws returns normally. *)
Lemma quiet_returns k st0 :
  call_start st0 → quiet k → caller (exec k (measure st0) st0) = CReturned.
Proof.
  intros Hi Hq.
  destruct (call_start_complete k st0 st0 Hi (rtc_refl _ _))
    as (_ & _ & [Hret|[e Hra]]); [done|exfalso].
  destruct (fresh_reachable k st0 _ (call_start_fresh _ Hi)
              (exec_reachable k (measure st0) st0)) as (_ & Hc & Hj).
  assert (Hres := join_result _ Hj). rewrite Hra in Hres.
  eapply quiet_not_thrown; [done|]. by apply (cell_origin_ptr _ _ Hc).
Qed.

Lemma async_for_each_init_dispatch_some ra size threads :
  1 ≤ size → 1 ≤ threads → is_Some (async_for_each_init ra size threads).
Proof.
  intros Hs Ht. unfold async_for_each_init, async_for_each_entry.
  destruct (Z.eqb_spec size 0); [lia|].
  destruct (Z.eqb_spec (Z.min threads size) 0); [lia|]. by eexists.
Qed.

(** C1 (the claim as stated fails): a thread count of zero on a non-empty
    range yields no chunks at all, the call divides by zero; and when the
    callable throws, elements are left out: here elements 2 and 5 of ten. *)
Lemma C1_zero_threads_or_throw :
  async_for_each_entry 3 0 = DivisionByZero
  ∧ chunks_of true 3 0 = None
  ∧ async_for_each_init true 3 0 = None
  ∧ ∃ st0 st,
      async_for_each_init true 10 3 = Some st0
      ∧ run two_throws race_schedule st0 = Some st
      ∧ caller st = CRaised 7%nat
      ∧ call_arg <$> calls (sh st) = [3; 4; 0; 6; 7; 8; 9; 1].
Proof.
  split; [done|]. split; [done|]. split; [done|].
  eexists _, _. split; [reflexivity|]. split; [vm_compute; reflexivity|].
  split; reflexivity.
Qed.

(** C1 (amended): for a non-empty range and a thread count of at least one
    the worker count is [t = min(threads, size)] and the launch loop makes
    exactly [t] chunks; chunk [i] begins at [i * (size / t)], where its
    predecessor ends; every chunk but the last has exactly [size / t]
    elements, the last ends at [size]; every position of the range lies in
    exactly one chunk.  No element is ever passed to the callable twice;
    every run comes to its end, and on a call that returns normally, as
    every call does in which nothing throws, the callable has been applied
    to every element exactly once. *)
Theorem C1_dynamic_partition (k : callbacks) (ra : bool) (size threads : Z) :
  1 ≤ size → 1 ≤ threads →
  async_for_each_entry size threads
  = Dispatch (Z.min threads size) (size / Z.min threads size)
  ∧ (∃ cs, chunks_of ra size threads = Some cs
      ∧ length cs = Z.to_nat (Z.min threads size)
      ∧ (∀ i c, cs !! i = Some c →
           local_chunk_begin c = Z.of_nat i * (size / Z.min threads size)
           ∧ local_chunk_begin c < local_chunk_end c ≤ size
           ∧ (Z.of_nat i ≠ Z.min threads size - 1 →
              chunk_len c = size / Z.min threads size)
           ∧ (Z.of_nat i = Z.min threads size - 1 → local_chunk_end c = size)
           ∧ (∀ c', cs !! S i = Some c' →
                    local_chunk_begin c' = local_chunk_end c))
      ∧ (∀ p, 0 ≤ p < size →
           ∃ i c, cs !! i = Some c
                  ∧ local_chunk_begin c ≤ p < local_chunk_end c
                  ∧ ∀ j c', cs !! j = Some c' →
                            local_chunk_begin c' ≤ p < local_chunk_end c' → j = i)
      ∧ concat (chunk_positions <$> cs) = seqZ 0 size)
  ∧ (∃ st0, async_for_each_init ra size threads = Some st0
      ∧ (∀ st, reachable k st0 st →
           NoDup (call_arg <$> calls (sh st))
           ∧ (∀ p, p ∈ call_arg <$> calls (sh st) → 0 ≤ p < size)
           ∧ (caller st = CReturned →
              call_arg <$> calls (sh st) ≡ₚ seqZ 0 size)
           ∧ (∀ st', step k st st' → (measure st' < measure st)%nat)
           ∧ (¬ terminal st → ∃ st', step k st st'))
      ∧ terminal (exec k (measure st0) st0)
      ∧ (quiet k → caller (exec k (measure st0) st0) = CReturned)).
Proof.
  intros Hsize Hthreads. set (t := Z.min threads size).
  assert (Ht : 1 ≤ t ≤ size) by lia.
  split; [|split].
  - unfold async_for_each_entry. fold t.
    destruct (Z.eqb_spec size 0); [lia|]. destruct (Z.eqb_spec t 0); [lia|]. done.
  - exists (chunk_at size t <$> seq 0 (Z.to_nat t)).
    assert (Hlook : ∀ i c, (chunk_at size t <$> seq 0 (Z.to_nat t)) !! i = Some c →
                           c = chunk_at size t i ∧ Z.of_nat i < t).
    { intros i c Hi. rewrite list_lookup_fmap in Hi.
      destruct (seq 0 (Z.to_nat t) !! i) as [i'|] eqn:Hs; [|done].
      apply lookup_seq in Hs as [-> ?]. injection Hi as <-. split; [done|lia]. }
    assert (Hat : ∀ i, Z.of_nat i < t →
                       (chunk_at size t <$> seq 0 (Z.to_nat t)) !! i
                       = Some (chunk_at size t i)).
    { intros i Hi. rewrite list_lookup_fmap, lookup_seq_lt by lia. done. }
    split_and!.
    + by apply chunks_of_closed_form.
    + by rewrite length_fmap, length_seq.
    + intros i c [-> Hi]%Hlook.
      pose proof (chunk_at_bounds size t Ht i Hi) as (Hb0 & Hb1 & Hb2).
      pose proof (chunk_at_end size t i) as He.
      rewrite chunk_at_begin in *. unfold chunk_len. rewrite chunk_at_begin.
      split_and!; try lia.
      * intros Hne. rewrite He. destruct (Z.eqb_spec (Z.of_nat i) (t - 1)); lia.
      * intros Heq. rewrite He. destruct (Z.eqb_spec (Z.of_nat i) (t - 1)); lia.
      * intros c' [-> Hi']%Hlook. rewrite chunk_at_begin, He.
        destruct (Z.eqb_spec (Z.of_nat i) (t - 1)); lia.
    + intros p Hp. destruct (chunk_at_cover size t Ht p Hp) as (i & Hi & Hin).
      exists i, (chunk_at size t i). split; [by apply Hat|]. split; [done|].
      intros j c' [-> Hj]%Hlook Hin'. by eapply (chunk_at_disjoint size t Ht j i p).
    + rewrite (chunk_positions_concat size t Ht 0 (Z.to_nat t)) by lia.
      destruct (Z.to_nat t) as [|n] eqn:Hn; [lia|].
      rewrite chunk_at_end. destruct (Z.eqb_spec (Z.of_nat (0 + S n - 1)) (t - 1)); [|lia].
      f_equal; lia.
  - assert (Hinit := async_for_each_init_dispatch_some ra size threads Hsize Hthreads).
    destruct Hinit as [st0 Hinit]. exists st0. split; [done|].
    assert (Hstart : call_start st0) by (left; exists ra, size, threads; split_and!; [lia..|done]).
    split_and!.
    + intros st Hr.
      destruct (dynamic_reachable k ra size threads Hsize Hthreads st0 Hinit st Hr)
        as (Hl & Hce & Hj & Hd).
      destruct (call_start_complete k st0 st Hstart Hr) as (Hm & Hp & _).
      split_and!; try done.
      * apply (dyn_nodup _ _ _ Hd).
      * intros p (c & -> & Hc)%list_elem_of_fmap.
        destruct (reachable_call_idx k ra size threads Hsize Hthreads st0 Hinit st c Hr Hc)
          as (p' & i & -> & Hi & Hin). cbn [call_arg].
        pose proof (chunk_at_bounds size t Ht i Hi). fold t in Hin. lia.
      * by apply (returned_calls k ra size threads Hsize Hthreads st0 Hinit).
    + apply (call_start_complete k st0 st0 Hstart), rtc_refl.
    + by apply quiet_returns.
Qed.

Lemma C1_dynamic_partition_witness :
  (1 ≤ 10 ∧ 1 ≤ 3)
  ∧ async_for_each_entry 10 3 = Dispatch 3 3
  ∧ ∃ st0, async_for_each_init false 10 3 = Some st0
      ∧ caller (exec no_throw (measure st0) st0) = CReturned
      ∧ call_arg <$> calls (sh (exec no_throw (measure st0) st0)) ≡ₚ seqZ 0 10.
Proof.
  split; [lia|].
  destruct (C1_dynamic_partition no_throw false 10 3)
    as (He & _ & st0 & Hinit & Hall & _ & Hq); [lia..|].
  split; [exact He|].
  exists st0. split; [exact Hinit|].
  assert (Hret : caller (exec no_throw (measure st0) st0) = CReturned)
    by (apply Hq; by split_and!).
  split; [exact Hret|].
  by apply (Hall (exec no_throw (measure st0) st0) (exec_reachable _ _ _)).
Defined.

(** ** Cancellation and the progress sink *)

(** Unit 0 throws at its second element and sets the flag while unit 1 is
    in its chunk and before unit 2 has begun. *)
Definition cancel_schedule : list owner :=
  replicate 3 Caller ++ replicate 2 (Unit 1) ++ replicate 10 (Unit 0)
  ++ replicate 3 (Unit 2) ++ replicate 3 (Unit 1) ++ replicate 8 Caller.

Lemma done_no_pending (fs : list future) :
  (∀ j fut, fs !! j = Some fut → ∃ tk, fut = Launched tk UDone) →
  omap pending fs = [].
Proof.
  induction fs as [|fut fs IH]; intros Hd; [done|].
  destruct (Hd 0%nat fut eq_refl) as [tk ->]. cbn.
  apply IH. intros j fut' Hj. by apply (Hd (S j)).
Qed.

(** C5 (the claim as stated fails): units 1 and 2 leave their loops on the
    flag, unit 2 before its first element, and both go on to increment the
    counter and call the sink, with 2 and 1. *)
Lemma C5_cancelled_unit_reports_progress :
  ∃ st0 st1 st,
    async_for_each_init true 10 3 = Some st0
    ∧ run two_throws (take 15 cancel_schedule) st0 = Some st1
    ∧ abort (sh st1) = true
    ∧ completed (sh st1) = 0
    ∧ futures st1 !! 2%nat = Some (Launched (ChunkTask (Chunk 6 10 8)) (ULoop 6 8))
    ∧ run two_throws (drop 15 cancel_schedule) st1 = Some st
    ∧ caller st = CRaised 7%nat
    ∧ call_arg <$> calls (sh st) = [3; 0; 1]
    ∧ completed (sh st) = 2
    ∧ sink (sh st) = [(2%nat, 1); (1%nat, 2)].
Proof.
  eexists _, _, _. split; [reflexivity|]. split; [vm_compute; reflexivity|].
  split; [reflexivity|]. split; [reflexivity|]. split; [reflexivity|].
  split; [vm_compute; reflexivity|]. by split_and!.
Qed.

(** C5 (amended): a unit whose loop finds the flag set goes on to the
    counter like a unit at the end of its chunk; the counter is incremented
    and its new value handed to the sink.  In every state of every run a
    unit has called the sink at most once and never after its callable
    threw, the values passed being, with those still in hand, 1 up to the
    counter; a unit that is through has called the sink exactly when its
    callable did not throw, whether it ran its whole chunk or left early on
    the flag. *)
Theorem C5_counter_and_sink (k : callbacks) (ra : bool) (size threads : Z)
    (st0 st : state) (schedule : list owner) :
  1 ≤ size ≤ ptrdiff_max → 1 ≤ threads →
  async_for_each_init ra size threads = Some st0 →
  run k schedule st0 = Some st →
  (∀ i c it idx,
     futures st !! i = Some (Launched (ChunkTask c) (ULoop it idx)) →
     abort (sh st) = true →
     thread_step k (Unit i) st
     = Some (State (sh st) (<[i := Launched (ChunkTask c) UCount]> (futures st))
               (caller st)))
  ∧ (∀ i c,
       futures st !! i = Some (Launched (ChunkTask c) UCount) →
       thread_step k (Unit i) st
       = Some (State (set_completed (completed (sh st) + 1) (sh st))
                 (<[i := Launched (ChunkTask c) (UProgress (completed (sh st) + 1))]>
                    (futures st))
                 (caller st)))
  ∧ (∀ i c v,
       futures st !! i = Some (Launched (ChunkTask c) (UProgress v)) →
       ∃ pc, thread_step k (Unit i) st
             = Some (State (log_sink i v (sh st))
                       (<[i := Launched (ChunkTask c) pc]> (futures st))
                       (caller st)))
  ∧ NoDup (sink (sh st)).*1
  ∧ (sink (sh st)).*2 ++ omap pending (futures st) ≡ₚ seqZ 1 (completed (sh st))
  ∧ (∀ i, threw k (sh st) i → i ∉ (sink (sh st)).*1)
  ∧ (∀ i tk, futures st !! i = Some (Launched tk UDone) →
             i ∈ (sink (sh st)).*1 ↔ ¬ threw k (sh st) i)
  ∧ (terminal st → (sink (sh st)).*2 ≡ₚ seqZ 1 (completed (sh st))).
Proof.
  intros Hsize Hthreads Hinit Hrun. apply run_reachable in Hrun as Hr.
  assert (Hsi := sink_reachable k ra size threads Hsize Hthreads st0 Hinit st Hr).
  destruct (dynamic_reachable k ra size threads ltac:(lia) Hthreads st0 Hinit st Hr)
    as (Hl & Hce & Hj & Hd).
  destruct Hsi as [Hval Hcnt Hnd Hafter Hor Hthrew].
  split_and!; try done.
  - intros i c it idx Hi Hab. simpl. rewrite Hi. simpl. rewrite Hab.
    by destruct (it =? local_chunk_end c).
  - intros i c Hi. simpl. rewrite Hi. simpl.
    assert (Hlen : (length (filter past_loop (futures st)) ≤ length (futures st))%nat)
      by apply length_filter.
    rewrite (dyn_length _ _ _ Hd) in Hlen.
    assert (Hw : wrap64 (completed (sh st) + 1) = completed (sh st) + 1).
    { unfold wrap64. apply Z.mod_small. unfold ptrdiff_max in Hsize. lia. }
    by rewrite Hw.
  - intros i c v Hi. simpl. rewrite Hi. simpl.
    destruct (progress k v); by eexists.
  - intros i Hi. by apply Hthrew.
  - intros i tk Hi. split.
    + intros Hin Hth. by apply (Hthrew i Hth).
    + intros Hnth. destruct (Hor i tk UDone Hi I); [done|by destruct Hnth].
  - intros Hter. destruct (terminal_joined st Hj Hter) as [_ Hdone].
    rewrite <- Hval. rewrite done_no_pending; [by rewrite app_nil_r|].
    intros j fut Hfut. destruct (Hdone j) as [tk Htk]; [by eapply lookup_lt_Some|].
    exists tk. congruence.
Qed.

Lemma C5_counter_and_sink_witness :
  ∃ st0 st,
    (1 ≤ 10 ≤ ptrdiff_max ∧ 1 ≤ 3)
    ∧ async_for_each_init true 10 3 = Some st0
    ∧ run two_throws cancel_schedule st0 = Some st
    ∧ (2%nat ∈ (sink (sh st)).*1 ↔ ¬ threw two_throws (sh st) 2)
    ∧ (sink (sh st)).*2 ≡ₚ seqZ 1 (completed (sh st)).
Proof.
  eexists _, _. split; [by vm_compute|]. split; [reflexivity|].
  split; [vm_compute; reflexivity|].
  match goal with
  | |- (_ ∈ (sink (sh ?st)).*1 ↔ _) ∧ _ =>
      destruct (C5_counter_and_sink two_throws true 10 3
                  (State shared_init (replicate 3 NotLaunched)
                     (CLaunch (Locals true 10 3 3) 0 0))
                  st cancel_schedule)
        as (_ & _ & _ & _ & _ & _ & Hiff & Hter)
  end.
  - by vm_compute.
  - lia.
  - reflexivity.
  - vm_compute. reflexivity.
  - split; [by eapply Hiff|]. apply Hter. right. by exists 7%nat.
Defined.

(** ** Progress on success *)

(** Two workers on four elements: unit 0 has fetched its value of the
    counter when unit 1 runs from start to end; unit 0 then calls the sink. *)
Definition overtake_schedule : list owner :=
  replicate 2 Caller ++ replicate 6 (Unit 0) ++ replicate 7 (Unit 1)
  ++ [Unit 0] ++ replicate 6 Caller.

(** C7 (the claim as stated fails): nothing throws and the call returns
    normally, yet the sink is called with 2 before it is called with 1. *)
Lemma C7_sink_values_out_of_order :
  ∃ st0 st,
    async_for_each_init true 4 2 = Some st0
    ∧ run no_throw overtake_schedule st0 = Some st
    ∧ caller st = CReturned
    ∧ call_arg <$> calls (sh st) = [0; 1; 2; 3]
    ∧ sink (sh st) = [(1%nat, 2); (0%nat, 1)]
    ∧ (sink (sh st)).*2 = [2; 1].
Proof.
  eexists _, _. split; [reflexivity|]. split; [vm_compute; reflexivity|].
  by split_and!.
Qed.

(** C7 (amended): on a run on which nothing throws, as on every run that
    returns normally, the sink has been called exactly once by each of the
    [t = min(threads, size)] units, hence [t] times, with the values
    1 .. [t], each once, the last value of the counter being [t]; the order
    in which the sink receives them is that of the calls, not of the values.
    Every run comes to its end, and returns normally when nothing throws. *)
Theorem C7_progress_on_success (k : callbacks) (ra : bool) (size threads : Z) :
  1 ≤ size ≤ ptrdiff_max → 1 ≤ threads →
  ∃ st0, async_for_each_init ra size threads = Some st0
    ∧ (∀ st, reachable k st0 st →
         (quiet k → terminal st → caller st = CReturned)
         ∧ (caller st = CReturned →
            (sink (sh st)).*1 ≡ₚ seq 0 (Z.to_nat (Z.min threads size))
            ∧ (sink (sh st)).*2 ≡ₚ seqZ 1 (Z.min threads size)
            ∧ Z.of_nat (length (sink (sh st))) = Z.min threads size
            ∧ completed (sh st) = Z.min threads size
            ∧ ∀ e, ¬ thrown k (sh st) e)
         ∧ (∀ st', step k st st' → (measure st' < measure st)%nat)
         ∧ (¬ terminal st → ∃ st', step k st st'))
    ∧ terminal (exec k (measure st0) st0)
    ∧ (quiet k → caller (exec k (measure st0) st0) = CReturned).
Proof.
  intros Hsize Hthreads.
  destruct (async_for_each_init_dispatch_some ra size threads) as [st0 Hinit]; [lia..|].
  assert (Hstart : call_start st0)
    by (left; exists ra, size, threads; split_and!; [lia..|done]).
  exists st0. split; [done|]. split_and!.
  - intros st Hr.
    destruct (call_start_complete k st0 st Hstart Hr) as (Hm & Hp & _).
    split_and!; try done.
    + intros Hq [Hret|[e Hra]]; [done|exfalso].
      destruct (fresh_reachable k st0 st (call_start_fresh _ Hstart) Hr)
        as (_ & Hc & Hj).
      assert (Hres := join_result _ Hj). rewrite Hra in Hres.
      eapply quiet_not_thrown; [done|]. by apply (cell_origin_ptr _ _ Hc).
    + intros Hret.
      destruct (returned_sink k ra size threads Hsize Hthreads st0 Hinit st Hr Hret)
        as (H1 & H2 & H3).
      split_and!; try done.
      * rewrite <- (length_fmap snd), H2, length_seqZ. lia.
      * by apply (returned_no_throw k ra size threads Hsize Hthreads st0 Hinit).
  - apply (call_start_complete k st0 st0 Hstart), rtc_refl.
  - by apply quiet_returns.
Qed.

Lemma C7_progress_on_success_witness :
  (1 ≤ 2048 ≤ ptrdiff_max ∧ 1 ≤ 4)
  ∧ ∃ st0, async_for_each_init true 2048 4 = Some st0
      ∧ caller (exec no_throw (measure st0) st0) = CReturned
      ∧ (sink (sh (exec no_throw (measure st0) st0))).*2 ≡ₚ [1; 2; 3; 4]
      ∧ Z.of_nat (length (sink (sh (exec no_throw (measure st0) st0)))) = 4.
Proof.
  split; [by vm_compute|].
  destruct (C7_progress_on_success no_throw true 2048 4)
    as (st0 & Hinit & Hall & _ & Hq); [by vm_compute|lia|].
  exists st0. split; [exact Hinit|].
  assert (Hret : caller (exec no_throw (measure st0) st0) = CReturned)
    by (apply Hq; by split_and!).
  split; [exact Hret|].
  destruct (Hall (exec no_throw (measure st0) st0) (exec_reachable _ _ _))
    as (_ & Hs & _).
  destruct (Hs Hret) as (_ & H2 & H3 & _). split; [exact H2|exact H3].
Defined.


(** * Further properties *)

(** ** The launch loop *)

(** X1: The two ways of finding [chunk_end], [std::next] for random-access
    iterators and the stepping loop for the others, make the same chunks. *)
Theorem chunks_of_iterator_category (size threads : Z) :
  0 ≤ size → 0 ≤ threads →
  chunks_of true size threads = chunks_of false size threads.
Proof.
  intros Hs Ht.
  destruct (decide (size = 0)) as [->|Hsz]; [done|].
  destruct (decide (threads = 0)) as [->|Htz].
  - unfold chunks_of, async_for_each_entry.
    destruct (Z.eqb_spec size 0); [lia|].
    by replace (Z.min 0 size) with 0 by lia.
  - by rewrite !chunks_of_closed_form by lia.
Qed.

Lemma chunks_of_iterator_category_witness :
  (0 ≤ 10 ∧ 0 ≤ 3) ∧ chunks_of true 10 3 = chunks_of false 10 3.
Proof.
  split; [lia|]. apply (chunks_of_iterator_category 10 3); lia.
Defined.

(** X2: The chunk lengths, in launch order: [size / t] for every worker but the
    last, which takes the remainder as well. *)
Theorem chunk_lengths (ra : bool) (size threads : Z) (cs : list chunk) :
  1 ≤ size → 1 ≤ threads →
  chunks_of ra size threads = Some cs →
  chunk_len <$> cs
  = replicate (Z.to_nat (Z.min threads size - 1)) (size / Z.min threads size)
    ++ [size / Z.min threads size + size mod Z.min threads size]
  ∧ 0 ≤ size mod Z.min threads size < Z.min threads size
  ∧ 1 ≤ size / Z.min threads size.
Proof.
  intros Hs Ht Hcs. rewrite chunks_of_closed_form in Hcs by done.
  injection Hcs as <-. set (t := Z.min threads size).
  assert (Hb : 1 ≤ t ≤ size) by lia.
  pose proof (cs_bounds size t Hb) as (Hc1 & Hc2 & Hc3).
  pose proof (Z.div_mod size t ltac:(lia)) as Hdm.
  pose proof (Z.mod_pos_bound size t ltac:(lia)) as Hm.
  split; [|lia].
  replace (Z.to_nat t) with (Z.to_nat (t - 1) + 1)%nat by lia.
  rewrite seq_app, !fmap_app. cbn [seq fmap list_fmap]. f_equal.
  - apply list_eq. intros j. rewrite !list_lookup_fmap.
    destruct (decide (j < Z.to_nat (t - 1))%nat) as [Hj|Hj].
    + rewrite lookup_seq_lt by done. rewrite lookup_replicate_2 by done.
      cbn. f_equal. unfold chunk_len. rewrite chunk_at_end, chunk_at_begin.
      destruct (Z.eqb_spec (Z.of_nat j) (t - 1)); lia.
    + rewrite lookup_seq_ge by lia. symmetry. cbn. apply lookup_replicate_None. lia.
  - f_equal. unfold chunk_len. rewrite chunk_at_end, chunk_at_begin.
    destruct (Z.eqb_spec (Z.of_nat (0 + Z.to_nat (t - 1))) (t - 1)); lia.
Qed.

Lemma chunk_lengths_witness :
  (1 ≤ 10 ∧ 1 ≤ 3)
  ∧ ∃ cs, chunks_of false 10 3 = Some cs ∧ chunk_len <$> cs = [3; 3; 4].
Proof.
  split; [lia|]. eexists. split; [reflexivity|].
  apply (chunk_lengths false 10 3); [lia|lia|reflexivity].
Defined.

(** ** The default thread argument *)

(** X3: [threads = runtime_threads()]: whatever the environment holds, in every
    call of a process, the resolved count is at least one, so that the
    dynamic form dispatches on [min(threads, size)] workers and never
    divides by zero. *)
Theorem runtime_threads_dispatch (m : macros) (envs : list (option string))
    (vs : list Z) (p : process) :
  1 ≤ ASYNC_MIN_THREADS m →
  ASYNC_MIN_THREADS m ≤ ASYNC_MAX_THREADS m < 2 ^ 31 →
  1 ≤ ASYNC_NUM_THREADS m < 2 ^ 31 →
  resolve_all m envs process_start = Some (vs, p) →
  ∀ v, v ∈ vs →
    1 ≤ v ≤ Z.max (ASYNC_MAX_THREADS m) (ASYNC_NUM_THREADS m)
    ∧ ∀ ra size, 0 ≤ size →
        is_Some (async_for_each_init ra size v)
        ∧ (1 ≤ size →
           async_for_each_entry size v
           = Dispatch (Z.min v size) (size / Z.min v size)).
Proof.
  intros Hmin Hmax Hnum Hr v Hv.
  assert (Hv1 : 1 ≤ v ≤ Z.max (ASYNC_MAX_THREADS m) (ASYNC_NUM_THREADS m)).
  { destruct envs as [|env envs].
    - simpl in Hr. injection Hr as <- <-. by apply elem_of_nil in Hv.
    - destruct (resolve_all_once m Hmin Hmax Hnum env envs vs p Hr)
        as (_ & v0 & H0 & Hall).
      rewrite (Hall v Hv). destruct env as [env|].
      + destruct (atoi env) as [a|] eqn:Ha.
        * destruct (runtime_threads_present m Hmin Hmax env a Ha) as (H1 & ? & _).
          rewrite H1 in H0. injection H0 as <- _. lia.
        * unfold runtime_threads in H0. simpl in H0. by rewrite Ha in H0.
      + rewrite (runtime_threads_absent m Hnum) in H0.
        injection H0 as <- _. lia. }
  split; [done|]. intros ra size Hsize.
  unfold async_for_each_init, async_for_each_entry.
  destruct (Z.eqb_spec size 0) as [->|Hsz]; [split; [by eexists|lia]|].
  destruct (Z.eqb_spec (Z.min v size) 0); [lia|]. split; [by eexists|done].
Qed.

Lemma runtime_threads_dispatch_witness :
  (1 ≤ ASYNC_MIN_THREADS default_macros)
  ∧ resolve_all default_macros [Some "0"%string; None; Some "12"%string] process_start
    = Some ([1; 1; 1], Process 1 1)
  ∧ async_for_each_entry 2048 1 = Dispatch 1 2048.
Proof.
  split; [by vm_compute|]. split; [by vm_compute|].
  destruct (runtime_threads_dispatch default_macros
              [Some "0"%string; None; Some "12"%string] [1; 1; 1] (Process 1 1))
    with (v := 1) as (_ & H); [by vm_compute|by vm_compute|by vm_compute|by vm_compute| |].
  - apply elem_of_cons. by left.
  - destruct (H true 2048) as [_ He]; [lia|]. apply He. lia.
Defined.

(** ** What a unit invokes, and in which order *)

(** The invocations made by unit [i], oldest first. *)
Definition unit_calls (i : nat) (s : shared) : list call :=
  filter (λ c, call_thread c = i) (calls s).

(** The invocations unit [i] makes when nothing stops it: the elements of
    its chunk from first to last with their indices, or the values of its
    index sequence. *)
Definition script (i : nat) (tk : task) : list call :=
  match tk with
  | ChunkTask c => (λ it, ElementCall it (idx_at c it) i) <$> chunk_positions c
  | IndexTask args => (λ I0, IndexCall I0 i) <$> args
  end.

(** [rest] is what the unit at [pc] has still ahead of it. *)
Definition ahead (i : nat) (tk : task) (pc : unit_pc) (s : shared)
    (rest : list call) : Prop :=
  match pc, tk with
  | (ULoop it idx | UCall it idx), ChunkTask c =>
      rest = (λ p, ElementCall p (idx_at c p) i) <$> seqZ it (local_chunk_end c - it)
      ∧ idx = idx_at c it
  | SStart, IndexTask args => rest = (λ I0, IndexCall I0 i) <$> args
  | SCall r, IndexTask _ => rest = (λ I0, IndexCall I0 i) <$> r
  | (UCount | UProgress _ | UDone), _ => rest = [] ∨ ex_ptr s ≠ None
  | _, _ => True
  end.

Record script_inv (st : state) : Prop := ScriptInv {
  script_units : ∀ i tk pc, futures st !! i = Some (Launched tk pc) →
    ∃ rest, script i tk = unit_calls i (sh st) ++ rest
            ∧ ahead i tk pc (sh st) rest;
  script_idle : ∀ i, (∀ tk pc, futures st !! i ≠ Some (Launched tk pc)) →
    unit_calls i (sh st) = [];
}.

Lemma ahead_mono i tk pc s s' rest :
  (ex_ptr s ≠ None → ex_ptr s' ≠ None) →
  ahead i tk pc s rest → ahead i tk pc s' rest.
Proof. destruct pc, tk; simpl; tauto. Qed.

Lemma unit_calls_snoc i s s' c :
  calls s' = calls s ++ [c] →
  unit_calls i s'
  = unit_calls i s ++ (if decide (call_thread c = i) then [c] else []).
Proof.
  intros Hc. unfold unit_calls. by rewrite Hc, filter_app.
Qed.

Lemma unit_calls_same i s s' : calls s' = calls s → unit_calls i s' = unit_calls i s.
Proof. intros Hc. unfold unit_calls. by rewrite Hc. Qed.

Lemma seqZ_cons_lt (m n : Z) : m < n → seqZ m (n - m) = m :: seqZ (m + 1) (n - (m + 1)).
Proof.
  intros Hlt. rewrite seqZ_cons by lia. f_equal. unfold Z.succ. f_equal. lia.
Qed.

(** One step of a unit against what it has ahead. *)
Lemma unit_step_script k i tk pc s s' pc' rest :
  unit_step k i tk pc s = Some (s', pc') →
  typed tk pc →
  (abort s = true → ex_ptr s ≠ None) →
  (∀ h, pc = UCatch h → handler_exn h = None → ex_ptr s ≠ None) →
  ahead i tk pc s rest →
  (calls s' = calls s ∧ ahead i tk pc' s' rest)
  ∨ (∃ c rest', rest = c :: rest' ∧ call_thread c = i
                ∧ calls s' = calls s ++ [c] ∧ ahead i tk pc' s' rest').
Proof.
  intros Hs Hty Hab Hst Ha.
  destruct pc as [it idx|it idx| |v| |r|h|].
  - destruct tk as [c|args]; [|done]. simpl in Hs, Ha, Hty. left.
    destruct (Z.eqb_spec it (local_chunk_end c)) as [->|Hne].
    + injection Hs as <- <-. split; [done|]. left.
      destruct Ha as [-> _]. by rewrite Z.sub_diag.
    + destruct (abort s) eqn:Habort; injection Hs as <- <-; (split; [done|]).
      * right. by apply Hab.
      * done.
  - destruct tk as [c|args]; [|done]. simpl in Hs, Ha, Hty. right.
    destruct Ha as [-> ->]. rewrite seqZ_cons_lt by done. cbn [fmap list_fmap].
    eexists _, _. split; [done|]. split; [done|].
    destruct (f k _); injection Hs as <- <-; (split; [done|]); [done|].
    split; [done|]. unfold idx_at.
    rewrite wrap64_succ. f_equal. lia.
  - destruct tk as [c|args]; [|done]. simpl in Hs. injection Hs as <- <-.
    left. split; [done|]. exact Ha.
  - destruct tk as [c|args]; [|done]. simpl in Hs. left.
    destruct (progress k v); injection Hs as <- <-; (split; [done|]); [done|exact Ha].
  - destruct tk as [c|args]; [done|]. simpl in Hs, Ha. left.
    destruct (abort s) eqn:Habort; injection Hs as <- <-; (split; [done|]).
    + right. by apply Hab.
    + done.
  - destruct tk as [c|args]; [by destruct r|]. simpl in Ha. subst rest.
    destruct r as [|I0 r]; simpl in Hs.
    + injection Hs as <- <-. left. split; [done|]. by left.
    + right. eexists _, _. split; [done|]. split; [done|].
      destruct (f k _); injection Hs as <- <-; by split.
  - apply unit_step_catch in Hs as (h' & Hh & ->).
    destruct (handler_step_logs _ _ _ _ _ Hh) as (_ & Hc & _).
    left. split; [done|]. destruct h' as [h'|]; simpl; [by destruct tk|].
    destruct (handler_step_leave _ _ _ _ Hh) as [He Hl].
    assert (ex_ptr s' ≠ None).
    { rewrite He. destruct Hl as [(e & -> & Habort)| ->]; [by apply Hab|].
      by apply (Hst HUnlock). }
    destruct tk; by right.
  - by rewrite unit_step_done in Hs.
Qed.

Lemma unit_step_calls k i tk pc s s' pc' :
  unit_step k i tk pc s = Some (s', pc') →
  calls s' = calls s ∨ ∃ c, call_thread c = i ∧ calls s' = calls s ++ [c].
Proof.
  intros Hs. destruct pc as [it idx|it idx| |v| |r|h|].
  - destruct tk; [|done]. simpl in Hs. left.
    destruct (_ =? _); [by injection Hs as <- <-|].
    destruct (abort s); by injection Hs as <- <-.
  - destruct tk; [|done]. simpl in Hs. right. eexists. split; [|
      destruct (f k _); by injection Hs as <- <-]. done.
  - destruct tk; [|done]. simpl in Hs. injection Hs as <- <-. by left.
  - destruct tk; [|done]. simpl in Hs. left.
    destruct (progress k v); by injection Hs as <- <-.
  - destruct tk; [done|]. simpl in Hs. left.
    destruct (abort s); by injection Hs as <- <-.
  - destruct tk; [by destruct r|]. destruct r as [|I0 r]; simpl in Hs.
    + injection Hs as <- <-. by left.
    + right. eexists. split; [|destruct (f k _); by injection Hs as <- <-]. done.
  - apply unit_step_catch in Hs as (h' & Hh & ->).
    destruct (handler_step_logs _ _ _ _ _ Hh) as (_ & Hc & _). by left.
  - by rewrite unit_step_done in Hs.
Qed.

Lemma script_inv_step k st st' :
  step k st st' → launch_inv st → cell_inv k st → sched_inv st →
  script_inv st → script_inv st'.
Proof.
  intros Hstep Hl Hc Hsch [Hu Hidle].
  assert (Hex : ex_ptr (sh st) ≠ None → ex_ptr (sh st') ≠ None).
  { intros Hne. destruct (ex_ptr (sh st)) as [e|] eqn:He; [|done].
    by rewrite (ex_ptr_step k st st' e Hstep Hl Hc He). }
  destruct Hstep as [[|j] Hstep].
  - simpl in Hstep. apply caller_step_frame in Hstep
      as [(l & i0 & cb & Hcl & Hlt & Hst')|(Hfs & Hcs & _)].
    + cbv zeta in Hst'. subst st'. cbn [futures sh] in *.
      set (c := make_chunk _ _ _ _ i0 cb).
      assert (Hi0 : unit_calls i0 (sh st) = []).
      { apply Hidle. intros tk pc. by apply (Hl l i0 cb). }
      split.
      * intros i tk pc [(<- & [= <- <-] & _)|[_ Hi]]%list_lookup_insert_Some;
          [|by apply Hu].
        exists (script i0 (ChunkTask c)). cbn [sh]. rewrite Hi0. split; [done|].
        cbn. split; [done|]. unfold idx_at. rewrite Z.sub_diag, Z.add_0_r.
        subst c. unfold make_chunk. cbn. by rewrite wrap64_idemp.
      * intros i Hi. cbn [futures sh] in Hi |- *. apply Hidle. intros tk pc Hf.
        destruct (decide (i0 = i)) as [<-|Hne].
        -- by destruct (Hl l i0 cb i0 tk pc).
        -- apply (Hi tk pc). by rewrite list_lookup_insert_ne.
    + split.
      * intros i tk pc Hi. rewrite Hfs in Hi.
        destruct (Hu i tk pc Hi) as (rest & Hs & Ha).
        exists rest. rewrite (unit_calls_same i _ _ Hcs).
        split; [done|]. by eapply ahead_mono.
      * intros i Hi. rewrite (unit_calls_same i _ _ Hcs). apply Hidle.
        intros tk pc. rewrite <- Hfs. apply Hi.
  - apply unit_step_inv in Hstep as (tk & pc & s' & pc' & Hj & Hs & ->).
    cbn [futures sh] in *.
    assert (Hjl := lookup_lt_Some _ _ _ Hj).
    destruct (Hu j tk pc Hj) as (rest & Hscr & Ha).
    assert (Hmine := unit_step_script k j tk pc (sh st) s' pc' rest Hs
                       (sched_typed _ Hsch j tk pc Hj)
                       (cell_abort _ _ Hc)).
    assert (Hst : ∀ h, pc = UCatch h → handler_exn h = None → ex_ptr (sh st) ≠ None).
    { intros h -> Hh. apply (cell_stored _ _ Hc (Unit j) h); [|done].
      simpl. by rewrite Hj. }
    specialize (Hmine Hst Ha).
    assert (Hother : ∀ i, i ≠ j → unit_calls i s' = unit_calls i (sh st)).
    { intros i Hne. destruct (unit_step_calls k j tk pc (sh st) s' pc' Hs)
        as [Hsame|(c & Hth & Hsn)].
      - by apply unit_calls_same.
      - rewrite (unit_calls_snoc i _ _ c Hsn).
        destruct (decide (call_thread c = i)); [congruence|by rewrite app_nil_r]. }
    split.
    + intros i tk' pc0 [(<- & [= <- <-] & _)|[Hne Hi]]%list_lookup_insert_Some;
        cbn [futures sh].
      * destruct Hmine as [[Hsame Ha']|(c & rest' & -> & Hth & Hsn & Ha')].
        -- exists rest. by rewrite (unit_calls_same j _ _ Hsame).
        -- exists rest'. rewrite (unit_calls_snoc j _ _ c Hsn).
           destruct (decide (call_thread c = j)); [|done].
           rewrite <- app_assoc. done.
      * destruct (Hu i tk' pc0 Hi) as (rest0 & Hs0 & Ha0).
        exists rest0. rewrite Hother by done. split; [done|].
        by eapply ahead_mono.
    + intros i Hi. cbn [futures sh] in Hi |- *.
      destruct (decide (i = j)) as [->|Hne].
      * destruct (Hi tk pc'). by rewrite list_lookup_insert_eq.
      * rewrite Hother by done. apply Hidle. intros tk' pc0 Hf.
        apply (Hi tk' pc0). by rewrite list_lookup_insert_ne.
Qed.

Lemma fresh_script_inv st :
  fresh st →
  (∀ i tk pc, futures st !! i = Some (Launched tk pc) →
              ∃ args, tk = IndexTask args ∧ pc = SStart) →
  script_inv st.
Proof.
  intros (Hsh & _ & _) Hu. split.
  - intros i tk pc Hi. destruct (Hu i tk pc Hi) as (args & -> & ->).
    exists (script i (IndexTask args)). unfold unit_calls. by rewrite Hsh.
  - intros i _. unfold unit_calls. by rewrite Hsh.
Qed.

(** In every state of every run, whatever the form. *)
Lemma call_start_script k st0 st :
  call_start st0 → reachable k st0 st → script_inv st.
Proof.
  intros Hstart Hr.
  assert (H0 : script_inv st0).
  { apply fresh_script_inv; [by apply call_start_fresh|].
    destruct Hstart as [(ra & size & threads & _ & _ & Hi)
                       |(Tbits & N0 & Nn & Ns & threads & Hi)].
    - unfold async_for_each_init in Hi.
      destruct (async_for_each_entry size threads); simplify_eq/=.
      + by intros i tk pc.
      + by intros i tk pc [? _]%lookup_replicate.
    - destruct (async_for_each_index_init_units _ _ _ _ _ _ Hi) as (_ & _ & _ & Hu).
      intros i tk pc (args & _ & [= -> ->])%Hu. eauto. }
  assert (Hgood : ∀ st', reachable k st0 st' → good k st')
    by (intros; by eapply call_start_good).
  clear Hstart. induction Hr as [st|st st1 st2 Hs _ IH]; [done|].
  apply IH.
  - destruct (Hgood st (rtc_refl _ _)) as (Hl & _ & Hc & Hsch).
    by eapply script_inv_step.
  - intros st' Hr'. apply Hgood. by eapply rtc_l.
Qed.

Lemma seqZ_prefix {A} (g : Z → A) (b n : Z) (l1 l2 : list A) :
  g <$> seqZ b n = l1 ++ l2 →
  l1 = g <$> seqZ b (Z.of_nat (length l1)) ∧ Z.of_nat (length l1) ≤ Z.max 0 n.
Proof.
  intros Heq.
  assert (Hlen : (length l1 + length l2)%nat = Z.to_nat n).
  { rewrite <- length_app, <- Heq, length_fmap, length_seqZ. done. }
  split; [|lia].
  apply list_eq. intros j. rewrite list_lookup_fmap.
  destruct (decide (j < length l1)%nat) as [Hj|Hj].
  - rewrite lookup_seqZ_lt by lia.
    rewrite <- (lookup_app_l l1 l2) by done. rewrite <- Heq.
    rewrite list_lookup_fmap, lookup_seqZ_lt by lia. done.
  - rewrite lookup_ge_None_2 by lia. rewrite lookup_seqZ_ge by lia. done.
Qed.

(** X4: The elements unit [i] of the dynamic form has invoked the callable on
    are, in every state of every run, the first [m] elements of chunk [i] in
    their order, each with the index that goes with it and with [i] as the
    thread id: a unit never skips an element and never goes back.  When the
    call returns normally [m] is the length of the chunk. *)
Theorem dynamic_unit_order (k : callbacks) (ra : bool) (size threads : Z)
    (st0 st : state) (schedule : list owner) (i : nat) :
  1 ≤ size → 1 ≤ threads →
  async_for_each_init ra size threads = Some st0 →
  run k schedule st0 = Some st →
  Z.of_nat i < Z.min threads size →
  ∃ m, 0 ≤ m ≤ chunk_len (chunk_at size (Z.min threads size) i)
    ∧ unit_calls i (sh st)
      = (λ it, ElementCall it (idx_at (chunk_at size (Z.min threads size) i) it) i)
        <$> seqZ (local_chunk_begin (chunk_at size (Z.min threads size) i)) m
    ∧ (caller st = CReturned →
       m = chunk_len (chunk_at size (Z.min threads size) i)).
Proof.
  intros Hsize Hthreads Hinit Hrun Hi. apply run_reachable in Hrun as Hr.
  pose proof (chunk_at_bounds size (Z.min threads size) ltac:(lia) i Hi)
    as (Hb0 & Hb1 & Hb2).
  assert (Hstart : call_start st0)
    by (left; exists ra, size, threads; split_and!; [lia..|done]).
  destruct (dynamic_reachable k ra size threads Hsize Hthreads st0 Hinit st Hr)
    as (Hl & Hce & Hj & Hd).
  destruct (call_start_script k st0 st Hstart Hr) as [Hu Hidle].
  assert (Hlen := dyn_length _ _ _ Hd).
  destruct (futures st !! i) as [[|tk pc]|] eqn:Hfi.
  - exists 0. rewrite Hidle by (intros tk pc; congruence).
    split; [unfold chunk_len; lia|]. split; [done|].
    intros Hret. destruct (terminal_joined st Hj (or_introl Hret)) as [_ Hdone].
    destruct (Hdone i) as [tk Htk]; [by eapply lookup_lt_Some|]. congruence.
  - destruct (dyn_units _ _ _ Hd i tk pc Hfi) as [-> Hok].
    destruct (Hu i _ pc Hfi) as (rest & Hscr & Ha).
    cbn [script] in Hscr. unfold chunk_positions in Hscr.
    destruct (seqZ_prefix _ _ _ _ _ Hscr) as [Hpre Hm].
    exists (Z.of_nat (length (unit_calls i (sh st)))).
    split; [unfold chunk_len in *; lia|]. split; [done|].
    intros Hret. destruct (terminal_joined st Hj (or_introl Hret)) as [_ Hdone].
    destruct (Hdone i) as [tk Htk]; [by eapply lookup_lt_Some|].
    rewrite Hfi in Htk. injection Htk as _ ->.
    assert (Hres := join_result _ Hj). rewrite Hret in Hres.
    simpl in Ha. destruct Ha as [->|Hne]; [|done].
    rewrite app_nil_r in Hscr. rewrite <- Hscr, length_fmap, length_seqZ.
    unfold chunk_len in *. lia.
  - apply lookup_ge_None in Hfi. lia.
Qed.

Lemma dynamic_unit_order_witness :
  ∃ st0 st,
    (1 ≤ 10 ∧ 1 ≤ 3)
    ∧ async_for_each_init true 10 3 = Some st0
    ∧ run two_throws race_schedule st0 = Some st
    ∧ ∃ m, 0 ≤ m ≤ 3
        ∧ unit_calls 1 (sh st)
          = (λ it, ElementCall it (idx_at (chunk_at 10 3 1) it) 1) <$> seqZ 3 m.
Proof.
  eexists _, _. split; [lia|]. split; [reflexivity|].
  split; [vm_compute; reflexivity|].
  match goal with
  | |- ∃ m, _ ∧ unit_calls _ (sh ?st) = _ =>
      destruct (dynamic_unit_order two_throws true 10 3
                  (State shared_init (replicate 3 NotLaunched)
                     (CLaunch (Locals true 10 3 3) 0 0))
                  st race_schedule 1)
        as (m & Hm & Hcalls & _)
  end.
  - lia.
  - lia.
  - reflexivity.
  - vm_compute. reflexivity.
  - by vm_compute.
  - exists m. split; [exact Hm|exact Hcalls].
Defined.

(** ** The index and the thread id passed with an element *)

(** X5: Every invocation [f( *it, idx, i)] of the dynamic form, in every state
    of every run: [i] is the ordinal of the chunk that holds the element,
    and [idx] is the position of the element in the range, except in the
    last chunk, where it is the position plus [(t - 1) * (size mod t)].  So
    the index is the position wherever the worker count divides the size. *)
Theorem dynamic_call_index (k : callbacks) (ra : bool) (size threads : Z)
    (st0 st : state) (schedule : list owner) (c : call) :
  1 ≤ size ≤ ptrdiff_max → 1 ≤ threads →
  async_for_each_init ra size threads = Some st0 →
  run k schedule st0 = Some st →
  c ∈ calls (sh st) →
  ∃ p i,
    Z.of_nat i < Z.min threads size
    ∧ local_chunk_begin (chunk_at size (Z.min threads size) i) ≤ p
      < local_chunk_end (chunk_at size (Z.min threads size) i)
    ∧ c = ElementCall p
            (wrap64 (p + if Z.of_nat i =? Z.min threads size - 1
                         then (Z.min threads size - 1) * (size mod Z.min threads size)
                         else 0)) i
    ∧ (Z.of_nat i ≠ Z.min threads size - 1 ∨ size mod Z.min threads size = 0 →
       c = ElementCall p p i).
Proof.
  intros Hsize Hthreads Hinit Hrun Hc. apply run_reachable in Hrun as Hr.
  destruct (reachable_call_idx k ra size threads ltac:(lia) Hthreads st0 Hinit st c Hr Hc)
    as (p & i & -> & Hi & Hin).
  set (t := Z.min threads size) in *.
  assert (Ht : 1 ≤ t ≤ size) by lia.
  pose proof (chunk_at_bounds size t Ht i Hi) as (Hb0 & Hb1 & Hb2).
  pose proof (cs_bounds size t Ht) as (Hc1 & Hc2 & Hc3).
  pose proof (Z.div_mod size t ltac:(lia)) as Hdm.
  pose proof (Z.mod_pos_bound size t ltac:(lia)) as Hmod.
  pose proof (chunk_at_end size t i) as He.
  rewrite chunk_at_begin in *.
  assert (Hidx : wrap64 (idx_offset (chunk_at size t i) + (p - Z.of_nat i * (size / t)))
                 = wrap64 (p + if Z.of_nat i =? t - 1
                               then (t - 1) * (size mod t) else 0)).
  { unfold chunk_at. cbn [idx_offset]. unfold wrap64.
    rewrite Zplus_mod_idemp_l. f_equal.
    destruct (Z.eqb_spec (Z.of_nat i) (t - 1)) as [Heq|Hne]; nia. }
  exists p, i. split; [done|]. split; [done|]. split; [by rewrite Hidx|].
  intros Hcase. rewrite Hidx. do 2 f_equal.
  assert (Hp : 0 ≤ p < 2 ^ 64) by (unfold ptrdiff_max in Hsize; lia).
  unfold wrap64. destruct (Z.eqb_spec (Z.of_nat i) (t - 1)) as [Heq|Hne].
  - destruct Hcase as [?|Hz]; [done|]. rewrite Hz, Z.mul_0_r, Z.add_0_r.
    by apply Z.mod_small.
  - rewrite Z.add_0_r. by apply Z.mod_small.
Qed.

Lemma dynamic_call_index_witness :
  ∃ st0 st,
    (1 ≤ 2048 ≤ ptrdiff_max ∧ 1 ≤ 4)
    ∧ async_for_each_init true 2048 4 = Some st0
    ∧ run no_throw (replicate 5 Caller ++ replicate 4 (Unit 2)) st0 = Some st
    ∧ calls (sh st) = [ElementCall 1024 1024 2; ElementCall 1025 1025 2]
    ∧ ∃ p i, ElementCall 1025 1025 2 = ElementCall p p i.
Proof.
  eexists _, _. split; [by vm_compute|]. split; [reflexivity|].
  split; [vm_compute; reflexivity|].
  match goal with
  | |- calls (sh ?st) = _ ∧ _ =>
      destruct (dynamic_call_index no_throw true 2048 4
                  (State shared_init (replicate 4 NotLaunched)
                     (CLaunch (Locals true 2048 4 512) 0 0))
                  st (replicate 5 Caller ++ replicate 4 (Unit 2))
                  (ElementCall 1025 1025 2))
        as (p & i & _ & _ & _ & Hpos)
  end.
  - by vm_compute.
  - lia.
  - reflexivity.
  - vm_compute. reflexivity.
  - apply elem_of_cons. right. apply elem_of_cons. by left.
  - split; [reflexivity|]. exists p, i. apply Hpos. right. reflexivity.
Defined.

(** ** The cancellation flag and the mutex *)

Lemma handler_step_abort t h s s' h' :
  handler_step t h s = Some (s', h') →
  (abort s = true → abort s' = true)
  ∧ (abort s' = abort s ∨ h = HSetAbort ∧ abort s' = true).
Proof.
  intros Hs. destruct h; simpl in Hs.
  - destruct (abort s) eqn:Ha; injection Hs as <- <-; (split; [done|by left]).
  - destruct (ex_mutex s) eqn:Hm; [done|]. injection Hs as <- <-.
    split; [done|by left].
  - destruct (ex_ptr s) eqn:He; injection Hs as <- <-; (split; [done|by left]).
  - injection Hs as <- <-. split; [done|by left].
  - injection Hs as <- <-. split; [done|by right].
  - injection Hs as <- <-. split; [done|by left].
Qed.

Lemma abort_step k st st' :
  step k st st' → launch_inv st →
  abort (sh st) = true → abort (sh st') = true.
Proof.
  intros [t Hs] Hl Ha. destruct (thread_step_cell k t st st' Hs Hl) as [_ Hc].
  destruct Hc as [_ _ (Hab & _) _|e _ _ (Hab & _) _|h h' _ Hh _|_ _ _ ->| _ _ ->];
    try done; try congruence.
  by apply (handler_step_abort _ _ _ _ _ Hh).
Qed.

(** A stored failure has the flag set, or has it set by the next step of
    the thread that stored it. *)
Definition flag_inv (st : state) : Prop :=
  ex_ptr (sh st) ≠ None →
  abort (sh st) = true ∨ ∃ t, phase_of t st = Handling HSetAbort.

Lemma flag_inv_step k st st' :
  step k st st' → launch_inv st → cell_inv k st → flag_inv st → flag_inv st'.
Proof.
  intros [t Hs] Hl Hce Hf Hne.
  destruct (thread_step_cell k t st st' Hs Hl) as [Hoth Hc].
  assert (Hkeep : ex_ptr (sh st) ≠ None → abort (sh st') = abort (sh st) →
                  phase_of t st ≠ Handling HSetAbort →
                  abort (sh st') = true ∨ ∃ t', phase_of t' st' = Handling HSetAbort).
  { intros Hne0 Hab Hph. destruct (Hf Hne0) as [Ht|[t' Ht']]; [left; congruence|].
    right. exists t'. rewrite Hoth; [done|]. intros ->. done. }
  destruct Hc as [Hp _ (Hab & Hex & _) _|e Hp _ (Hab & Hex & _) _|h h' Hp Hh Hp'
                 |Hp _ _ Hsh|Hp _ Hsh].
  - apply Hkeep; [by rewrite <- Hex|done|by rewrite Hp].
  - apply Hkeep; [by rewrite <- Hex|done|by rewrite Hp].
  - destruct (handler_step_ex_ptr _ _ _ _ _ Hh) as [Hex|(e & -> & Hex)].
    + destruct (handler_step_abort _ _ _ _ _ Hh) as [_ [Hab|[-> Hab]]]; [|by left].
      assert (Hdec : h = HSetAbort ∨ h ≠ HSetAbort)
        by (destruct h; (by left) || (by right)).
      destruct Hdec as [->|Hnh].
      * left. simpl in Hh. by injection Hh as <- _.
      * apply Hkeep; [by rewrite <- Hex|done|]. rewrite Hp. congruence.
    + right. exists t. simpl in Hh. injection Hh as _ <-. done.
  - apply Hkeep; [by rewrite Hsh in Hne|by rewrite Hsh|by rewrite Hp].
  - apply Hkeep; [by rewrite Hsh in Hne|by rewrite Hsh|by rewrite Hp].
Qed.

Lemma call_start_flag k st0 st :
  call_start st0 → reachable k st0 st →
  flag_inv st
  ∧ ∀ st', reachable k st st' → abort (sh st) = true → abort (sh st') = true.
Proof.
  intros Hstart Hr.
  assert (Hgood : ∀ st', reachable k st0 st' → good k st')
    by (intros; by eapply call_start_good).
  split.
  - assert (H0 : flag_inv st0).
    { intros Hne. destruct (call_start_fresh _ Hstart) as (Hsh & _).
      by rewrite Hsh in Hne. }
    clear Hstart. induction Hr as [st|st st1 st2 Hs _ IH]; [done|].
    destruct (Hgood st (rtc_refl _ _)) as (Hl & _ & Hc & _).
    apply IH; [|by eapply flag_inv_step].
    intros st' Hr'. apply Hgood. by eapply rtc_l.
  - intros st' Hr'.
    assert (Hgood' : ∀ st1, reachable k st st1 → good k st1).
    { intros st1 Hr1. apply Hgood. unfold reachable in *. by etrans. }
    clear Hr Hgood Hstart. induction Hr' as [st|st st1 st2 Hs _ IH]; [done|].
    intros Ha. destruct (Hgood' st (rtc_refl _ _)) as (Hl & _).
    apply IH; [|by eapply abort_step].
    intros st' Hr'. apply Hgood'. by eapply rtc_l.
Qed.

Lemma terminal_idle st t :
  join_inv st → terminal st → phase_of t st = Idle.
Proof.
  intros Hj Hter. destruct t as [|i]; simpl.
  - by destruct Hter as [->|[e ->]].
  - destruct (futures st !! i) as [fut|] eqn:Hi; [|done]. simpl.
    destruct (terminal_joined st Hj Hter) as [_ Hdone].
    destruct (Hdone i) as [tk Htk]; [by eapply lookup_lt_Some|].
    rewrite Hi in Htk. by injection Htk as ->.
Qed.

(** X6: The cancellation flag, in every state of every run of either form: it
    is set only once a failure is stored, never cleared, and set by the time
    the call ends exactly when the call raises. *)
Theorem cancellation_flag (k : callbacks) (st0 st : state)
    (schedule : list owner) :
  call_start st0 →
  run k schedule st0 = Some st →
  (abort (sh st) = true → ex_ptr (sh st) ≠ None)
  ∧ (∀ st', reachable k st st' → abort (sh st) = true → abort (sh st') = true)
  ∧ (terminal st → (abort (sh st) = true ↔ ∃ e, caller st = CRaised e)).
Proof.
  intros Hstart Hrun. apply run_reachable in Hrun as Hr.
  destruct (fresh_reachable k st0 st (call_start_fresh _ Hstart) Hr)
    as (Hl & Hc & Hj).
  destruct (call_start_flag k st0 st Hstart Hr) as [Hf Hmono].
  split_and!; [apply (cell_abort _ _ Hc)|done|].
  intros Hter. assert (Hres := join_result _ Hj). split.
  - intros Ha. apply (cell_abort _ _ Hc) in Ha.
    destruct Hter as [Hret|?]; [|done]. rewrite Hret in Hres. done.
  - intros [e He]. rewrite He in Hres.
    destruct Hf as [?|[t Ht]]; [by rewrite Hres|done|].
    by rewrite (terminal_idle st t Hj Hter) in Ht.
Qed.

Lemma cancellation_flag_witness :
  ∃ st0 st,
    async_for_each_init true 10 3 = Some st0
    ∧ run two_throws race_schedule st0 = Some st
    ∧ (abort (sh st) = true ↔ ∃ e, caller st = CRaised e).
Proof.
  eexists _, _. split; [reflexivity|]. split; [vm_compute; reflexivity|].
  match goal with
  | |- abort (sh ?st) = _ ↔ _ =>
      destruct (cancellation_flag two_throws
                  (State shared_init (replicate 3 NotLaunched)
                     (CLaunch (Locals true 10 3 3) 0 0))
                  st race_schedule)
        as (_ & _ & Hter)
  end.
  - left. exists true, 10, 3. split; [lia|]. split; [lia|]. reflexivity.
  - vm_compute. reflexivity.
  - apply Hter. right. by exists 7%nat.
Defined.

(** X7: The mutex of the failure cell, in every state of every run of either
    form: at most one thread is between its lock and its unlock, the mutex
    is held exactly then, and it is free when the call ends. *)
Theorem failure_cell_mutex (k : callbacks) (st0 st : state)
    (schedule : list owner) :
  call_start st0 →
  run k schedule st0 = Some st →
  (∀ t t', guards (phase_of t st) = true → guards (phase_of t' st) = true →
           t = t')
  ∧ (∀ t, ex_mutex (sh st) = Some t ↔ guards (phase_of t st) = true)
  ∧ (∀ t e, phase_of t st = Handling (HStore e) →
            ex_mutex (sh st) = Some t ∧ ex_ptr (sh st) = None)
  ∧ (terminal st → ex_mutex (sh st) = None).
Proof.
  intros Hstart Hrun. apply run_reachable in Hrun as Hr.
  destruct (fresh_reachable k st0 st (call_start_fresh _ Hstart) Hr)
    as (Hl & Hc & Hj).
  split_and!.
  - intros t t' Ht Ht'. apply (cell_mutex _ _ Hc) in Ht, Ht'. congruence.
  - intros t. symmetry. apply (cell_mutex _ _ Hc).
  - intros t e Hp. split; [|by eapply (cell_store _ _ Hc)].
    apply (cell_mutex _ _ Hc). by rewrite Hp.
  - intros Hter. destruct (ex_mutex (sh st)) as [t|] eqn:Hm; [|done].
    apply (cell_mutex _ _ Hc) in Hm.
    by rewrite (terminal_idle st t Hj Hter) in Hm.
Qed.

Lemma failure_cell_mutex_witness :
  ∃ st0 st,
    async_for_each_init true 10 3 = Some st0
    ∧ run two_throws (take 26 race_schedule) st0 = Some st
    ∧ phase_of (Unit 0) st = Handling (HStore 7%nat)
    ∧ phase_of (Unit 1) st = Handling (HLock 8%nat)
    ∧ ex_mutex (sh st) = Some (Unit 0) ∧ ex_ptr (sh st) = None.
Proof.
  eexists _, _. split; [reflexivity|]. split; [vm_compute; reflexivity|].
  split; [reflexivity|]. split; [reflexivity|].
  match goal with
  | |- ex_mutex (sh ?st) = _ ∧ _ =>
      destruct (failure_cell_mutex two_throws
                  (State shared_init (replicate 3 NotLaunched)
                     (CLaunch (Locals true 10 3 3) 0 0))
                  st (take 26 race_schedule))
        as (_ & _ & Hstore & _)
  end.
  - left. exists true, 10, 3. split; [lia|]. split; [lia|]. reflexivity.
  - vm_compute. reflexivity.
  - apply (Hstore (Unit 0) 7%nat). reflexivity.
Defined.

(** ** A failing element fails the call *)

(** X8: If the callable throws on some element of the range, whatever index and
    thread id come with it, then no run of the dynamic form returns
    normally: every run ends by raising an exception that an invocation of
    the callable, the sink or a [get] threw. *)
Theorem throwing_element_raises (k : callbacks) (ra : bool) (size threads p0 : Z)
    (st0 st : state) (schedule : list owner) :
  1 ≤ size → 1 ≤ threads →
  0 ≤ p0 < size →
  (∀ idx i, f k (ElementCall p0 idx i) ≠ None) →
  async_for_each_init ra size threads = Some st0 →
  run k schedule st0 = Some st →
  caller st ≠ CReturned
  ∧ (terminal st → ∃ e, caller st = CRaised e ∧ thrown k (sh st) e)
  ∧ ∃ e, caller (exec k (measure st) st) = CRaised e.
Proof.
  intros Hsize Hthreads Hp0 Hf Hinit Hrun. apply run_reachable in Hrun as Hr.
  assert (Hstart : call_start st0)
    by (left; exists ra, size, threads; split_and!; [lia..|done]).
  assert (Hnot : ∀ st', reachable k st0 st' → caller st' ≠ CReturned).
  { intros st' Hr' Hret.
    destruct (dynamic_reachable k ra size threads Hsize Hthreads st0 Hinit st' Hr')
      as (Hl & Hce & Hj & Hd).
    pose proof (returned_calls k ra size threads Hsize Hthreads st0 Hinit st' Hr' Hret)
      as Hperm.
    assert (Hin : p0 ∈ call_arg <$> calls (sh st')).
    { rewrite Hperm. apply elem_of_seqZ. lia. }
    apply list_elem_of_fmap in Hin as (c & Hp & Hc).
    destruct (reachable_call_idx k ra size threads Hsize Hthreads st0 Hinit st' c Hr' Hc)
      as (p & i & -> & _). cbn [call_arg] in Hp. subst p.
    apply (returned_not_failed st' Hj Hret). apply (cell_failed _ _ Hce).
    match type of Hc with
    | ?c ∈ _ => destruct (f k c) as [e|] eqn:He; [|by apply Hf in He]
    end.
    exists e. left. eauto. }
  assert (Hraise : ∀ st', reachable k st0 st' → terminal st' →
                          ∃ e, caller st' = CRaised e ∧ thrown k (sh st') e).
  { intros st' Hr' [Hret|[e He]]; [by destruct (Hnot st' Hr')|].
    exists e. split; [done|].
    destruct (fresh_reachable k st0 st' (call_start_fresh _ Hstart) Hr')
      as (_ & Hce & Hj).
    assert (Hres := join_result _ Hj). rewrite He in Hres.
    by apply (cell_origin_ptr _ _ Hce). }
  split_and!; [by apply Hnot|by apply Hraise|].
  assert (Hr' : reachable k st0 (exec k (measure st) st)).
  { unfold reachable in *. etrans; [done|]. apply exec_reachable. }
  destruct (Hraise _ Hr') as (e & He & _); [|by exists e].
  by apply (call_start_complete k st0 st Hstart Hr).
Qed.

Lemma throwing_element_raises_witness :
  ∃ st0,
    (1 ≤ 10 ∧ 1 ≤ 3 ∧ 0 ≤ 4 < 10)
    ∧ async_for_each_init true 10 3 = Some st0
    ∧ ∃ e, caller (exec two_throws (measure st0) st0) = CRaised e.
Proof.
  eexists. split; [lia|]. split; [reflexivity|].
  match goal with
  | |- ∃ e, caller (exec _ _ ?st0) = _ =>
      destruct (throwing_element_raises two_throws true 10 3 4 st0 st0 [])
        as (_ & _ & Hex)
  end.
  - lia.
  - lia.
  - lia.
  - intros idx i. discriminate.
  - reflexivity.
  - reflexivity.
  - exact Hex.
Defined.

(** ** Stepped sequences and their chunks *)

Lemma wrapT_small Tbits x : 0 ≤ x < 2 ^ Tbits → wrapT Tbits x = x.
Proof. intros Hx. unfold wrapT. by apply Z.mod_small. Qed.

Lemma wrap64_small x : 0 ≤ x < 2 ^ 64 → wrap64 x = x.
Proof. intros Hx. unfold wrap64. by apply Z.mod_small. Qed.

(** The number of indices [ceil((Nn - N0) / Ns)]. *)
Lemma total_bounds N0 Nn Ns :
  N0 ≤ Nn → 1 ≤ Ns →
  let total := (Nn - N0 + Ns - 1) / Ns in
  0 ≤ total ∧ Nn - N0 ≤ total * Ns ∧ total * Ns ≤ Nn - N0 + Ns - 1
  ∧ total ≤ Nn - N0.
Proof.
  intros H0 Hs total.
  pose proof (Z.div_mod (Nn - N0 + Ns - 1) Ns ltac:(lia)) as Hdm.
  pose proof (Z.mod_pos_bound (Nn - N0 + Ns - 1) Ns ltac:(lia)) as Hm.
  fold total in Hdm.
  assert (0 ≤ total) by (apply Z.div_pos; lia).
  split_and!; nia.
Qed.

(** X9: [make_stepped_sequence<T, N0, Nn, Ns>] is [N0, N0 + Ns, N0 + 2 Ns, ...]
    below [Nn]: exactly the values of [[N0, Nn)] that are a multiple of [Ns]
    away from [N0], in increasing order. *)
Theorem make_stepped_sequence_spec (Tbits N0 Nn Ns : Z) :
  0 ≤ N0 ≤ Nn → 1 ≤ Ns → Nn < 2 ^ Tbits → Nn - N0 + Ns ≤ 2 ^ 64 →
  make_stepped_sequence Tbits N0 Nn Ns
  = (λ j, N0 + j * Ns) <$> seqZ 0 ((Nn - N0 + Ns - 1) / Ns)
  ∧ (∀ x, x ∈ make_stepped_sequence Tbits N0 Nn Ns
          ↔ N0 ≤ x < Nn ∧ (x - N0) mod Ns = 0)
  ∧ (∀ i j x y, make_stepped_sequence Tbits N0 Nn Ns !! i = Some x →
                make_stepped_sequence Tbits N0 Nn Ns !! j = Some y →
                (i < j)%nat → x < y).
Proof.
  intros H0 Hs Hn H64.
  pose proof (total_bounds N0 Nn Ns ltac:(lia) Hs) as (Ht0 & Ht1 & Ht2 & Ht3).
  cbv zeta in *. set (total := (Nn - N0 + Ns - 1) / Ns) in *.
  assert (Heq : make_stepped_sequence Tbits N0 Nn Ns
                = (λ j, N0 + j * Ns) <$> seqZ 0 total).
  { unfold make_stepped_sequence. rewrite wrap64_small by lia. fold total.
    rewrite wrapT_small by lia.
    apply list_fmap_ext. intros i j [-> Hj]%lookup_seqZ.
    apply wrapT_small. nia. }
  split; [done|]. rewrite Heq. split.
  - intros x. rewrite list_elem_of_fmap. split.
    + intros (j & -> & Hj%elem_of_seqZ). split; [nia|].
      replace (N0 + j * Ns - N0) with (j * Ns) by lia. by apply Z.mod_mul; lia.
    + intros [Hx Hmod]. exists ((x - N0) / Ns).
      pose proof (Z.div_mod (x - N0) Ns ltac:(lia)) as Hdm. rewrite Hmod in Hdm.
      split; [lia|]. apply elem_of_seqZ.
      assert (0 ≤ (x - N0) / Ns) by (apply Z.div_pos; lia). nia.
  - intros i j x y Hi Hj Hlt. rewrite list_lookup_fmap in Hi, Hj.
    destruct (seqZ 0 total !! i) as [a|] eqn:Ha; [|done].
    destruct (seqZ 0 total !! j) as [b|] eqn:Hb; [|done].
    apply lookup_seqZ in Ha as [-> _]. apply lookup_seqZ in Hb as [-> _].
    simpl in Hi, Hj. injection Hi as <-. injection Hj as <-. nia.
Qed.

Lemma make_stepped_sequence_spec_witness :
  (0 ≤ 3 ≤ 20 ∧ 1 ≤ 4 ∧ 20 < 2 ^ 64)
  ∧ make_stepped_sequence 64 3 20 4 = [3; 7; 11; 15; 19].
Proof.
  split; [lia|].
  destruct (make_stepped_sequence_spec 64 3 20 4) as (Heq & _); [lia..|].
  exact Heq.
Defined.

(** The chunk size [ceil(total / Cn)]. *)
Lemma chunk_size_bounds total Cn :
  0 ≤ total → 1 ≤ Cn →
  let cs := (total + Cn - 1) / Cn in
  0 ≤ cs ≤ total ∧ total ≤ Cn * cs ∧ Cn * cs ≤ total + Cn - 1.
Proof.
  intros Ht Hc cs.
  pose proof (Z.div_mod (total + Cn - 1) Cn ltac:(lia)) as Hdm.
  pose proof (Z.mod_pos_bound (total + Cn - 1) Cn ltac:(lia)) as Hm.
  fold cs in Hdm.
  assert (0 ≤ cs) by (apply Z.div_pos; lia).
  split_and!; nia.
Qed.

Section exact_chunks.
Variables Tbits N0 Nn Ns Cn : Z.
Hypothesis HT : 0 ≤ Tbits ≤ 64.
Hypothesis HN : 0 ≤ N0 ≤ Nn.
Hypothesis HNs : 1 ≤ Ns.
Hypothesis Hfit : 2 * (Nn + Ns) ≤ 2 ^ Tbits.
Hypothesis HCn : 1 ≤ Cn < 2 ^ 63.
Local Abbreviation tot := ((Nn - N0 + Ns - 1) / Ns).
Local Abbreviation csz := ((tot + Cn - 1) / Cn).

Lemma exact_pow : 2 ^ Tbits ≤ 2 ^ 64.
Proof. apply Z.pow_le_mono_r; lia. Qed.

(** A worker that starts at or before the end of the sequence. *)
Lemma chunk_of_sequence_exact Ci :
  0 ≤ Ci → Ci * csz ≤ tot →
  chunk_of_sequence Tbits N0 Nn Ns Ci Cn
  = Some (ChunkOfSequence tot csz (Ci * csz) (Z.min csz (tot - Ci * csz))
            (N0 + Ci * csz * Ns)
            (N0 + Ci * csz * Ns + Z.min csz (tot - Ci * csz) * Ns)).
Proof.
  intros HCi Hoff. pose proof exact_pow as Hpow.
  pose proof (total_bounds N0 Nn Ns ltac:(lia) HNs) as (Ht0 & Ht1 & Ht2 & Ht3).
  cbv zeta in *.
  pose proof (chunk_size_bounds tot Cn Ht0 ltac:(lia)) as (Hc0 & Hc1 & Hc2).
  cbv zeta in *.
  unfold chunk_of_sequence.
  destruct (Z.eqb_spec Ns 0); [lia|]. destruct (Z.eqb_spec Cn 0); [lia|].
  cbn [orb].
  rewrite (wrap64_small (Nn - N0 + Ns - 1)) by lia.
  set (total := tot) in *.
  rewrite (wrap64_small (total + Cn - 1)) by lia.
  set (cs := (total + Cn - 1) / Cn) in *.
  rewrite (wrapT_small Tbits cs) by lia.
  rewrite (wrap64_small (Ci * cs)) by lia.
  rewrite (wrapT_small Tbits (Ci * cs)) by lia.
  rewrite (wrapT_small Tbits (Ci * cs + cs)) by lia.
  assert (Hcount : (if Ci * cs + cs >? total
                    then wrapT Tbits (wrap64 (total - Ci * cs)) else cs)
                   = Z.min cs (total - Ci * cs)).
  { destruct (Z.gtb_spec (Ci * cs + cs) total).
    - rewrite wrap64_small, wrapT_small by lia. lia.
    - lia. }
  rewrite Hcount. set (count := Z.min cs (total - Ci * cs)) in *.
  assert (0 ≤ count ≤ total - Ci * cs) by lia.
  assert (Hend : N0 + Ci * cs * Ns + count * Ns ≤ N0 + total * Ns) by nia.
  rewrite (wrap64_small (N0 + Ci * cs * Ns)) by nia.
  rewrite (wrapT_small Tbits (N0 + Ci * cs * Ns)) by nia.
  rewrite (wrap64_small (N0 + Ci * cs * Ns + count * Ns)) by nia.
  rewrite (wrapT_small Tbits (N0 + Ci * cs * Ns + count * Ns)) by nia.
  cbv zeta.
  replace (N0 + Ci * cs * Ns + count * Ns - (N0 + Ci * cs * Ns) + Ns - 1)
    with (count * Ns + (Ns - 1)) by lia.
  assert (Hcn : 0 ≤ count * Ns ≤ total * Ns) by nia.
  rewrite (wrap64_small (count * Ns + (Ns - 1))) by lia.
  rewrite Z.div_add_l by lia. rewrite (Z.div_small (Ns - 1)) by lia.
  rewrite Z.add_0_r.
  destruct (Z.ltb_spec count (2 ^ Tbits)); [|lia].
  destruct (Z.leb_spec count ptrdiff_max); [|unfold ptrdiff_max in *; lia].
  done.
Qed.

Lemma chunk_type_exact Ci :
  0 ≤ Ci → Ci * csz ≤ tot →
  type Tbits Ns <$> chunk_of_sequence Tbits N0 Nn Ns Ci Cn
  = Some ((λ j, N0 + j * Ns) <$> seqZ (Ci * csz) (Z.min csz (tot - Ci * csz))).
Proof.
  intros HCi Hoff. rewrite chunk_of_sequence_exact by done. cbn. f_equal.
  pose proof exact_pow as Hpow.
  pose proof (total_bounds N0 Nn Ns ltac:(lia) HNs) as (Ht0 & Ht1 & Ht2 & Ht3).
  cbv zeta in *.
  pose proof (chunk_size_bounds tot Cn Ht0 ltac:(lia)) as (Hc0 & Hc1 & Hc2).
  cbv zeta in *.
  unfold type. cbn [chunk_start chunk_end].
  set (total := tot) in *. set (cs := (total + Cn - 1) / Cn) in *.
  set (count := Z.min cs (total - Ci * cs)).
  assert (0 ≤ count ≤ total - Ci * cs) by lia.
  assert (Hmul : (Ci * cs + count) * Ns ≤ total * Ns)
    by (apply Z.mul_le_mono_nonneg_r; lia).
  assert (Hlo : 0 ≤ Ci * cs * Ns)
    by (apply Z.mul_nonneg_nonneg; [apply Z.mul_nonneg_nonneg|]; lia).
  assert (Hcn : 0 ≤ count * Ns) by (apply Z.mul_nonneg_nonneg; lia).
  destruct (make_stepped_sequence_spec Tbits (N0 + Ci * cs * Ns)
              (N0 + Ci * cs * Ns + count * Ns) Ns) as (Heq & _); [lia..|].
  rewrite Heq.
  replace (N0 + Ci * cs * Ns + count * Ns - (N0 + Ci * cs * Ns) + Ns - 1)
    with (count * Ns + (Ns - 1)) by lia.
  rewrite Z.div_add_l by lia. rewrite (Z.div_small (Ns - 1)) by lia.
  rewrite Z.add_0_r.
  replace (seqZ (Ci * cs) count) with ((λ j, Ci * cs + j) <$> seqZ 0 count).
  - rewrite <- list_fmap_compose. apply list_fmap_ext. intros; simpl; lia.
  - change (λ j, Ci * cs + j) with (Z.add (Ci * cs)).
    rewrite fmap_add_seqZ. f_equal. lia.
Qed.
End exact_chunks.

(** The index sequences [chunk_of_sequence<T, N0, Nn, Ns, Ci, Cn>::type]
    for [Ci = 0 .. Cn - 1], in worker order. *)
Definition chunk_types (Tbits N0 Nn Ns Cn : Z) : option (list (list Z)) :=
  mapM (λ Ci, type Tbits Ns <$> chunk_of_sequence Tbits N0 Nn Ns Ci Cn)
    (seqZ 0 Cn).

Lemma segments_concat {A} (g : Z → A) (cs total : Z) (n : nat) :
  0 ≤ cs → 0 ≤ total → (Z.of_nat n - 1) * cs ≤ total →
  concat ((λ Ci, g <$> seqZ (Ci * cs) (Z.min cs (total - Ci * cs)))
            <$> seqZ 0 (Z.of_nat n))
  = g <$> seqZ 0 (Z.min (Z.of_nat n * cs) total).
Proof.
  intros Hcs Htot. induction n as [|n IH]; intros Hn.
  - change (Z.of_nat 0) with 0. rewrite Z.mul_0_l.
    replace (Z.min 0 total) with 0 by lia. done.
  - replace (Z.of_nat (S n)) with (Z.of_nat n + 1) in * by lia.
    rewrite seqZ_app by lia. rewrite fmap_app, concat_app, IH by nia.
    change (seqZ (0 + Z.of_nat n) 1) with [0 + Z.of_nat n].
    cbn [fmap list_fmap concat]. rewrite app_nil_r, Z.add_0_l.
    rewrite <- fmap_app. f_equal.
    replace (Z.min (Z.of_nat n * cs) total) with (Z.of_nat n * cs) by nia.
    replace (Z.min ((Z.of_nat n + 1) * cs) total)
      with (Z.of_nat n * cs + Z.min cs (total - Z.of_nat n * cs)) by nia.
    rewrite seqZ_app by nia. do 2 f_equal; lia.
Qed.

(** With at least [(Cn - 1)^2] indices no worker starts past the end. *)
Lemma exact_of_square (total Cn : Z) :
  0 ≤ total → 1 ≤ Cn → (Cn - 1) * (Cn - 1) ≤ total →
  (Cn - 1) * ((total + Cn - 1) / Cn) ≤ total.
Proof.
  intros Ht HCn Hsq.
  pose proof (chunk_size_bounds total Cn Ht HCn) as (Hc0 & Hc1 & Hc2).
  cbv zeta in *. set (cs := (total + Cn - 1) / Cn) in *.
  destruct (decide ((Cn - 1) * cs ≤ total)) as [?|Hgt]; [done|exfalso].
  assert (cs ≤ Cn - 2) by nia.
  assert ((Cn - 1) * cs ≤ (Cn - 1) * (Cn - 2)) by (apply Z.mul_le_mono_nonneg_l; lia).
  nia.
Qed.

(** X10: When no worker starts past the end of the sequence,
    [(Cn - 1) * chunk_size <= total], as is the case with at least
    [(Cn - 1)^2] indices, the chunks partition the stepped sequence: worker
    [Ci] gets [min(chunk_size, total - Ci * chunk_size)] indices, and the
    sequences of the workers, one after the other, are the whole
    sequence. *)
Theorem chunk_types_partition (Tbits N0 Nn Ns Cn : Z) :
  0 ≤ Tbits ≤ 64 → 0 ≤ N0 ≤ Nn → 1 ≤ Ns → 2 * (Nn + Ns) ≤ 2 ^ Tbits →
  1 ≤ Cn < 2 ^ 63 →
  (Cn - 1) * (((Nn - N0 + Ns - 1) / Ns + Cn - 1) / Cn) ≤ (Nn - N0 + Ns - 1) / Ns →
  (∀ Ci, 0 ≤ Ci < Cn →
     ∃ c, chunk_of_sequence Tbits N0 Nn Ns Ci Cn = Some c
          ∧ total c = (Nn - N0 + Ns - 1) / Ns
          ∧ 0 ≤ count c ≤ chunk_size c
          ∧ offset c + count c ≤ total c
          ∧ Z.of_nat (length (type Tbits Ns c)) = count c
          ∧ (Ci < Cn - 1 → count c = chunk_size c)
          ∧ (Ci = Cn - 1 → offset c + count c = total c))
  ∧ ∃ ls, chunk_types Tbits N0 Nn Ns Cn = Some ls
          ∧ concat ls = make_stepped_sequence Tbits N0 Nn Ns.
Proof.
  intros HT HN HNs Hfit HCn Hex.
  pose proof (total_bounds N0 Nn Ns ltac:(lia) HNs) as (Ht0 & Ht1 & Ht2 & Ht3).
  cbv zeta in *. set (tt := (Nn - N0 + Ns - 1) / Ns) in *.
  pose proof (chunk_size_bounds tt Cn Ht0 ltac:(lia)) as (Hc0 & Hc1 & Hc2).
  cbv zeta in *. set (cs := (tt + Cn - 1) / Cn) in *.
  assert (Hoff : ∀ Ci, 0 ≤ Ci < Cn → Ci * cs ≤ tt) by (intros; nia).
  split.
  - subst cs tt. intros Ci HCi. pose proof (Hoff Ci HCi) as Ho.
    pose proof (chunk_of_sequence_exact Tbits N0 Nn Ns Cn HT HN HNs Hfit HCn Ci
                  ltac:(lia) Ho) as Hc.
    pose proof (chunk_type_exact Tbits N0 Nn Ns Cn HT HN HNs Hfit HCn Ci
                  ltac:(lia) Ho) as Hty.
    rewrite Hc in Hty. cbn [fmap option_fmap option_map] in Hty.
    injection Hty as Hty.
    eexists. split; [exact Hc|]. rewrite Hty.
    cbn [total chunk_size offset count].
    rewrite length_fmap, length_seqZ.
    split; [done|]. split; [lia|]. split; [lia|]. split; [lia|].
    split; intros; nia.
  - exists ((λ Ci, (λ j, N0 + j * Ns) <$> seqZ (Ci * cs) (Z.min cs (tt - Ci * cs)))
            <$> seqZ 0 Cn).
    split.
    + unfold chunk_types. apply mapM_Some. apply Forall2_fmap_r.
      apply Forall_Forall2_diag, Forall_forall.
      intros Ci HCi%elem_of_seqZ.
      apply (chunk_type_exact Tbits N0 Nn Ns Cn HT HN HNs Hfit HCn Ci ltac:(lia)).
      apply Hoff. lia.
    + destruct (make_stepped_sequence_spec Tbits N0 Nn Ns) as (-> & _);
        [lia|lia|lia|pose proof (exact_pow Tbits HT); lia|].
      fold tt. rewrite <- (Z2Nat.id Cn) by lia.
      rewrite segments_concat by lia.
      rewrite Z2Nat.id by lia. f_equal. f_equal. lia.
Qed.

Lemma chunk_types_partition_witness :
  (0 ≤ 64 ≤ 64 ∧ 0 ≤ 0 ≤ 100 ∧ 1 ≤ 1 ∧ 1 ≤ 3 < 2 ^ 63)
  ∧ chunk_types 64 0 100 1 3 = Some [seqZ 0 34; seqZ 34 34; seqZ 68 32]
  ∧ ∃ ls, chunk_types 64 0 100 1 3 = Some ls
          ∧ concat ls = make_stepped_sequence 64 0 100 1.
Proof.
  split; [lia|]. split; [by vm_compute|].
  apply (chunk_types_partition 64 0 100 1 3); try lia; by vm_compute.
Defined.




(** X12: What unit [Ci] of the compile-time form passes to the callable when it
    starts at or before the end of the sequence: [for_each_index] is
    instantiated with [chunk_start] in the place of its step and adds it to
    every index, so each value passed is the index of the unit's chunk plus
    [chunk_start].  The values are the indices of the chunk only for a unit
    whose [chunk_start] is zero or whose chunk is empty. *)
Theorem unit_indices_shifted (Tbits N0 Nn Ns Ci Cn : Z) :
  0 ≤ Tbits ≤ 64 → 0 ≤ N0 ≤ Nn → 1 ≤ Ns → 2 * (Nn + Ns) ≤ 2 ^ Tbits →
  1 ≤ Cn < 2 ^ 63 → 0 ≤ Ci →
  Ci * (((Nn - N0 + Ns - 1) / Ns + Cn - 1) / Cn) ≤ (Nn - N0 + Ns - 1) / Ns →
  ∃ c chunk,
    chunk_of_sequence Tbits N0 Nn Ns Ci Cn = Some c
    ∧ type Tbits Ns c = chunk
    ∧ chunk = (λ j, chunk_start c + j * Ns) <$> seqZ 0 (count c)
    ∧ unit_indices Tbits N0 Nn Ns Ci Cn = Some ((λ I0, I0 + chunk_start c) <$> chunk)
    ∧ (chunk_start c = 0 ∨ count c = 0 →
       unit_indices Tbits N0 Nn Ns Ci Cn = Some chunk)
    ∧ (0 < chunk_start c → 0 < count c →
       unit_indices Tbits N0 Nn Ns Ci Cn ≠ Some chunk).
Proof.
  intros HT HN HNs Hfit HCn HCi Hoff.
  pose proof (exact_pow Tbits HT) as Hpow.
  pose proof (total_bounds N0 Nn Ns ltac:(lia) HNs) as (Ht0 & Ht1 & Ht2 & Ht3).
  cbv zeta in *.
  pose proof (chunk_size_bounds _ Cn Ht0 ltac:(lia)) as (Hc0 & Hc1 & Hc2).
  cbv zeta in *.
  pose proof (chunk_of_sequence_exact Tbits N0 Nn Ns Cn HT HN HNs Hfit HCn Ci
                HCi Hoff) as Hc.
  pose proof (chunk_type_exact Tbits N0 Nn Ns Cn HT HN HNs Hfit HCn Ci
                HCi Hoff) as Hty.
  rewrite Hc in Hty. cbn [fmap option_fmap option_map] in Hty.
  injection Hty as Hty.
  set (tt := (Nn - N0 + Ns - 1) / Ns) in *.
  set (cs := (tt + Cn - 1) / Cn) in *.
  set (cnt := Z.min cs (tt - Ci * cs)) in *.
  assert (Hcnt : 0 ≤ cnt ≤ tt - Ci * cs) by lia.
  assert (Hmul : (Ci * cs + cnt) * Ns ≤ tt * Ns)
    by (apply Z.mul_le_mono_nonneg_r; lia).
  assert (Hlo : 0 ≤ Ci * cs * Ns)
    by (apply Z.mul_nonneg_nonneg; [apply Z.mul_nonneg_nonneg|]; lia).
  eexists _, _. split; [exact Hc|]. split; [reflexivity|].
  cbn [chunk_start count].
  assert (Hchunk : type Tbits Ns
                     (ChunkOfSequence tt cs (Ci * cs) cnt (N0 + Ci * cs * Ns)
                        (N0 + Ci * cs * Ns + cnt * Ns))
                   = (λ j, N0 + Ci * cs * Ns + j * Ns) <$> seqZ 0 cnt).
  { rewrite Hty. change (seqZ (Ci * cs) cnt) with (seqZ (Ci * cs) cnt).
    rewrite <- (Z.add_0_r (Ci * cs)) at 1. rewrite <- fmap_add_seqZ.
    rewrite <- list_fmap_compose. apply list_fmap_ext. intros; simpl; lia. }
  assert (Hunit : unit_indices Tbits N0 Nn Ns Ci Cn
                  = Some ((λ I0, I0 + (N0 + Ci * cs * Ns))
                          <$> ((λ j, N0 + Ci * cs * Ns + j * Ns) <$> seqZ 0 cnt))).
  { unfold unit_indices. rewrite Hc. cbn [mbind option_bind chunk_start].
    rewrite Hchunk. f_equal. unfold for_each_index.
    apply list_fmap_ext. intros i x Hx. apply wrapT_small.
    rewrite list_lookup_fmap in Hx.
    destruct (seqZ 0 cnt !! i) as [j|] eqn:Hj; [|done].
    apply lookup_seqZ in Hj as [-> Hi]. injection Hx as <-.
    assert (Z.of_nat i * Ns ≤ cnt * Ns) by (apply Z.mul_le_mono_nonneg_r; lia).
    lia. }
  split; [exact Hchunk|]. rewrite Hchunk. split; [exact Hunit|].
  rewrite Hunit. split.
  - intros [Hz|Hz].
    + f_equal. rewrite Hz. rewrite <- (list_fmap_id ((λ j, 0 + j * Ns) <$> seqZ 0 cnt)) at 2.
      apply list_fmap_ext. intros; simpl; lia.
    + by rewrite Hz.
  - intros Hs Hn [= Heq].
    destruct (Z.to_nat cnt) as [|n] eqn:Hnat; [lia|].
    unfold seqZ in Heq. rewrite Hnat in Heq. cbn in Heq.
    injection Heq as Heq _. lia.
Qed.

Lemma unit_indices_shifted_witness :
  (0 ≤ 64 ≤ 64 ∧ 0 ≤ 0 ≤ 100 ∧ 1 ≤ 3 < 2 ^ 63)
  ∧ ∃ c, chunk_of_sequence 64 0 100 1 1 3 = Some c
      ∧ chunk_start c = 34
      ∧ unit_indices 64 0 100 1 1 3 = Some ((λ I0, I0 + 34) <$> type 64 1 c).
Proof.
  split; [lia|].
  destruct (unit_indices_shifted 64 0 100 1 1 3)
    as (c & chunk & Hc & Hty & _ & Hu & _); [lia|lia|lia|lia|lia|lia|by vm_compute|].
  exists c. split; [exact Hc|]. rewrite Hty.
  assert (Hs : chunk_start c = 34) by (vm_compute in Hc; by injection Hc as <-).
  split; [exact Hs|]. by rewrite <- Hs.
Defined.

(** ** What the units of the compile-time form invoke *)

(** Without a launch loop the units and their tasks stay as they are. *)
Definition same_tasks (st st' : state) : Prop :=
  length (futures st') = length (futures st)
  ∧ ∀ i tk, (∃ pc, futures st !! i = Some (Launched tk pc))
            ↔ (∃ pc, futures st' !! i = Some (Launched tk pc)).

Lemma same_tasks_step k st st' :
  step k st st' → no_launch st → same_tasks st st'.
Proof.
  intros [[|j] Hs] Hn.
  - simpl in Hs. apply caller_step_frame in Hs
      as [(l & i & cb & Hcl & _)|(Hfs & _)]; [by destruct (Hn l i cb)|].
    unfold same_tasks. rewrite Hfs. done.
  - apply unit_step_inv in Hs as (tk & pc & s' & pc' & Hj & _ & ->).
    assert (Hlt := lookup_lt_Some _ _ _ Hj).
    split; cbn [futures]; [by rewrite length_insert|].
    intros i tk'. destruct (decide (i = j)) as [->|Hne].
    + rewrite list_lookup_insert_eq by done. rewrite Hj.
      split; intros [pc0 [= <- _]]; eauto.
    + by rewrite list_lookup_insert_ne.
Qed.

Lemma same_tasks_reachable k st st' :
  reachable k st st' → no_launch st → same_tasks st st'.
Proof.
  induction 1 as [st|st st1 st2 Hs _ IH]; intros Hn; [done|].
  destruct (same_tasks_step k st st1 Hs Hn) as [Hl1 Ht1].
  destruct (IH (no_launch_step k st st1 Hs Hn)) as [Hl2 Ht2].
  split; [congruence|]. intros i tk. by rewrite Ht1.
Qed.

Lemma concat_indicator {A} (x : A) (j n : nat) :
  (j < n)%nat →
  concat ((λ i, if decide (j = i) then [x] else []) <$> seq 0 n) = [x].
Proof.
  intros Hj. replace n with (j + S (n - S j))%nat by lia.
  rewrite seq_app, fmap_app, concat_app. cbn [seq fmap list_fmap concat].
  rewrite decide_True by done.
  assert (Hl : ∀ m, concat ((λ i, if decide (j = i) then [x] else []) <$> seq 0 m)
                    = if decide (j < m)%nat then [x] else []).
  { induction m as [|m IHm]; [done|].
    rewrite seq_S, fmap_app, concat_app, IHm. cbn.
    repeat case_decide; try done; lia. }
  rewrite Hl, decide_False by lia.
  assert (Hr : ∀ m b, (j < b)%nat →
            concat ((λ i, if decide (j = i) then [x] else []) <$> seq b m) = []).
  { induction m as [|m IHm]; intros b Hb; [done|]. cbn.
    rewrite decide_False by lia. by apply IHm; lia. }
  rewrite Hr by lia. done.
Qed.

Lemma concat_app_perm {A} (g h : nat → list A) (l : list nat) :
  concat ((λ i, g i ++ h i) <$> l) ≡ₚ concat (g <$> l) ++ concat (h <$> l).
Proof.
  induction l as [|i l IH]; [done|]. cbn. rewrite IH.
  rewrite <- !app_assoc. apply Permutation_app_head.
  rewrite !app_assoc. apply Permutation_app_tail, Permutation_app_comm.
Qed.

(** A log of invocations is, up to the interleaving, the logs of the
    threads one after the other. *)
Lemma calls_by_thread (l : list call) (n : nat) :
  (∀ c, c ∈ l → (call_thread c < n)%nat) →
  l ≡ₚ concat ((λ i, filter (λ c, call_thread c = i) l) <$> seq 0 n).
Proof.
  induction l as [|c l IH]; intros Hth.
  - induction (seq 0 n) as [|i s IHs]; [done|]. done.
  - assert (Hc : (call_thread c < n)%nat) by (apply Hth; by left).
    assert (Heq : (λ i, filter (λ c, call_thread c = i) (c :: l))
                  <$> seq 0 n
                  = (λ i, (if decide (call_thread c = i) then [c] else [])
                          ++ filter (λ c, call_thread c = i) l) <$> seq 0 n).
    { apply list_fmap_ext. intros _ i _. rewrite filter_cons.
      by destruct (decide (call_thread c = i)). }
    rewrite Heq, concat_app_perm, concat_indicator by done.
    cbn. constructor. apply IH. intros c' Hc'. apply Hth. by right.
Qed.

Section static_runs.
Variable k : callbacks.
Variables Tbits N0 Nn Ns threads : Z.
Variable st0 : state.
Hypothesis Hinit : async_for_each_index_init Tbits N0 Nn Ns threads = Some st0.

Lemma static_unit st i :
  reachable k st0 st → (i < Z.to_nat threads)%nat →
  ∃ args pc,
    unit_indices Tbits N0 Nn Ns (Z.of_nat i) threads = Some args
    ∧ futures st !! i = Some (Launched (IndexTask args) pc).
Proof.
  intros Hr Hi.
  destruct (async_for_each_index_init_units _ _ _ _ _ _ Hinit)
    as (Hsh & Hc & Hlen & Hu).
  destruct (lookup_lt_is_Some_2 (futures st0) i ltac:(lia)) as [fut Hfut].
  destruct (Hu i fut Hfut) as (args & Ha & ->).
  assert (Hn : no_launch st0) by (intros l j cb; by rewrite Hc).
  destruct (same_tasks_reachable k st0 st Hr Hn) as [_ Hsame].
  destruct (proj1 (Hsame i (IndexTask args)) ltac:(eauto)) as [pc Hpc].
  eauto.
Qed.

Lemma static_calls_thread st c :
  reachable k st0 st → c ∈ calls (sh st) →
  (call_thread c < Z.to_nat threads)%nat.
Proof.
  intros Hr Hc.
  destruct (async_for_each_index_init_units _ _ _ _ _ _ Hinit)
    as (Hsh & Hcl & Hlen & Hu).
  assert (Hn : no_launch st0) by (intros l j cb; by rewrite Hcl).
  destruct (same_tasks_reachable k st0 st Hr Hn) as [Hl Hsame].
  assert (Hstart : call_start st0) by (right; eauto 10).
  destruct (call_start_script k st0 st Hstart Hr) as [_ Hidle].
  destruct (decide (call_thread c < Z.to_nat threads)%nat) as [|Hge]; [done|].
  exfalso. assert (Hnil : unit_calls (call_thread c) (sh st) = []).
  { apply Hidle. intros tk pc Hf. apply lookup_lt_Some in Hf. lia. }
  assert (Hin : c ∈ unit_calls (call_thread c) (sh st))
    by (by apply list_elem_of_filter).
  rewrite Hnil in Hin. by apply elem_of_nil in Hin.
Qed.

Lemma static_unit_calls st i args :
  reachable k st0 st → (i < Z.to_nat threads)%nat →
  unit_indices Tbits N0 Nn Ns (Z.of_nat i) threads = Some args →
  ∃ n, unit_calls i (sh st) = (λ I0, IndexCall I0 i) <$> take n args
       ∧ (caller st = CReturned →
          unit_calls i (sh st) = (λ I0, IndexCall I0 i) <$> args).
Proof.
  intros Hr Hi Ha.
  destruct (static_unit st i Hr Hi) as (args' & pc & Ha' & Hf).
  rewrite Ha in Ha'. injection Ha' as <-.
  assert (Hstart : call_start st0) by (right; eauto 10).
  destruct (call_start_script k st0 st Hstart Hr) as [Hu _].
  destruct (Hu i _ pc Hf) as (rest & Hscr & Hah). cbn [script] in Hscr.
  exists (length (unit_calls i (sh st))). split.
  - rewrite fmap_take, Hscr. by rewrite take_app_length.
  - intros Hret.
    destruct (fresh_reachable k st0 st (call_start_fresh _ Hstart) Hr)
      as (_ & _ & Hj).
    destruct (terminal_joined st Hj (or_introl Hret)) as [_ Hdone].
    destruct (Hdone i) as [tk Htk]; [by eapply lookup_lt_Some|].
    rewrite Hf in Htk. injection Htk as _ ->.
    assert (Hres := join_result _ Hj). rewrite Hret in Hres.
    simpl in Hah. destruct Hah as [->|Hne]; [|done].
    by rewrite app_nil_r in Hscr.
Qed.
End static_runs.

(** The argument lists of the units of
    [async_for_each<T, N0, Nn, Ns, threads>], in worker order. *)
Definition all_unit_indices (Tbits N0 Nn Ns threads : Z) : option (list (list Z)) :=
  mapM (λ Ci, unit_indices Tbits N0 Nn Ns Ci threads) (seqZ 0 threads).

(** X13: The compile-time form, in every state of every run: unit [i] has
    invoked the callable on a prefix of the values [for_each_index] unrolls
    for it, in their order and with [i] as the thread id, and nothing else
    has been invoked.  When the call returns normally every unit has gone
    through all of its values, so that the invocations are those of the
    units taken together, each made once. *)
Theorem static_unit_order (k : callbacks) (Tbits N0 Nn Ns threads : Z)
    (st0 st : state) (schedule : list owner) :
  async_for_each_index_init Tbits N0 Nn Ns threads = Some st0 →
  run k schedule st0 = Some st →
  (∀ c, c ∈ calls (sh st) → Z.of_nat (call_thread c) < threads)
  ∧ (∀ i, Z.of_nat i < threads →
       ∃ args n,
         unit_indices Tbits N0 Nn Ns (Z.of_nat i) threads = Some args
         ∧ unit_calls i (sh st) = (λ I0, IndexCall I0 i) <$> take n args
         ∧ (caller st = CReturned →
            unit_calls i (sh st) = (λ I0, IndexCall I0 i) <$> args))
  ∧ (caller st = CReturned →
     ∃ argss, all_unit_indices Tbits N0 Nn Ns threads = Some argss
              ∧ call_arg <$> calls (sh st) ≡ₚ concat argss).
Proof.
  intros Hinit Hrun. apply run_reachable in Hrun as Hr.
  assert (Hth : ∀ c, c ∈ calls (sh st) → (call_thread c < Z.to_nat threads)%nat)
    by (intros c; by apply (static_calls_thread k Tbits N0 Nn Ns threads st0 Hinit)).
  split_and!.
  - intros c Hc%Hth. lia.
  - intros i Hi.
    destruct (static_unit k Tbits N0 Nn Ns threads st0 Hinit st i Hr ltac:(lia))
      as (args & pc & Ha & _).
    destruct (static_unit_calls k Tbits N0 Nn Ns threads st0 Hinit st i args Hr
                ltac:(lia) Ha) as (n & Hn & Hret).
    by exists args, n.
  - intros Hret.
    assert (Hall : ∀ Ci, Ci ∈ seqZ 0 threads →
              ∃ args, unit_indices Tbits N0 Nn Ns Ci threads = Some args
                      ∧ unit_calls (Z.to_nat Ci) (sh st)
                        = (λ I0, IndexCall I0 (Z.to_nat Ci)) <$> args).
    { intros Ci HCi%elem_of_seqZ.
      destruct (static_unit k Tbits N0 Nn Ns threads st0 Hinit st (Z.to_nat Ci) Hr
                  ltac:(lia)) as (args & pc & Ha & _).
      destruct (static_unit_calls k Tbits N0 Nn Ns threads st0 Hinit st
                  (Z.to_nat Ci) args Hr ltac:(lia) Ha) as (n & _ & Hfull).
      rewrite Z2Nat.id in Ha by lia. exists args. split; [done|by apply Hfull]. }
    assert (Hsome : is_Some (all_unit_indices Tbits N0 Nn Ns threads)).
    { apply mapM_is_Some, Forall_forall. intros Ci HCi.
      destruct (Hall Ci HCi) as (args & Ha & _). cbn. rewrite Ha. by eexists. }
    destruct Hsome as [argss Hargss]. exists argss. split; [done|].
    rewrite (calls_by_thread (calls (sh st)) (Z.to_nat threads) Hth).
    apply mapM_Some in Hargss.
    assert (Heq : (λ i, filter (λ c, call_thread c = i) (calls (sh st)))
                  <$> seq 0 (Z.to_nat threads)
                  = imap (λ i args, (λ I0, IndexCall I0 i) <$> args) argss).
    { apply list_eq. intros i. rewrite list_lookup_fmap, list_lookup_imap.
      destruct (decide (i < Z.to_nat threads)%nat) as [Hi|Hi].
      - rewrite lookup_seq_lt by done. cbn.
        destruct (Hall (Z.of_nat i)) as (args & Ha & Hc);
          [apply elem_of_seqZ; lia|].
        rewrite Nat2Z.id in Hc.
        assert (Hl : argss !! i = Some args).
        { destruct (Forall2_lookup_l _ _ _ i (Z.of_nat i) Hargss) as (a & Hai & Hu).
          - apply lookup_seqZ. lia.
          - rewrite Ha in Hu. by injection Hu as <-. }
        rewrite Hl. cbn. f_equal. exact Hc.
      - rewrite lookup_seq_ge by lia.
        apply Forall2_length in Hargss. rewrite length_seqZ in Hargss.
        rewrite (lookup_ge_None_2 argss) by lia. done. }
    rewrite Heq. clear.
    assert (Hgen : ∀ h : nat → nat,
              call_arg <$> concat (imap (λ i args, (λ I0, IndexCall I0 (h i)) <$> args) argss)
              = concat argss).
    { induction argss as [|args argss IH]; intros h; [done|].
      rewrite imap_cons. cbn [concat]. rewrite fmap_app. f_equal.
      - rewrite <- list_fmap_compose. rewrite <- (list_fmap_id args) at 2.
        by apply list_fmap_ext.
      - apply (IH (h ∘ S)). }
    by rewrite <- (Hgen id).
Qed.

Lemma static_unit_order_witness :
  ∃ st0 st,
    async_for_each_index_init 64 0 100 1 3 = Some st0
    ∧ run no_throw
        (replicate 36 (Unit 1) ++ replicate 34 (Unit 2) ++ replicate 36 (Unit 0)
         ++ replicate 6 Caller) st0 = Some st
    ∧ caller st = CReturned
    ∧ call_arg <$> calls (sh st) ≡ₚ seqZ 0 34 ++ seqZ 68 34 ++ seqZ 136 32.
Proof.
  eexists _, _. split; [reflexivity|]. split; [vm_compute; reflexivity|].
  split; [reflexivity|].
  match goal with
  | |- call_arg <$> calls (sh ?st) ≡ₚ _ =>
      destruct (static_unit_order no_throw 64 0 100 1 3
                  (State shared_init
                     ((λ args, Launched (IndexTask args) SStart)
                        <$> [seqZ 0 34; seqZ 68 34; seqZ 136 32])
                     (CGet 0))
                  st
                  (replicate 36 (Unit 1) ++ replicate 34 (Unit 2)
                   ++ replicate 36 (Unit 0) ++ replicate 6 Caller))
        as (_ & _ & Hret)
  end.
  - by vm_compute.
  - vm_compute. reflexivity.
  - destruct Hret as (argss & Ha & Hp); [reflexivity|].
    vm_compute in Ha. injection Ha as <-. exact Hp.
Defined.

Lemma unit_indices_length Tbits N0 Nn Ns Ci Cn args :
  unit_indices Tbits N0 Nn Ns Ci Cn = Some args →
  ∃ c, chunk_of_sequence Tbits N0 Nn Ns Ci Cn = Some c
       ∧ length args = length (type Tbits Ns c).
Proof.
  unfold unit_indices. destruct (chunk_of_sequence _ _ _ _ _ _) as [c|]; [|done].
  cbn. intros [= <-]. exists c. split; [done|].
  unfold for_each_index. by rewrite length_fmap.
Qed.

Lemma all_unit_indices_lengths Tbits N0 Nn Ns Cn argss tys :
  all_unit_indices Tbits N0 Nn Ns Cn = Some argss →
  chunk_types Tbits N0 Nn Ns Cn = Some tys →
  length (concat argss) = length (concat tys).
Proof.
  unfold all_unit_indices, chunk_types. intros Ha%mapM_Some Ht%mapM_Some.
  revert tys Ht. induction Ha as [|Ci args Cis argss Hu _ IH]; intros tys Ht.
  - by apply Forall2_nil_inv_l in Ht as ->.
  - apply Forall2_cons_inv_l in Ht as (ty & tys' & Hty & Htys & ->).
    cbn. rewrite !length_app, (IH tys' Htys). f_equal.
    destruct (unit_indices_length _ _ _ _ _ _ _ Hu) as (c & Hc & Hl).
    rewrite Hc in Hty. cbn in Hty. injection Hty as <-. done.
Qed.

(** X14: When no worker starts past the end of the sequence, a call of the
    compile-time form that returns normally has invoked the callable as
    many times as the stepped sequence has indices, as
    [test_compile_time_dispatch] asserts, whatever values it passed. *)
Theorem static_call_count (k : callbacks) (Tbits N0 Nn Ns threads : Z)
    (st0 st : state) (schedule : list owner) :
  0 ≤ Tbits ≤ 64 → 0 ≤ N0 ≤ Nn → 1 ≤ Ns → 2 * (Nn + Ns) ≤ 2 ^ Tbits →
  1 ≤ threads < 2 ^ 63 →
  (threads - 1) * (((Nn - N0 + Ns - 1) / Ns + threads - 1) / threads)
  ≤ (Nn - N0 + Ns - 1) / Ns →
  async_for_each_index_init Tbits N0 Nn Ns threads = Some st0 →
  run k schedule st0 = Some st →
  caller st = CReturned →
  length (calls (sh st)) = length (make_stepped_sequence Tbits N0 Nn Ns)
  ∧ Z.of_nat (length (calls (sh st))) = (Nn - N0 + Ns - 1) / Ns.
Proof.
  intros HT HN HNs Hfit HCn Hex Hinit Hrun Hret.
  destruct (static_unit_order k Tbits N0 Nn Ns threads st0 st schedule Hinit Hrun)
    as (_ & _ & Hall).
  destruct (Hall Hret) as (argss & Ha & Hperm).
  destruct (chunk_types_partition Tbits N0 Nn Ns threads HT HN HNs Hfit HCn Hex)
    as (_ & tys & Ht & Hcat).
  assert (Hlen : length (calls (sh st)) = length (make_stepped_sequence Tbits N0 Nn Ns)).
  { rewrite <- (length_fmap call_arg), Hperm.
    rewrite (all_unit_indices_lengths _ _ _ _ _ _ _ Ha Ht). by rewrite Hcat. }
  split; [done|]. rewrite Hlen.
  destruct (make_stepped_sequence_spec Tbits N0 Nn Ns) as (-> & _);
    [lia|lia|lia|pose proof (exact_pow Tbits HT); lia|].
  rewrite length_fmap, length_seqZ.
  pose proof (total_bounds N0 Nn Ns ltac:(lia) HNs) as (Ht0 & _). cbv zeta in Ht0. lia.
Qed.

Lemma static_call_count_witness :
  ∃ st0 st,
    (0 ≤ 64 ≤ 64 ∧ 0 ≤ 0 ≤ 100 ∧ 1 ≤ 3 < 2 ^ 63)
    ∧ async_for_each_index_init 64 0 100 1 3 = Some st0
    ∧ run no_throw
        (replicate 36 (Unit 1) ++ replicate 34 (Unit 2) ++ replicate 36 (Unit 0)
         ++ replicate 6 Caller) st0 = Some st
    ∧ Z.of_nat (length (calls (sh st))) = 100.
Proof.
  eexists _, _. split; [lia|]. split; [reflexivity|].
  split; [vm_compute; reflexivity|].
  match goal with
  | |- Z.of_nat (length (calls (sh ?st))) = _ =>
      destruct (static_call_count no_throw 64 0 100 1 3
                  (State shared_init
                     ((λ args, Launched (IndexTask args) SStart)
                        <$> [seqZ 0 34; seqZ 68 34; seqZ 136 32])
                     (CGet 0))
                  st
                  (replicate 36 (Unit 1) ++ replicate 34 (Unit 2)
                   ++ replicate 36 (Unit 0) ++ replicate 6 Caller))
        as (_ & Hn)
  end.
  - lia.
  - lia.
  - lia.
  - by vm_compute.
  - lia.
  - by vm_compute.
  - by vm_compute.
  - vm_compute. reflexivity.
  - reflexivity.
  - exact Hn.
Defined.

(** ** One worker, and more workers than elements *)

Lemma unit_calls_all (s : shared) (i : nat) :
  (∀ c, c ∈ calls s → call_thread c = i) → unit_calls i s = calls s.
Proof.
  unfold unit_calls. induction (calls s) as [|c l IH]; intros Hall; [done|].
  rewrite filter_cons, decide_True by (apply Hall; by left).
  f_equal. apply IH. intros c' Hc'. apply Hall. by right.
Qed.

(** X15: With one worker the dynamic form is a sequential [for_each]: when the
    call returns normally the callable has been applied to the elements in
    their order, each with its position as index and 0 as thread id. *)
Theorem dynamic_single_worker (k : callbacks) (ra : bool) (size : Z)
    (st0 st : state) (schedule : list owner) :
  1 ≤ size ≤ ptrdiff_max →
  async_for_each_init ra size 1 = Some st0 →
  run k schedule st0 = Some st →
  (∃ m, 0 ≤ m ≤ size
        ∧ calls (sh st) = (λ p, ElementCall p p 0) <$> seqZ 0 m)
  ∧ (caller st = CReturned →
     calls (sh st) = (λ p, ElementCall p p 0) <$> seqZ 0 size).
Proof.
  intros Hsize Hinit Hrun.
  destruct (dynamic_unit_order k ra size 1 st0 st schedule 0 ltac:(lia) ltac:(lia)
              Hinit Hrun ltac:(lia)) as (m & Hm & Hcalls & Hret).
  replace (Z.min 1 size) with 1 in * by lia.
  assert (Hc : chunk_at size 1 0 = Chunk 0 size 0).
  { unfold chunk_at. cbn. rewrite Z.div_1_r. done. }
  rewrite Hc in *. unfold chunk_len in *. cbn [local_chunk_begin local_chunk_end] in *.
  assert (Hall : unit_calls 0 (sh st) = calls (sh st)).
  { apply unit_calls_all. intros c Hin. apply run_reachable in Hrun.
    destruct (reachable_call_idx k ra size 1 ltac:(lia) ltac:(lia) st0 Hinit st c Hrun Hin)
      as (p & i & -> & Hi & _). cbn. lia. }
  rewrite Hall in Hcalls.
  assert (Hidx : ∀ n, 0 ≤ n ≤ size →
            (λ it, ElementCall it (idx_at (Chunk 0 size 0) it) 0) <$> seqZ 0 n
            = (λ p, ElementCall p p 0) <$> seqZ 0 n).
  { intros n Hn. apply list_fmap_ext. intros j p [-> Hp]%lookup_seqZ.
    f_equal. unfold idx_at. cbn. rewrite Z.sub_0_r.
    apply wrap64_small. unfold ptrdiff_max in Hsize. lia. }
  split.
  - exists m. split; [lia|]. rewrite Hcalls. apply Hidx. lia.
  - intros Hr. rewrite Hcalls, (Hret Hr). replace (size - 0) with size by lia.
    apply Hidx. lia.
Qed.

Lemma dynamic_single_worker_witness :
  ∃ st0 st,
    (1 ≤ 3 ≤ ptrdiff_max)
    ∧ async_for_each_init false 3 1 = Some st0
    ∧ run no_throw ([Caller; Caller] ++ replicate 5 (Unit 0)) st0 = Some st
    ∧ ∃ m, 0 ≤ m ≤ 3 ∧ calls (sh st) = (λ p, ElementCall p p 0) <$> seqZ 0 m.
Proof.
  eexists _, _. split; [by vm_compute|]. split; [reflexivity|].
  split; [vm_compute; reflexivity|].
  match goal with
  | |- ∃ m, _ ∧ calls (sh ?st) = _ =>
      destruct (dynamic_single_worker no_throw false 3
                  (State shared_init [NotLaunched] (CLaunch (Locals false 3 1 3) 0 0))
                  st ([Caller; Caller] ++ replicate 5 (Unit 0)))
        as (Hm & _)
  end.
  - by vm_compute.
  - reflexivity.
  - vm_compute. reflexivity.
  - exact Hm.
Defined.

(** X16: A thread count of [size] or more launches one unit per element: [size]
    chunks of one element, chunk [i] being element [i] with index [i]. *)
Theorem more_threads_than_elements (ra : bool) (size threads : Z) :
  1 ≤ size → size ≤ threads →
  async_for_each_entry size threads = Dispatch size 1
  ∧ chunks_of ra size threads
    = Some ((λ i, Chunk i (i + 1) (wrap64 i)) <$> seqZ 0 size).
Proof.
  intros Hsize Hth. split.
  - unfold async_for_each_entry. destruct (Z.eqb_spec size 0); [lia|].
    replace (Z.min threads size) with size by lia.
    destruct (Z.eqb_spec size 0); [lia|]. by rewrite Z.div_same by lia.
  - rewrite chunks_of_closed_form by lia.
    replace (Z.min threads size) with size by lia. f_equal.
    apply list_eq. intros j. rewrite !list_lookup_fmap.
    destruct (decide (j < Z.to_nat size)%nat) as [Hj|Hj].
    + rewrite lookup_seq_lt, lookup_seqZ_lt by lia. cbn. f_equal.
      unfold chunk_at. rewrite Z.div_same by lia.
      destruct (Z.eqb_spec (Z.of_nat j) (size - 1)); f_equal; try lia;
        f_equal; lia.
    + rewrite lookup_seq_ge, lookup_seqZ_ge by lia. done.
Qed.

Lemma more_threads_than_elements_witness :
  (1 ≤ 3 ∧ 3 ≤ 64)
  ∧ chunks_of false 3 64 = Some [Chunk 0 1 0; Chunk 1 2 1; Chunk 2 3 2].
Proof.
  split; [lia|].
  destruct (more_threads_than_elements false 3 64) as [_ Hc]; [lia|lia|].
  rewrite Hc. reflexivity.
Defined.

(** X17: With one worker and a sequence that starts at zero the compile-time
    form passes the indices themselves: when the call returns normally the
    callable has been applied to [0, Ns, 2 Ns, ...] below [Nn], in this
    order, with 0 as thread id. *)
Theorem static_single_worker (k : callbacks) (Tbits Nn Ns : Z)
    (st0 st : state) (schedule : list owner) :
  0 ≤ Tbits ≤ 64 → 0 ≤ Nn → 1 ≤ Ns → 2 * (Nn + Ns) ≤ 2 ^ Tbits →
  async_for_each_index_init Tbits 0 Nn Ns 1 = Some st0 →
  run k schedule st0 = Some st →
  (∃ n, calls (sh st)
        = (λ I0, IndexCall I0 0) <$> take n (make_stepped_sequence Tbits 0 Nn Ns))
  ∧ (caller st = CReturned →
     calls (sh st)
     = (λ I0, IndexCall I0 0) <$> make_stepped_sequence Tbits 0 Nn Ns).
Proof.
  intros HT HN HNs Hfit Hinit Hrun.
  destruct (static_unit_order k Tbits 0 Nn Ns 1 st0 st schedule Hinit Hrun)
    as (Hth & Hunits & _).
  destruct (Hunits 0%nat ltac:(lia)) as (args & n & Ha & Hpre & Hret).
  change (Z.of_nat 0) with 0 in Ha.
  assert (Hall : unit_calls 0 (sh st) = calls (sh st)).
  { apply unit_calls_all. intros c Hc%Hth. lia. }
  rewrite Hall in *.
  assert (Hargs : args = make_stepped_sequence Tbits 0 Nn Ns).
  { pose proof (total_bounds 0 Nn Ns HN HNs) as (Ht0 & _). cbv zeta in Ht0.
    destruct (unit_indices_shifted Tbits 0 Nn Ns 0 1)
      as (c & chunk & Hc & Hty & _ & _ & Hzero & _); [lia..|].
    destruct (chunk_types_partition Tbits 0 Nn Ns 1) as (_ & tys & Htys & Hcat);
      [lia..|].
    unfold chunk_types in Htys. change (seqZ 0 1) with [0] in Htys.
    cbn in Htys. rewrite Hc in Htys. cbn in Htys. injection Htys as <-.
    cbn in Hcat. rewrite app_nil_r, Hty in Hcat.
    rewrite <- Hcat. rewrite Hzero in Ha; [by injection Ha as <-|].
    left. rewrite chunk_of_sequence_exact in Hc by lia.
    injection Hc as <-. cbn. lia. }
  subst args. split; [by exists n|done].
Qed.

Lemma static_single_worker_witness :
  ∃ st0 st,
    (0 ≤ 64 ≤ 64 ∧ 0 ≤ 7 ∧ 1 ≤ 3)
    ∧ async_for_each_index_init 64 0 7 3 1 = Some st0
    ∧ run no_throw (replicate 5 (Unit 0) ++ replicate 4 Caller) st0 = Some st
    ∧ caller st = CReturned
    ∧ calls (sh st) = [IndexCall 0 0; IndexCall 3 0; IndexCall 6 0].
Proof.
  eexists _, _. split; [lia|]. split; [reflexivity|].
  split; [vm_compute; reflexivity|]. split; [reflexivity|].
  match goal with
  | |- calls (sh ?st) = _ =>
      destruct (static_single_worker no_throw 64 7 3
                  (State shared_init [Launched (IndexTask [0; 3; 6]) SStart] (CGet 0))
                  st (replicate 5 (Unit 0) ++ replicate 4 Caller))
        as (_ & Hret)
  end.
  - lia.
  - lia.
  - lia.
  - by vm_compute.
  - by vm_compute.
  - vm_compute. reflexivity.
  - rewrite Hret by reflexivity. reflexivity.
Defined.
